(* ===== verification/_CoqProject ===== *)
-Q . S2P
Prelude.v
Profiler.v
Pack.v
Profile.v
Sketch.v
Rng.v
Evaluation.v
Levenshtein.v
Genome.v
EvalThread.v
Observer.v
Epoch.v
Run.v
ObservedRun.v
