(* ===== verification/Prelude.v ===== *)
(** * A verification development for berbalang's evaluation pipeline

    berbalang evolves byte strings and gadget chains ("genomes") by
    running each candidate under CPU emulation and scoring the trace.
    This library is a shallow embedding in Rocq of the parts of the
    Rust sources under [src/] that make up that pipeline, with the
    theorems that say what each part does.

    ** Parts of the program and how they interact

    - [src/emulator/profiler.rs]: the per-run execution log [Profiler]
      (three crossbeam [SegQueue]s written by the emulator's hooks, the
      final registers, an optional CPU error, the run time), its
      destructive conversion into a [Profile] ([From<Profiler>]), the
      aggregate [Profile] (index-aligned vectors, one entry per run),
      [absorb], [collate] and the read-only analytics.
    - [src/roper/evaluation.rs]: three fitness functions over a
      creature's profile (code coverage, register pattern, register
      conjunction) and the [Evaluator] that sends creatures to the
      emulator pool ("hatchery"), scores them and updates a count-min
      sketch.
    - [src/examples/hello_world.rs]: a complete genetic search over
      strings: [Genome] with crossover, mutation and memoised scoring,
      the [Epoch] with tournament selection ([evolve]) and the driver
      [run], an evaluator thread and an observer thread with a
      sliding [Window].
    Data flows from the generation loop to the evaluator, to the
    emulator, into a [Profiler], into a [Profile], to the fitness
    functions and back to selection.

    ** Files

    - [Prelude.v] (this file): the [berb_scope] notations, machine
      integers ([wrap64], [count_zeros64]), Rust [Vec] operations on
      lists ([vec_pop]), the error type [Res] ([Panic] or [OutOfFuel])
      with its [let*] notation, reflexive-transitive closure [star]
      with [star_invariant], the [berb] hint database and the generic
      lemmas the components share.
    - [Profiler.v]: [SegQueue] as a FIFO list, [Block], [MemLogEntry],
      the [Profiler] record and its operations ([Profiler::new],
      [read_registers], [register], [set_error]), the end address
      [block_debug_end] that [Block]'s [Debug] impl computes (a [u64]
      addition that panics on overflow), the emulator hooks
      that append to it (spec-modelled, the hooks live outside
      [src/]), and [segqueue_to_vec], proved total by well-founded
      recursion (Equations).
    - [Profile.v]: the [Profile] record, [profile_of_profiler]
      ([From<Profiler>]), [absorb], [collate] and the analytics
      ([avg_emulation_micros], [addresses_written_to],
      [mem_write_ratio], [was_this_written], [was_this_executed]),
      the write ratio over the writable segments of the static memory
      image ([size_of_writeable_memory], modelled from the spec: the
      loader is outside [src/]), a division by zero giving [None];
      [Block::get_code], [disas_paths] (the disassembler's text is a
      parameter), [From<Vec<Profiler>>], [HasProfile], the unit test
      [test_collate] with its [segqueue!] macro; the per-run view
      [run_at] and the alignment predicate.
    - [Pack.v]: the trait [Pack] and its instance for byte vectors.
    - [Sketch.v]: the frequency sketch of spec 4.3 (its source,
      [util/count_min_sketch.rs], is not in the repository): the class
      [Sketch] of its insert/query laws, a count-min sketch [CMS] as an
      instance, and the fact that estimates never undercount; the
      count-min sketch's inserts commute.
    - [Rng.v]: the class [Rng] of what the [rand] crate promises
      (ranges, [shuffle] is a permutation, [Alphanumeric] yields
      letters and digits) and the draws [gen::<usize>], [gen::<u8>],
      [gen::<f32>] built on it; two concrete instances, [Tape] (a list
      of draws) and [Fixed_rng], on which the witnesses compute.
    - [Evaluation.v]: [roper/evaluation.rs]: [Weighted], [Creature],
      the class [ProfileApi] (the Profile methods the file calls, which
      this revision's [profiler.rs] lacks) and the class [Hatchery]
      (the emulator pool); [code_coverage_ff], [register_pattern_ff],
      [register_conjunction_ff]; and in [Module Evaluator] the record
      [t], [evaluate], [eval_pipeline] and the output register list
      of [spawn].
    - [Levenshtein.v]: the edit distance of the [distance] crate
      (spec-modelled): zero exactly on equal strings, bounded by the
      longer length.
    - [Genome.v]: hello_world's [Config], [Genome], [Genome::new],
      [crossover] (with [str::split_at]'s boundary panic),
      [mutate] (its rejection loop under fuel), [mate], [fitter_than]
      and [score_mut], all parametric in the generator.
    - [EvalThread.v]: the evaluator thread and its two channels as a
      step relation [eval_step]; [evaluate] is the function a round
      trip refines to.
    - [Observer.v]: the observer thread's [Window] ([new], [insert],
      [report]) and the thread's loop [observe_all]; the [Observer]
      struct, whose channel [tx] is the list of genomes sent so far,
      [Observe::spawn], [Observe::observe] ([tx.send]) and the thread
      over everything sent ([Observer_handle]).
    - [Epoch.v]: [Epoch], [update_best], one generation [evolve]
      (shuffle, draw, rank, cull, requeue, mate, push back) with each
      of its loops as a function, [Epoch::new] and [run].
    - [Run.v]: [run]'s loop as a transition system: one generation is
      a step [gen_step] on the epoch and the generator, and
      [reachable] states are those a trace from [Epoch::new] leads
      to; their invariants are proved per step and lifted with
      [star_invariant].
    - [ObservedRun.v]: the composition of [run] with its observer:
      [evolve_n] runs [n] generations and sends every generation's
      scored combatants on the observer's channel, as [evolve] does;
      [run_observed] starts from [Epoch::new] and [Observer::spawn].

    ** What the theorems show

    - Profiles: the drain returns the log in FIFO order; the [i]-th
      entry of every per-run vector of [collate ps] describes the
      [i]-th profiler; [absorb] is associative with [collate] and
      preserves alignment; [collate] equals folding [absorb] over
      singleton profiles from [collate []] and NOT from
      [Profile::default()] (whose [executable] is [false]);
      [writeable_memory] is never filled; [was_this_executed] and
      [addresses_written_to] meet their set specifications; the write
      ratio lies in [0,1] when every write stays in a writable segment
      of the memory image (and is [0/0] on an image without one);
      [read_registers] panics exactly on a failed register read.
    - Evaluation: [code_coverage_ff] counts exactly the addresses of
      the blocks of the paths (with the [u64] wrap), inserts each into
      the sketch while scoring and so scores [code_frequency >= 1];
      scoring a creature again against the count-min sketch its first
      scoring left raises its [code_frequency] by at least 1, so the
      creatures of one batch are not scored against one pre-batch
      sketch; [register_conjunction_ff] counts the bit
      positions stuck at zero; the three panics of the fitness
      functions happen exactly where the code indexes without a check;
      [evaluate] attaches the hatchery's profile, and [eval_pipeline]
      executes only the creatures without a profile and returns every
      creature once; [spawn]'s output registers are the configured and
      the pattern's registers, and a register in both is read back
      twice unless the configured list ends with it ([dedup] only
      drops adjacent repeats); [spawn] gives each an input value; a block's end address
      either overflows (the [Debug] print panics and the wrapped range
      counts no address) or the block covers exactly [size]
      addresses.
    - Genomes: crossover yields two children whose lengths add up to
      the parents', never panics on non-empty printable parents and
      panics on an empty one; mutation keeps genomes printable and
      returns once the byte stream holds a printable byte; [mate]
      yields two children whatever [num_offspring] says.
    - Threads: whatever the interleaving, [evaluate] returns the
      worker's score of what it sent (refinement), the round trip
      completes, and a call on the live worker (it cannot end while the
      [Evaluator] holds its channel) never panics and is never stuck
      before it returns; a call on a dead worker panics; the observer's window never panics once built,
      reports once per [window_size] insertions, and never reports
      NaN on scored genomes.
    - Selection: one generation keeps the rest, requeues
      [tournament_size - (num_offspring + 2)] bystanders and mates the
      two fittest combatants; it changes the population size by
      [2 - num_offspring], keeps every genome printable and every
      memoised fitness true, never worsens the best, returns on a
      valid configuration, and panics on a bad configuration or a
      population smaller than a tournament; [run] only returns a
      genome that spells the target.
    - Runs: every state a run reaches keeps its configuration, keeps
      every genome non-empty and printable with its true fitness (the
      type invariant of the population), and after [k] generations
      holds [pop_size + 2k - k * num_offspring] genomes; [run]'s
      answer is the fitness-0 best of a reachable state.
    - Observed runs: after [n] generations the observer has received
      the [n * tournament_size] scored combatants, in order, and its
      thread has logged [n * tournament_size / window_size] averages,
      none a NaN, while the state is a reachable one; the thread
      panics exactly when [window_size = 0], and the run goes on
      regardless, since [evolve] ignores the failed sends.

    ** Bounds and fuel

    The only unbounded loops of the modelled code are the byte loop of
    [Genotype::mutate] ([while c < 0x20 || 0x7E < c]) and [run]'s
    [loop].  The first takes [fuel] draws and fails with [OutOfFuel]
    beyond; the termination theorems assume the generator yields a
    printable byte within [fuel] draws ([fair_bytes]), which is what
    makes the real loop stop.  [run] takes a generation bound [gens];
    its correctness theorem holds for every bound.  All other loops
    are structural over lists or counters.

    ** Not modelled

    - The collaborators [Evaluator::spawn] calls (the pattern parser
      and the constructors of the hatchery and the sketch), whose code
      is not in the repository: they are parameters of the model.
    - The timing of the observer thread: the channel is unbounded, so
      [send] never waits, and the thread is modelled by its effect on
      everything sent ([Observer_handle]); when it dies, [send] fails,
      but [evolve] drops that [Result], so the failure has no effect
      the model could show.  [Observe::report] is [unimplemented!()].
    - [Block::disassemble] (the capstone disassembler over the static
      memory image; a parameter of [disas_paths]), the text of the
      Debug impls (only the end address of [Block]'s is modelled),
      [println!] and logging, which produce text.
    - [src/util/mod.rs], which only declares modules whose files are
      not in the repository.

    The crates
    [rand], [distance] and the count-min sketch are modelled by what
    the code and the spec need of them ([Rng.v], [Levenshtein.v],
    [Sketch.v]).

    ** Modelling conventions

    Rust [u64]/[usize] values are [Z] or [nat] with the wrap-around
    written out where it matters ([wrap64]); [f32]/[f64] values are
    exact rationals [Q] (rounding is not modelled, NaN is explicit);
    [HashSet]/[HashMap] are stdpp's [gset]/[gmap]; [String]s are lists
    of bytes ([list ascii]); [Vec::push]/[Vec::pop] act at the end of a
    list.  A panic ([unwrap], [expect], a remainder by zero, an index
    out of range, a [usize] underflow in a debug build) is [None] in
    [Profiler.v] and [inl Panic] elsewhere.  Randomness is an explicit
    generator state threaded through the code, through the class
    [Rng]. *)

From Stdlib Require Export ZArith QArith.
From stdpp Require Export base list gmap sets strings sorting.

Declare Scope berb_scope.
Delimit Scope berb_scope with berb.
Open Scope berb_scope.

Create HintDb berb discriminated.
Create Rewrite HintDb berb_rw.

(** ** Machine integers *)

(** [2^64], the modulus of Rust's [u64] (and [usize] on the 64-bit
    hosts berbalang runs on). *)
Definition u64_modulus : Z := 2 ^ 64.

(** Wrapping (release-build) arithmetic on [u64]. *)
Definition wrap64 (z : Z) : Z := z mod u64_modulus.

Notation "x +w y" := (wrap64 (x + y)%Z) (at level 50, left associativity) : berb_scope.

(** [u64::MAX], the literal [0xffff_ffff_ffff_ffff]. *)
Definition u64_max : Z := u64_modulus - 1.

(** [u64::count_zeros]: the number of zero bits among the 64 bits. *)
Definition count_zeros64 (x : Z) : nat :=
  length (filter (fun i => negb (Z.testbit x (Z.of_nat i))) (seq 0 64)).

Lemma wrap64_range z : (0 <= wrap64 z < u64_modulus)%Z.
Proof. unfold wrap64, u64_modulus. apply Z.mod_pos_bound. lia. Qed.

Lemma wrap64_small z : (0 <= z < u64_modulus)%Z -> wrap64 z = z.
Proof. intros. unfold wrap64. by apply Z.mod_small. Qed.

(** A sum of two [u64] that overflows wraps to the sum less [2^64]. *)
Lemma wrap64_overflow z : (u64_modulus <= z < 2 * u64_modulus)%Z -> wrap64 z = (z - u64_modulus)%Z.
Proof.
  intros Hz. unfold wrap64. rewrite <- (Z.mod_add _ (-1)) by (unfold u64_modulus; lia).
  apply Z.mod_small. lia.
Qed.

#[export] Hint Resolve wrap64_range : berb.

(** ** Rust vectors as lists *)

(** [Vec::pop]: remove and return the last element. *)
Definition vec_pop {A} (v : list A) : option (A * list A) :=
  match rev v with
  | [] => None
  | x :: r => Some (x, rev r)
  end.

Lemma vec_pop_snoc {A} (v : list A) (x : A) : vec_pop (v ++ [x]) = Some (x, v).
Proof. unfold vec_pop. by rewrite rev_unit, rev_involutive. Qed.

Lemma vec_pop_nil {A} : vec_pop (@nil A) = None.
Proof. done. Qed.

Lemma vec_pop_Some {A} (v v' : list A) x : vec_pop v = Some (x, v') -> v = v' ++ [x].
Proof.
  unfold vec_pop. destruct (rev v) as [|y r] eqn:E; [done|].
  intros [= -> <-]. rewrite <- (rev_involutive v), E. done.
Qed.

Lemma vec_pop_None {A} (v : list A) : vec_pop v = None -> v = [].
Proof. unfold vec_pop. destruct v using rev_ind; [done|]. by rewrite rev_unit. Qed.

(** [Vec::dedup]: removes consecutive repeated elements only. *)
Fixpoint vec_dedup `{EqDecision A} (v : list A) : list A :=
  match v with
  | x :: ((y :: _) as v') => if decide (x = y) then vec_dedup v' else x :: vec_dedup v'
  | _ => v
  end.

Lemma elem_of_vec_dedup `{EqDecision A} (v : list A) (x : A) : x ∈ vec_dedup v <-> x ∈ v.
Proof.
  induction v as [|a v IH]; [done|]. destruct v as [|b v]; [done|].
  cbn [vec_dedup]. case_decide as Hab.
  - subst b. rewrite IH, !elem_of_cons. tauto.
  - rewrite elem_of_cons, IH. rewrite (elem_of_cons (b :: v)). tauto.
Qed.

(** [Vec::dedup] keeps the first element of a non-empty vector. *)
Lemma vec_dedup_head `{EqDecision A} (x : A) (v : list A) :
  exists v', vec_dedup (x :: v) = x :: v'.
Proof.
  revert x. induction v as [|y v IH]; intros x; [by exists []|].
  cbn [vec_dedup]. case_decide as Hxy; [subst y; apply IH|by eexists].
Qed.

(** [Vec::dedup] of a concatenation: the two halves deduplicated, less
    the second half's first element when it repeats the last element of
    the first half. *)
Lemma vec_dedup_app `{EqDecision A} (l1 l2 : list A) :
  vec_dedup (l1 ++ l2) = vec_dedup l1 ++
    match last l1, l2 with
    | Some a, b :: _ => if decide (a = b) then tail (vec_dedup l2) else vec_dedup l2
    | _, _ => vec_dedup l2
    end.
Proof.
  induction l1 as [|x l1 IH]; [done|].
  destruct l1 as [|y l1].
  - destruct l2 as [|b l2]; [done|]. cbn [app last].
    change (vec_dedup (x :: b :: l2))
      with (if decide (x = b) then vec_dedup (b :: l2) else x :: vec_dedup (b :: l2)).
    case_decide as Hxb; [|done]. subst b.
    destruct (vec_dedup_head x l2) as [v' ->]. done.
  - change ((x :: y :: l1) ++ l2) with (x :: y :: (l1 ++ l2)).
    rewrite last_cons_cons.
    change (vec_dedup (x :: y :: l1 ++ l2)) with (if decide (x = y) then vec_dedup ((y :: l1) ++ l2)
                                                  else x :: vec_dedup ((y :: l1) ++ l2)).
    change (vec_dedup (x :: y :: l1))
      with (if decide (x = y) then vec_dedup (y :: l1) else x :: vec_dedup (y :: l1)).
    rewrite IH. by case_decide.
Qed.

(** An element of a list occurs in it at least once. *)
Lemma filter_eq_length_pos `{EqDecision A} (l : list A) (a : A) :
  a ∈ l -> 0 < length (filter (fun b => b = a) l).
Proof.
  induction l as [|b l IH]; intros Ha; [by apply not_elem_of_nil in Ha|].
  rewrite filter_cons. apply elem_of_cons in Ha as [->|Ha].
  - rewrite decide_True by done. simpl. lia.
  - case_decide; simpl; [lia|by apply IH].
Qed.

(** An element of both halves survives [Vec::dedup] twice unless the
    first half ends with it. *)
Lemma vec_dedup_app_twice `{EqDecision A} (l1 l2 : list A) (r : A) :
  r ∈ l1 -> r ∈ l2 -> last l1 <> Some r ->
  2 <= length (filter (fun x => x = r) (vec_dedup (l1 ++ l2))).
Proof.
  intros H1 H2 Hlast. rewrite vec_dedup_app, filter_app, length_app.
  pose proof (filter_eq_length_pos (vec_dedup l1) r (proj2 (elem_of_vec_dedup _ _) H1)).
  assert (r ∈ match last l1, l2 with
              | Some a, b :: _ => if decide (a = b) then tail (vec_dedup l2) else vec_dedup l2
              | _, _ => vec_dedup l2
              end) as Hin.
  { destruct (last l1) as [a|], l2 as [|b l2]; try by apply elem_of_vec_dedup.
    case_decide as Hab; [|by apply elem_of_vec_dedup]. subst b.
    pose proof (proj2 (elem_of_vec_dedup (a :: l2) r) H2) as Hr.
    destruct (vec_dedup_head a l2) as [v' Hv]. rewrite Hv in Hr |- *.
    apply elem_of_cons in Hr as [->|Hr]; [done|exact Hr]. }
  pose proof (filter_eq_length_pos _ r Hin). lia.
Qed.

(** Pushing the elements of [q] one by one onto [v] appends [q]. *)
Lemma foldl_push {A} (v q : list A) : foldl (fun acc x => acc ++ [x]) v q = v ++ q.
Proof.
  revert v. induction q as [|x q IH]; intros v; simpl; [by rewrite app_nil_r|].
  by rewrite IH, <- app_assoc.
Qed.

Lemma foldl_ext {A B} (f g : A -> B -> A) (a : A) (l : list B) :
  (forall acc x, f acc x = g acc x) -> foldl f a l = foldl g a l.
Proof. intros Hfg. revert a. induction l as [|x l IH]; intros a0; simpl; rewrite ?Hfg; auto. Qed.

#[export] Hint Rewrite @vec_pop_snoc @foldl_push : berb_rw.

(** ** Sets built by repeated insertion *)

(** The loop [for x in xs { set.insert(x) }] starting from [s]. *)
Definition insert_all `{Countable A} (xs : list A) (s : gset A) : gset A :=
  foldl (fun acc x => {[x]} ∪ acc) s xs.

Lemma insert_all_spec `{Countable A} (xs : list A) (s : gset A) :
  insert_all xs s = list_to_set xs ∪ s.
Proof.
  unfold insert_all. revert s. induction xs as [|x xs IH]; intros s; simpl.
  - set_solver.
  - rewrite IH. set_solver.
Qed.

Lemma elem_of_insert_all `{Countable A} (xs : list A) (s : gset A) x :
  x ∈ insert_all xs s <-> x ∈ xs \/ x ∈ s.
Proof. rewrite insert_all_spec, elem_of_union, elem_of_list_to_set. done. Qed.

(** A set built from a list has at most as many elements as the list. *)
Lemma size_list_to_set_le `{Countable A} (l : list A) : size (list_to_set l : gset A) <= length l.
Proof.
  induction l as [|x l IH]; [by rewrite list_to_set_nil, size_empty|].
  rewrite list_to_set_cons, size_union_alt, size_singleton. simpl.
  pose proof (subseteq_size (list_to_set l ∖ {[x]} : gset A) (list_to_set l)
    ltac:(set_solver)). lia.
Qed.

Lemma size_insert_all `{Countable A} (xs : list A) (s : gset A) :
  size (insert_all xs s) <= length xs + size s.
Proof.
  revert s. induction xs as [|x xs IH]; intros s; simpl; [lia|].
  etrans; [apply IH|].
  rewrite size_union_alt, size_singleton.
  pose proof (subseteq_size (s ∖ {[x]}) s ltac:(set_solver)). lia.
Qed.

#[export] Hint Rewrite @insert_all_spec : berb_rw.

(** ** Tactics *)

(** Unfold a record-building step and close the goal by computation
    and the [berb] rewrite database. *)
Ltac berb_simpl := repeat progress (autorewrite with berb_rw; simpl).

(** ** Errors of code that can panic or loop

    A Rust panic is [Panic]; a retry loop of the source modelled with
    a bound on its iterations that ran out of iterations is
    [OutOfFuel].  [Res A] is the result of such code. *)
Inductive Fault := Panic | OutOfFuel.

#[export] Instance Fault_eq_dec : EqDecision Fault.
Proof. solve_decision. Defined.

Definition Res (A : Type) : Type := (Fault + A)%type.

Definition res_bind {A B} (m : Res A) (k : A -> Res B) : Res B :=
  match m with
  | inl e => inl e
  | inr a => k a
  end.

Notation "'let*' p := m 'in' k" := (res_bind m (fun p => k))
  (at level 200, p pattern, m at level 100, k at level 200) : berb_scope.

Lemma res_bind_inr {A B} (m : Res A) (k : A -> Res B) (b : B) :
  res_bind m k = inr b -> exists a, m = inr a /\ k a = inr b.
Proof. destruct m; simpl; [done|eauto]. Qed.

(** Whether a computation returned; evaluating it by [vm_compute]
    discards the value, closures included. *)
Definition res_ok {A} (m : Res A) : bool := match m with inr _ => true | inl _ => false end.

Lemma res_ok_inr {A} (m : Res A) : res_ok m = true -> exists a, m = inr a.
Proof. destruct m; [done|eauto]. Qed.

Lemma res_bind_inl {A B} (m : Res A) (k : A -> Res B) (e : Fault) :
  res_bind m k = inl e -> m = inl e \/ exists a, m = inr a /\ k a = inl e.
Proof. destruct m; simpl; [intros [= ->]; by left|eauto]. Qed.

(** ** Sequences of steps of a transition relation *)

Section Star.
Context {S : Type} (step : S -> S -> Prop).

Inductive star : S -> S -> Prop :=
  | star_refl s : star s s
  | star_step s1 s2 s3 : step s1 s2 -> star s2 s3 -> star s1 s3.

Lemma star_one s1 s2 : step s1 s2 -> star s1 s2.
Proof. eauto using star. Qed.

Lemma star_trans s1 s2 s3 : star s1 s2 -> star s2 s3 -> star s1 s3.
Proof. induction 1; eauto using star. Qed.

(** An invariant of every step holds along every sequence of steps. *)
Lemma star_invariant (I : S -> Prop) s1 s2 :
  (forall a b, I a -> step a b -> I b) -> I s1 -> star s1 s2 -> I s2.
Proof. intros Hstep Hs1 Hst. induction Hst; eauto. Qed.

End Star.

#[export] Hint Constructors star : berb.
#[export] Hint Resolve star_one star_trans : berb.
