(* ===== verification/Profiler.v ===== *)
(** * The per-run execution log ([src/emulator/profiler.rs], lines 1-144
    and 294-353)

    A [Profiler] is created empty for each run; the emulator's hooks
    push basic blocks, gadget addresses and memory writes onto three
    lock-free queues while the run executes; the registers, the CPU
    error and the run time are set afterwards.  The queues are drained
    exactly once, in FIFO order, when the profiler is turned into a
    [Profile] (next file).  This file holds the queue model, the data
    of the log, the operations of [impl Profiler], the hooks (modelled
    from the spec: they live in the hatchery, outside [src/]) and the
    drain loops, proved total by well-founded recursion. *)

From S2P Require Import Prelude.
From Equations Require Import Equations.

(** ** crossbeam's [SegQueue]

    An unbounded multi-producer queue.  Its contents at any instant
    are a sequence: [push] appends at the tail, [pop] removes the
    head.  Concurrent [push]es from the emulator's callbacks are
    linearised, so a run of hooks is a sequence of pushes. *)
Definition SegQueue (A : Type) := list A.

Definition sq_push {A} (x : A) (q : SegQueue A) : SegQueue A := q ++ [x].

Definition sq_pop {A} (q : SegQueue A) : option (A * SegQueue A) :=
  match q with
  | [] => None
  | x :: q' => Some (x, q')
  end.

Lemma sq_pop_shrinks {A} (q q' : SegQueue A) x :
  sq_pop q = Some (x, q') -> length q' < length q.
Proof. destruct q; simpl; [done|]. intros [= -> ->]. lia. Qed.

(** The loop [while let Ok(x) = q.pop() { acc = f(acc, x) }], shared
    by [segqueue_to_vec] (where [f] is [Vec::push]) and the gadget
    drain of [From<Profiler>] (where [f] is [HashSet::insert]).  It
    terminates because every [pop] shortens the queue. *)
Equations? drain_fold {A B} (f : B -> A -> B) (q : SegQueue A) (acc : B) : B
  by wf (length q) lt :=
  drain_fold f q acc with Equations.Prop.Logic.inspect (sq_pop q) := {
    | exist _ (Some (x, q')) E := drain_fold f q' (f acc x);
    | exist _ None E := acc }.
Proof. eapply sq_pop_shrinks; eauto. Qed.

(** [fn segqueue_to_vec]. *)
Definition segqueue_to_vec {A} (q : SegQueue A) : list A :=
  drain_fold (fun v x => v ++ [x]) q [].

(** ** The data recorded during a run *)

(** [struct Block]: a basic block entered by the emulator.  The
    module keeps the field [size] from clashing with stdpp's [size]. *)
Module Block.
Record t := mk { entry : Z; size : Z }.
End Block.
Abbreviation Block := Block.t.

#[export] Instance Block_eq_dec : EqDecision Block.
Proof. solve_decision. Qed.

(** The end address [Block]'s [Debug] impl prints,
    [self.entry + self.size as u64]: an addition of [u64] that panics on
    overflow in a debug build. *)
Definition block_debug_end (b : Block) : Res Z :=
  if decide (Block.entry b + Block.size b < u64_modulus)%Z
  then inr (Block.entry b + Block.size b)%Z else inl Panic.

(** [struct MemLogEntry]: one memory write seen by the write hook. *)
Record MemLogEntry := mkMemLogEntry {
  program_counter : Z;
  address : Z;
  num_bytes_written : Z;
  value : Z
}.

#[export] Instance MemLogEntry_eq_dec : EqDecision MemLogEntry.
Proof. solve_decision. Qed.

(** [unicorn::Error], carried as its numeric [uc_err] code. *)
Definition UCError := N.

(** [std::time::Duration], in nanoseconds. *)
Definition Duration := N.

(** [loader::Seg], a memory segment; the profile only carries it. *)
Record Seg := mkSeg { seg_addr : Z; seg_data : list Z }.

(** [Register<C>]: an architecture register, by its name. *)
Definition Register := string.

(** [RegisterState]: for each register, its value followed by the
    words it points to in written memory ([register_pattern.rs], not
    under [src/]; modelled from the spec, which only fixes the first
    word, the register's final value). *)
Definition RegisterState := gmap Register (list Z).

(** [RegisterState::new]: the dereference chain through
    [written_memory] is given by [deref] (empty when nothing is
    reachable). *)
Definition RegisterState_new (deref : list Seg -> Z -> list Z)
    (registers : gmap Register Z) (written_memory : list Seg) : RegisterState :=
  (fun v => v :: deref written_memory v) <$> registers.

(** ** [struct Profiler] *)
Record Profiler := mkProfiler {
  block_log : SegQueue Block;
  gadget_log : SegQueue Z;
  written_memory : list Seg;
  write_log : SegQueue MemLogEntry;
  cpu_error : option UCError;
  emulation_time : Duration;
  registers : gmap Register Z;
  registers_to_read : list Register;
  input : gmap Register Z
}.

(** [impl Default for Profiler]. *)
Definition Profiler_default : Profiler := {|
  write_log := []; input := ∅; registers := ∅; cpu_error := None;
  registers_to_read := []; emulation_time := 0%N; block_log := [];
  gadget_log := []; written_memory := [] |}.

(** [Profiler::new]. *)
Definition Profiler_new (output_registers : list Register)
    (inp : gmap Register Z) : Profiler :=
  {| registers_to_read := output_registers; input := inp;
     write_log := []; registers := ∅; cpu_error := None;
     emulation_time := 0%N; block_log := []; gadget_log := [];
     written_memory := [] |}.

(** [self.registers] replaced by [m], every other field kept. *)
Definition with_registers (q : Profiler) (m : gmap Register Z) : Profiler :=
  {| block_log := block_log q; gadget_log := gadget_log q;
     written_memory := written_memory q; write_log := write_log q;
     cpu_error := cpu_error q; emulation_time := emulation_time q;
     registers := m; registers_to_read := registers_to_read q; input := input q |}.

(** One iteration of [read_registers]: [emu.reg_read(r)] may fail, and
    the [expect] turns the failure into a panic ([None]). *)
Definition read_one (reg_read : Register -> option Z) (acc : option Profiler)
    (r : Register) : option Profiler :=
  match acc, reg_read r with
  | Some q, Some v => Some (with_registers q (<[r := v]> (registers q)))
  | _, _ => None
  end.

(** [Profiler::read_registers]. *)
Definition read_registers (reg_read : Register -> option Z) (p : Profiler)
    : option Profiler :=
  foldl (read_one reg_read) (Some p) (registers_to_read p).

(** [Profiler::register]. *)
Definition register (p : Profiler) (reg : Register) : option Z := registers p !! reg.

(** [Profiler::set_error]. *)
Definition set_error (e : UCError) (p : Profiler) : Profiler :=
  {| block_log := block_log p; gadget_log := gadget_log p;
     written_memory := written_memory p; write_log := write_log p;
     cpu_error := Some e; emulation_time := emulation_time p;
     registers := registers p; registers_to_read := registers_to_read p;
     input := input p |}.

(** ** The emulator's hooks (spec-modelled)

    The block, gadget and memory-write hooks installed by the hatchery
    push onto the three queues; a run is the sequence of hook events
    in the order the queues linearise them. *)
Inductive HookEvent :=
  | EvBlock (b : Block)
  | EvGadget (addr : Z)
  | EvWrite (e : MemLogEntry).

Definition log_event (p : Profiler) (ev : HookEvent) : Profiler :=
  match ev with
  | EvBlock b =>
      {| block_log := sq_push b (block_log p); gadget_log := gadget_log p;
         written_memory := written_memory p; write_log := write_log p;
         cpu_error := cpu_error p; emulation_time := emulation_time p;
         registers := registers p; registers_to_read := registers_to_read p;
         input := input p |}
  | EvGadget g =>
      {| block_log := block_log p; gadget_log := sq_push g (gadget_log p);
         written_memory := written_memory p; write_log := write_log p;
         cpu_error := cpu_error p; emulation_time := emulation_time p;
         registers := registers p; registers_to_read := registers_to_read p;
         input := input p |}
  | EvWrite e =>
      {| block_log := block_log p; gadget_log := gadget_log p;
         written_memory := written_memory p; write_log := sq_push e (write_log p);
         cpu_error := cpu_error p; emulation_time := emulation_time p;
         registers := registers p; registers_to_read := registers_to_read p;
         input := input p |}
  end.

Definition run_hooks (p : Profiler) (evs : list HookEvent) : Profiler :=
  foldl log_event p evs.

(** The projections of a hook trace onto each queue. *)
Definition blocks_of (evs : list HookEvent) : list Block :=
  omap (fun ev => match ev with EvBlock b => Some b | _ => None end) evs.
Definition gadgets_of (evs : list HookEvent) : list Z :=
  omap (fun ev => match ev with EvGadget g => Some g | _ => None end) evs.
Definition writes_of (evs : list HookEvent) : list MemLogEntry :=
  omap (fun ev => match ev with EvWrite e => Some e | _ => None end) evs.

(** ** The drain loop *)

Lemma drain_fold_spec {A B} (f : B -> A -> B) (q : SegQueue A) (acc : B) :
  drain_fold f q acc = foldl f acc q.
Proof.
  funelim (drain_fold f q acc);
    destruct q as [|y q0]; simpl in *; try discriminate; [|done].
  injection E as -> ->. done.
Qed.

(** [segqueue_to_vec] drains the queue in FIFO order: what it
    returns is exactly the sequence of elements pushed, oldest first. *)
Lemma segqueue_to_vec_id {A} (q : SegQueue A) : segqueue_to_vec q = q.
Proof. unfold segqueue_to_vec. by rewrite drain_fold_spec, foldl_push. Qed.

Lemma read_one_None_fold rr (rs : list Register) : foldl (read_one rr) None rs = None.
Proof. induction rs; simpl; auto. Qed.

Lemma read_fold_None rr (rs : list Register) q :
  foldl (read_one rr) (Some q) rs = None <-> exists r, r ∈ rs /\ rr r = None.
Proof.
  revert q. induction rs as [|r rs IH]; intros q; simpl.
  - split; [done|]. intros (r & Hr & _). by apply not_elem_of_nil in Hr.
  - destruct (rr r) as [v|] eqn:Hr.
    + rewrite IH. setoid_rewrite elem_of_cons. naive_solver.
    + rewrite read_one_None_fold. split; [|done]. intros _. exists r. set_solver.
Qed.

Lemma read_fold_Some rr (rs : list Register) q q' :
  foldl (read_one rr) (Some q) rs = Some q' ->
  exists m, q' = with_registers q m /\
    forall r, m !! r = if decide (r ∈ rs) then rr r else registers q !! r.
Proof.
  revert q. induction rs as [|r rs IH]; intros q; simpl.
  - intros [= <-]. exists (registers q). split; [by destruct q|].
    done.
  - destruct (rr r) as [v|] eqn:Hr; [|by rewrite read_one_None_fold].
    intros (m & -> & Hm)%IH. exists m. split; [done|].
    intros x. rewrite Hm. simpl.
    destruct (decide (x ∈ rs)), (decide (x ∈ r :: rs)); try set_solver.
    + assert (x = r) as -> by set_solver. by rewrite lookup_insert_eq.
    + rewrite lookup_insert_ne; set_solver.
Qed.

(** [read_registers] panics exactly when the emulator fails to read
    one of the registers it was asked to read. *)
Theorem read_registers_panics rr p :
  read_registers rr p = None <-> exists r, r ∈ registers_to_read p /\ rr r = None.
Proof. apply read_fold_None. Qed.

(** when [read_registers] returns, only the register map has
    changed, and it holds the emulator's value of every register in
    [registers_to_read] and the old value of every other register. *)
Theorem read_registers_values rr p p' :
  read_registers rr p = Some p' ->
  exists m, p' = with_registers p m /\
    forall r, registers p' !! r =
      if decide (r ∈ registers_to_read p) then rr r else registers p !! r.
Proof.
  intros (m & -> & Hm)%read_fold_Some. exists m. split; [done|]. apply Hm.
Qed.

(** ** Hooks and queues *)

Lemma run_hooks_logs p evs :
  block_log (run_hooks p evs) = block_log p ++ blocks_of evs /\
  gadget_log (run_hooks p evs) = gadget_log p ++ gadgets_of evs /\
  write_log (run_hooks p evs) = write_log p ++ writes_of evs /\
  cpu_error (run_hooks p evs) = cpu_error p /\
  emulation_time (run_hooks p evs) = emulation_time p /\
  registers (run_hooks p evs) = registers p /\
  written_memory (run_hooks p evs) = written_memory p.
Proof.
  unfold run_hooks. revert p. induction evs as [|ev evs IH]; intros p; simpl.
  - by rewrite !app_nil_r.
  - destruct (IH (log_event p ev)) as (-> & -> & -> & -> & -> & -> & ->).
    destruct ev; simpl; unfold sq_push; rewrite <- ?app_assoc; done.
Qed.

(** ** Witnesses *)

Lemma read_registers_values_witness :
  exists m, with_registers (Profiler_new ["rax"] ∅) (<["rax" := 5%Z]> ∅) =
            with_registers (Profiler_new ["rax"] ∅) m /\
    forall r, registers (with_registers (Profiler_new ["rax"] ∅) (<["rax" := 5%Z]> ∅)) !! r =
      if decide (r ∈ registers_to_read (Profiler_new ["rax"] ∅))
      then (fun _ => Some 5%Z) r else registers (Profiler_new ["rax"] ∅) !! r.
Proof.
  apply (read_registers_values (fun _ => Some 5%Z)). vm_compute. reflexivity.
Defined.
