(* ===== verification/Pack.v ===== *)
(** * Packing payloads into bytes ([src/emulator/pack.rs])

    The trait [Pack] turns a payload into the bytes written into the
    emulator's memory and into code addresses; its only instance in the
    repository, for [Vec<u8>], returns a copy of the bytes and leaves
    [as_code_addrs] [unimplemented!()], a panic. *)

From S2P Require Import Prelude.

(** [util::architecture::Endian]. *)
Inductive Endian := Little | Big.

(** [trait Pack]. *)
Class Pack (A : Type) := {
  pack : A -> nat -> Endian -> list Z;
  as_code_addrs : A -> nat -> Endian -> Res (list Z)
}.

(** [impl Pack for Vec<u8>]. *)
#[export] Instance Pack_bytes : Pack (list Z) := {|
  pack v _ _ := v;
  as_code_addrs _ _ _ := inl Panic
|}.
