(* ===== verification/Profile.v ===== *)
(** * The aggregate profile ([src/emulator/profiler.rs], lines 22-44, 73-292, 355-410)

    A [Profile] holds one entry per run in each of its vectors; a
    single run's profile is built by [From<Profiler>]
    ([profile_of_profiler]), profiles are concatenated by [absorb],
    and [collate] builds one from many profilers in a single pass.
    The theorems show that the vectors stay index-aligned, that
    [absorb] is associative and [collate] a homomorphism from lists
    of profilers to profiles, that [collate] agrees with absorbing
    singleton profiles, and what the analytics compute (the write
    ratio against the writable segments of the memory image).  [get_code]
    reads a block's bytes from the memory image and panics exactly when
    the image does not hold the whole block; the unit test
    [test_collate] is replayed as an example. *)

From S2P Require Import Prelude Profiler.

(** ** [struct Profile] *)
Record Profile := mkProfile {
  paths : list (list Block);
  cpu_errors : list (option UCError);
  emulation_times : list Duration;
  registers : list RegisterState;
  gadgets_executed : list (gset Z);
  writeable_memory : list (list Seg);
  write_logs : list (list MemLogEntry);
  executable : bool
}.

(** [#[derive(Default)]]: every vector empty and [executable = false]. *)
Definition Profile_default : Profile := {|
  paths := []; cpu_errors := []; emulation_times := []; registers := [];
  gadgets_executed := []; writeable_memory := []; write_logs := [];
  executable := false |}.

(** The gadget drain of [From<Profiler>] and [collate]:
    [while let Ok(g) = gadget_log.pop() { executed.insert(g); }]. *)
Definition drain_gadgets (gadget_log : SegQueue Z) : gset Z :=
  drain_fold (fun executed g => {[g]} ∪ executed) gadget_log ∅.

Section Profiles.

(** How [RegisterState::new] follows register values through the
    written memory; fixed for the whole pipeline. *)
Context (deref : list Seg -> Z -> list Z).

(** [impl From<Profiler<C>> for Profile]: drain each queue once and
    wrap every datum in a one-element vector. *)
Definition profile_of_profiler (p : Profiler) : Profile := {|
  paths := [segqueue_to_vec (block_log p)];
  cpu_errors := [cpu_error p];
  emulation_times := [emulation_time p];
  registers := [RegisterState_new deref (Profiler.registers p) (written_memory p)];
  gadgets_executed := [drain_gadgets (gadget_log p)];
  writeable_memory := [];
  write_logs := [segqueue_to_vec (write_log p)];
  executable := true |}.

(** [Profile::absorb]: extend every vector of [self] with [other]'s and
    [self.executable &= executable]. *)
Definition absorb (self other : Profile) : Profile := {|
  paths := paths self ++ paths other;
  cpu_errors := cpu_errors self ++ cpu_errors other;
  emulation_times := emulation_times self ++ emulation_times other;
  registers := registers self ++ registers other;
  gadgets_executed := gadgets_executed self ++ gadgets_executed other;
  writeable_memory := writeable_memory self ++ writeable_memory other;
  write_logs := write_logs self ++ write_logs other;
  executable := executable self && executable other |}.

(** The local vectors of [collate] before the loop, and [executable:
    true] of the value it returns. *)
Definition collate_init : Profile := {|
  paths := []; cpu_errors := []; emulation_times := []; registers := [];
  gadgets_executed := []; writeable_memory := []; write_logs := [];
  executable := true |}.

(** One iteration of the [for] loop of [collate]: every local vector
    but [writeable_memory_regions] gets one [push]. *)
Definition collate_step (acc : Profile) (p : Profiler) : Profile := {|
  paths := paths acc ++ [segqueue_to_vec (block_log p)];
  cpu_errors := cpu_errors acc ++ [cpu_error p];
  emulation_times := emulation_times acc ++ [emulation_time p];
  registers := registers acc ++
    [RegisterState_new deref (Profiler.registers p) (written_memory p)];
  gadgets_executed := gadgets_executed acc ++ [drain_gadgets (gadget_log p)];
  writeable_memory := writeable_memory acc;
  write_logs := write_logs acc ++ [segqueue_to_vec (write_log p)];
  executable := executable acc |}.

(** [Profile::collate] (and [From<Vec<Profiler<C>>>]). *)
Definition collate (profilers : list Profiler) : Profile :=
  foldl collate_step collate_init profilers.

End Profiles.

(** ** Analytics *)

(** [Profile::avg_emulation_micros]: the sum of the durations in whole
    microseconds divided by the number of runs.  On an empty profile
    this is [0.0 / 0.0], a NaN, modelled as [None]. *)
Definition avg_emulation_micros (p : Profile) : option Q :=
  let total_micros := (foldl N.add 0 (emulation_times p) / 1000)%N in
  match length (emulation_times p) with
  | O => None
  | n => Some (inject_Z (Z.of_N total_micros) / inject_Z (Z.of_nat n))%Q
  end.

(** The addresses touched by one write:
    [for i in 0..entry.num_bytes_written { entry.address + i as u64 }]
    (a [u64] addition, wrapping in a release build). *)
Definition entry_addresses (e : MemLogEntry) : list Z :=
  (fun i => address e +w Z.of_nat i) <$> seq 0 (Z.to_nat (num_bytes_written e)).

(** [Profile::addresses_written_to]. *)
Definition addresses_written_to (p : Profile) : gset Z :=
  foldl (fun set e => insert_all (entry_addresses e) set) ∅ (concat (write_logs p)).

(** The addresses a segment of the memory image spans. *)
Definition seg_addrs (s : Seg) : list Z := seqZ (seg_addr s) (Z.of_nat (length (seg_data s))).

(** [MemoryImage::size_of_writeable_memory] (the loader is outside the
    sources): the number of bytes of the image's writable segments. *)
Definition size_of_writeable_memory (writeable : list Seg) : nat :=
  sum_list ((fun s => length (seg_data s)) <$> writeable).

(** [Profile::mem_write_ratio]: [bytes_written as f64 /
    size_of_writeable as f64] over the static memory image's writable
    segments; a division by zero gives no finite number ([None]: an
    infinity, or a NaN for [0/0]). *)
Definition mem_write_ratio (writeable : list Seg) (p : Profile) : option Q :=
  let sw := size_of_writeable_memory writeable in
  if decide (sw = 0) then None
  else Some (inject_Z (Z.of_nat (size (addresses_written_to p))) / inject_Z (Z.of_nat sw))%Q.

(** [Profile::was_this_written]. *)
Definition was_this_written (p : Profile) (w : Z) : list MemLogEntry :=
  filter (fun entry => value entry = w) (concat (write_logs p)).

(** The loop of [Profile::was_this_executed], returning early. *)
Fixpoint any_contains (gs : list (gset Z)) (w : Z) : bool :=
  match gs with
  | [] => false
  | gads :: gs' => if decide (w ∈ gads) then true else any_contains gs' w
  end.

(** [Profile::was_this_executed]. *)
Definition was_this_executed (p : Profile) (w : Z) : bool :=
  any_contains (gadgets_executed p) w.

(** [Profile::basic_block_path_iterator]: the paths, run by run. *)
Definition basic_block_path_iterator (p : Profile) : list (list Block) := paths p.

(** [Profile::disas_paths]: one text per path, the blocks' texts in
    path order, each preceded by ["----\n"] when [was_this_executed]
    holds of its entry ([par_iter().collect::<String>()] keeps the
    order).  [Block::disassemble]'s text comes from the disassembler
    over the static memory image, both outside the sources: it is the
    parameter [disassemble]. *)
Definition nl : string := String (Ascii.ascii_of_nat 10) EmptyString.

Definition disas_paths (disassemble : Block -> string) (p : Profile) : list string :=
  (fun path => String.concat ""
     ((fun b => (if was_this_executed p (Block.entry b) then "----" +:+ nl else "") +:+
                 disassemble b +:+ nl) <$> path)) <$> paths p.

(** [impl From<Vec<Profiler<C>>> for Profile]: [Self::collate(v)]. *)
Definition Profile_from_profilers (deref : list Seg -> Z -> list Z) (v : list Profiler) : Profile :=
  collate deref v.

(** [trait HasProfile], implemented by the creatures of the ROPER
    search. *)
Class HasProfile (T : Type) := {
  profile : T -> option Profile;
  add_profile : T -> Profile -> T
}.

(** [Block::get_code]: the block's bytes in the static memory image.
    [try_dereference(entry)] finds the segment bytes from [entry] on;
    [unwrap] panics when [entry] is not mapped, and [&b[..self.size]]
    panics when the segment ends before the block does. *)
Definition get_code (try_dereference : Z -> option (list Z)) (b : Block) : Res (list Z) :=
  match try_dereference (Block.entry b) with
  | None => inl Panic
  | Some bytes =>
      if decide (Z.to_nat (Block.size b) <= length bytes) then inr (take (Z.to_nat (Block.size b)) bytes)
      else inl Panic
  end.

(** The test module's [segqueue!] macro: [SegQueue::new()] and one
    [push] per element, in order. *)
Definition segqueue {A} (xs : list A) : list A := foldl (fun q x => q ++ [x]) [] xs.

(** The two profilers of the unit test [test_collate]: blocks
    [(1,2), (3,4)] and [(1,2), (6,6)], everything else default. *)
Definition test_collate_profilers : list Profiler :=
  [ mkProfiler (segqueue [Block.mk 1 2; Block.mk 3 4]) [] [] [] None 0%N ∅ [] ∅;
    mkProfiler (segqueue [Block.mk 1 2; Block.mk 6 6]) [] [] [] None 0%N ∅ [] ∅ ].

(** ** Index alignment *)

(** The data of one run, as the [i]-th entries of a profile. *)
Record Run := mkRun {
  run_path : list Block;
  run_cpu_error : option UCError;
  run_time : Duration;
  run_registers : RegisterState;
  run_gadgets : gset Z;
  run_write_log : list MemLogEntry
}.

Definition run_at (p : Profile) (i : nat) : option Run :=
  path ← paths p !! i; e ← cpu_errors p !! i; t ← emulation_times p !! i;
  r ← registers p !! i; g ← gadgets_executed p !! i; w ← write_logs p !! i;
  Some (mkRun path e t r g w).

Definition run_of_profiler (deref : list Seg -> Z -> list Z) (p : Profiler) : Run :=
  mkRun (segqueue_to_vec (block_log p)) (cpu_error p) (emulation_time p)
    (RegisterState_new deref (Profiler.registers p) (written_memory p))
    (drain_gadgets (gadget_log p)) (segqueue_to_vec (write_log p)).

(** The per-run vectors of a profile have one common length. *)
Definition aligned (p : Profile) : Prop :=
  length (cpu_errors p) = length (paths p) /\
  length (emulation_times p) = length (paths p) /\
  length (registers p) = length (paths p) /\
  length (gadgets_executed p) = length (paths p) /\
  length (write_logs p) = length (paths p).

#[export] Instance aligned_dec p : Decision (aligned p).
Proof. unfold aligned. apply _. Defined.

(** ** Lemmas on the record operations *)

Section ProfileLemmas.
Context (deref : list Seg -> Z -> list Z).

Lemma drain_gadgets_spec (q : SegQueue Z) : drain_gadgets q = list_to_set q.
Proof.
  unfold drain_gadgets. rewrite drain_fold_spec.
  change (insert_all q ∅ = list_to_set q). rewrite insert_all_spec. set_solver.
Qed.

(** Each field of [collate ps] is the map of the corresponding datum
    over [ps]. *)
Lemma collate_fields (ps : list Profiler) :
  collate deref ps = {|
    paths := (fun p => segqueue_to_vec (block_log p)) <$> ps;
    cpu_errors := cpu_error <$> ps;
    emulation_times := emulation_time <$> ps;
    registers := (fun p => RegisterState_new deref (Profiler.registers p)
                             (written_memory p)) <$> ps;
    gadgets_executed := (fun p => drain_gadgets (gadget_log p)) <$> ps;
    writeable_memory := [];
    write_logs := (fun p => segqueue_to_vec (write_log p)) <$> ps;
    executable := true |}.
Proof.
  unfold collate. induction ps as [|p ps IH] using rev_ind; [done|].
  rewrite foldl_app, IH. simpl. unfold collate_step. simpl.
  by rewrite !fmap_app.
Qed.

Lemma collate_step_absorb (acc : Profile) (p : Profiler) :
  collate_step deref acc p = absorb acc (profile_of_profiler deref p).
Proof.
  destruct acc. unfold collate_step, absorb. simpl.
  by rewrite app_nil_r, andb_true_r.
Qed.

Lemma absorb_init_l (p : Profile) : absorb collate_init p = p.
Proof. by destruct p. Qed.

Lemma absorb_init_r (p : Profile) : absorb p collate_init = p.
Proof. destruct p. unfold absorb. simpl. by rewrite !app_nil_r, andb_true_r. Qed.

Lemma absorb_assoc (a b c : Profile) : absorb a (absorb b c) = absorb (absorb a b) c.
Proof. unfold absorb. simpl. by rewrite !app_assoc, andb_assoc. Qed.

#[local] Hint Rewrite absorb_init_l absorb_init_r collate_step_absorb : berb_rw.

Lemma foldl_collate_step (acc : Profile) (ps : list Profiler) :
  foldl (collate_step deref) acc ps = absorb acc (collate deref ps).
Proof.
  unfold collate. revert acc. induction ps as [|p ps IH]; intros acc; simpl.
  - by rewrite absorb_init_r.
  - rewrite (IH (collate_step deref acc p)), (IH (collate_step deref collate_init p)).
    rewrite !collate_step_absorb, absorb_init_l. symmetry. apply absorb_assoc.
Qed.

Lemma run_at_collate_init i : run_at collate_init i = None.
Proof. done. Qed.

End ProfileLemmas.

Lemma any_contains_spec (gs : list (gset Z)) (w : Z) :
  any_contains gs w = true <-> exists g, g ∈ gs /\ w ∈ g.
Proof.
  induction gs as [|g gs IH]; simpl.
  - split; [done|]. intros (g & Hg & _). by apply not_elem_of_nil in Hg.
  - case_decide; [split; [|done]; intros _; exists g; set_solver|].
    rewrite IH. setoid_rewrite elem_of_cons. naive_solver.
Qed.

Lemma elem_of_entry_addresses (e : MemLogEntry) (a : Z) :
  a ∈ entry_addresses e <->
  exists i, (0 <= i < num_bytes_written e)%Z /\ a = address e +w i.
Proof.
  unfold entry_addresses. rewrite list_elem_of_fmap. split.
  - intros (k & -> & Hk%elem_of_seq). exists (Z.of_nat k). split; [lia|done].
  - intros (i & Hi & ->). exists (Z.to_nat i).
    rewrite elem_of_seq, Z2Nat.id by lia. split; [done|lia].
Qed.

Lemma elem_of_foldl_entries (es : list MemLogEntry) (s0 : gset Z) (a : Z) :
  a ∈ foldl (fun set e => insert_all (entry_addresses e) set) s0 es <->
  (exists e, e ∈ es /\ a ∈ entry_addresses e) \/ a ∈ s0.
Proof.
  revert s0. induction es as [|e es IH]; intros s0; simpl.
  - split; [by right|]. intros [(e & He & _)|]; [by apply not_elem_of_nil in He|done].
  - rewrite IH, elem_of_insert_all. setoid_rewrite elem_of_cons. naive_solver.
Qed.

Lemma size_foldl_entries (es : list MemLogEntry) (s0 : gset Z) :
  size (foldl (fun set e => insert_all (entry_addresses e) set) s0 es) <=
  sum_list (map (fun e => Z.to_nat (num_bytes_written e)) es) + size s0.
Proof.
  revert s0. induction es as [|e es IH]; intros s0; simpl; [lia|].
  etrans; [apply IH|]. pose proof (size_insert_all (entry_addresses e) s0) as H.
  assert (length (entry_addresses e) = Z.to_nat (num_bytes_written e)) as Hl.
  { unfold entry_addresses. by rewrite length_fmap, length_seq. }
  lia.
Qed.

(** ** Theorems *)

Section ProfileTheorems.
Context (deref : list Seg -> Z -> list Z).

(** C3: Index alignment of [collate]: the [i]-th entry of every
    per-run vector of [collate ps] describes the [i]-th profiler of
    [ps] (its drained block log, error, time, registers, gadget set
    and write log), and there is no [i]-th entry past the last
    profiler. *)
Theorem collate_run_at (ps : list Profiler) (i : nat) :
  run_at (collate deref ps) i = run_of_profiler deref <$> ps !! i.
Proof.
  rewrite collate_fields. unfold run_at. simpl. rewrite !list_lookup_fmap.
  by destruct (ps !! i).
Qed.

(** [collate] produces an aligned profile with exactly one run
    per profiler. *)
Theorem collate_aligned (ps : list Profiler) :
  aligned (collate deref ps) /\ length (paths (collate deref ps)) = length ps.
Proof. rewrite collate_fields. unfold aligned. simpl. by rewrite !length_fmap. Qed.

(** [absorb] preserves alignment. *)
Theorem absorb_aligned (a b : Profile) :
  aligned a -> aligned b -> aligned (absorb a b).
Proof. unfold aligned, absorb. simpl. rewrite !length_app. lia. Qed.

(** C27: [absorb] keeps the runs of [self] first and those of [other]
    after them, each run's data staying together at its index. *)
Theorem absorb_run_at (a b : Profile) (i : nat) :
  aligned a ->
  run_at (absorb a b) i =
    if decide (i < length (paths a)) then run_at a i
    else run_at b (i - length (paths a)).
Proof.
  intros (H1 & H2 & H3 & H4 & H5). unfold run_at, absorb. simpl.
  case_decide.
  - rewrite !lookup_app_l by lia. done.
  - rewrite !lookup_app_r by lia. by rewrite H1, H2, H3, H4, H5.
Qed.

(** [collate] is a homomorphism: collating a concatenation is
    absorbing the collation of the second part into that of the
    first. *)
Theorem collate_app (xs ys : list Profiler) :
  collate deref (xs ++ ys) = absorb (collate deref xs) (collate deref ys).
Proof. unfold collate at 1. rewrite foldl_app. apply foldl_collate_step. Qed.

(** C7: Merge associativity (the spec's testable property): for any
    split of a run sequence into [xs] then [ys], absorbing the whole
    collation equals absorbing the two parts in turn. *)
Theorem absorb_collate_assoc (p : Profile) (xs ys : list Profiler) :
  absorb p (collate deref (xs ++ ys)) =
  absorb (absorb p (collate deref xs)) (collate deref ys).
Proof. rewrite collate_app. apply absorb_assoc. Qed.

(** C19: [collate] (the single-pass loop) equals absorbing the
    singleton profiles of [From<Profiler>] one by one, starting from
    the empty profile of [collate(vec![])]. *)
Theorem collate_absorb_singletons (ps : list Profiler) :
  collate deref ps =
  foldl (fun acc p => absorb acc (profile_of_profiler deref p)) (collate deref []) ps.
Proof. unfold collate at 1. apply foldl_ext. apply collate_step_absorb. Qed.

(** C20: Starting the same fold from [Profile::default()] does not give
    [collate]: the derived default has [executable = false], and
    [absorb] keeps it false forever. *)
Theorem default_absorb_not_collate (ps : list Profiler) :
  foldl (fun acc p => absorb acc (profile_of_profiler deref p)) Profile_default ps
  <> collate deref ps.
Proof.
  assert (forall acc, executable acc = false -> executable
    (foldl (fun acc p => absorb acc (profile_of_profiler deref p)) acc ps) = false) as Hf.
  { induction ps as [|p ps IH]; intros acc Hacc; simpl; [done|].
    apply IH. simpl. by rewrite Hacc. }
  intros Heq. apply (f_equal executable) in Heq.
  rewrite Hf in Heq by done. rewrite collate_fields in Heq. done.
Qed.

(** C38: [writeable_memory] is never filled: on a non-empty batch it is
    shorter than the other per-run vectors of a collated profile. *)
Theorem collate_writeable_memory_unaligned (ps : list Profiler) :
  ps <> [] -> length (writeable_memory (collate deref ps)) <> length (paths (collate deref ps)).
Proof.
  intros Hne. rewrite collate_fields. simpl. rewrite length_fmap.
  destruct ps; [done|]. simpl. lia.
Qed.

(** C30: [was_this_executed] on a collated profile holds exactly when
    some run's gadget hook pushed the address. *)
Theorem was_this_executed_collate (ps : list Profiler) (w : Z) :
  was_this_executed (collate deref ps) w = true <->
  exists p, p ∈ ps /\ w ∈ gadget_log p.
Proof.
  unfold was_this_executed. rewrite collate_fields, any_contains_spec. simpl.
  setoid_rewrite list_elem_of_fmap. split.
  - intros (g & (p & -> & Hp) & Hw). rewrite drain_gadgets_spec, elem_of_list_to_set in Hw.
    by exists p.
  - intros (p & Hp & Hw). exists (drain_gadgets (gadget_log p)).
    split; [by exists p|]. by rewrite drain_gadgets_spec, elem_of_list_to_set.
Qed.

(** C28: [freeze] of a fresh profiler after a run of hooks: whatever the
    interleaving of the three hooks, the profile's path is the blocks
    in the order they were logged, its gadget set the addresses
    logged, and its write log the writes in order. *)
Theorem freeze_hooks (regs : list Register) (inp : gmap Register Z) (evs : list HookEvent) :
  let p := profile_of_profiler deref (run_hooks (Profiler_new regs inp) evs) in
  paths p = [blocks_of evs] /\
  gadgets_executed p = [list_to_set (gadgets_of evs)] /\
  write_logs p = [writes_of evs].
Proof.
  destruct (run_hooks_logs (Profiler_new regs inp) evs) as (Hb & Hg & Hw & _).
  simpl. rewrite !segqueue_to_vec_id, drain_gadgets_spec, Hb, Hg, Hw. done.
Qed.

End ProfileTheorems.

(** C31: [addresses_written_to] is the set of [address + i] (wrapping)
    for every logged write and every [i < num_bytes_written]. *)
Theorem addresses_written_to_spec (p : Profile) (a : Z) :
  a ∈ addresses_written_to p <->
  exists e, e ∈ concat (write_logs p) /\
    exists i, (0 <= i < num_bytes_written e)%Z /\ a = address e +w i.
Proof.
  unfold addresses_written_to. rewrite elem_of_foldl_entries.
  setoid_rewrite elem_of_entry_addresses. set_solver.
Qed.

(** The number of distinct addresses written is at most the total
    number of bytes the write log records. *)
Theorem addresses_written_to_size (p : Profile) :
  size (addresses_written_to p) <=
  sum_list (map (fun e => Z.to_nat (num_bytes_written e)) (concat (write_logs p))).
Proof.
  unfold addresses_written_to. pose proof (size_foldl_entries (concat (write_logs p)) ∅).
  rewrite size_empty in H. lia.
Qed.

(** The addresses of the writable segments number at most their
    bytes. *)
Lemma writeable_addrs_size (writeable : list Seg) :
  size (list_to_set (concat (seg_addrs <$> writeable)) : gset Z) <= size_of_writeable_memory writeable.
Proof.
  etrans; [apply size_list_to_set_le|]. unfold size_of_writeable_memory.
  rewrite length_concat, <- list_fmap_compose. apply Nat.eq_le_incl. f_equal.
  apply list_fmap_ext. intros i sg _. unfold seg_addrs. simpl. rewrite length_seqZ. lia.
Qed.

(** C32: When every written address lies in a writable segment of the
    memory image, the write ratio is a number in [0,1]; if the image has
    no writable byte, nothing was written and the ratio is [0/0], a
    NaN. *)
Theorem mem_write_ratio_bounds (writeable : list Seg) (p : Profile) :
  set_Forall (fun a => Exists (fun sg => a ∈ seg_addrs sg) writeable) (addresses_written_to p) ->
  match mem_write_ratio writeable p with
  | Some q => (0 <= q <= 1)%Q
  | None => addresses_written_to p = ∅
  end.
Proof.
  intros Hin.
  assert (addresses_written_to p ⊆ list_to_set (concat (seg_addrs <$> writeable))) as Hsub.
  { intros a Ha. apply elem_of_list_to_set, list_elem_of_In, in_concat.
    apply Hin, Exists_exists in Ha as (sg & Hsg & Ha).
    exists (seg_addrs sg). split; apply list_elem_of_In; [by apply list_elem_of_fmap_2|done]. }
  pose proof (subseteq_size _ _ Hsub) as Hle. pose proof (writeable_addrs_size writeable) as Hw.
  unfold mem_write_ratio. simpl. case_decide as Hsw.
  - apply leibniz_equiv, size_empty_inv. lia.
  - assert (0 < inject_Z (Z.of_nat (size_of_writeable_memory writeable)))%Q as Hpos
      by (unfold Qlt; simpl; lia).
    split.
    + apply Qle_shift_div_l; [done|]. rewrite Qmult_0_l. change 0%Q with (inject_Z 0). rewrite <- Zle_Qle. lia.
    + apply Qle_shift_div_r; [done|]. rewrite Qmult_1_l, <- Zle_Qle. lia.
Qed.

(** C37: [avg_emulation_micros] is a NaN (here [None]) exactly on a
    profile with no runs. *)
Theorem avg_emulation_micros_nan (p : Profile) :
  avg_emulation_micros p = None <-> emulation_times p = [].
Proof. unfold avg_emulation_micros. by destruct (emulation_times p). Qed.

(** ** Witnesses *)

(** The dereference function that follows no pointer. *)
Definition no_deref (_ : list Seg) (_ : Z) : list Z := [].

(** [test_collate]'s [let profile: Profile = profilers.into();]. *)
Definition test_collate : Profile := Profile_from_profilers no_deref test_collate_profilers.

(** A run that wrote two bytes at address 16. *)
Definition one_write_profiler : Profiler :=
  run_hooks (Profiler_new [] ∅) [EvBlock (Block.mk 4096 8); EvGadget 4096;
                                 EvWrite (mkMemLogEntry 4100 16 2 7)].

Lemma absorb_aligned_witness :
  aligned (absorb (collate no_deref [one_write_profiler])
                  (collate no_deref [Profiler_default; one_write_profiler])).
Proof.
  apply absorb_aligned; apply (collate_aligned no_deref).
Defined.

Lemma absorb_run_at_witness :
  run_at (absorb (collate no_deref [one_write_profiler]) (collate no_deref [Profiler_default])) 1 =
  run_at (collate no_deref [Profiler_default]) 0.
Proof.
  rewrite (absorb_run_at (collate no_deref [one_write_profiler])
             (collate no_deref [Profiler_default]) 1);
    [vm_compute; reflexivity | apply (collate_aligned no_deref)].
Defined.

Lemma collate_writeable_memory_unaligned_witness :
  length (writeable_memory (collate no_deref [one_write_profiler])) <>
  length (paths (collate no_deref [one_write_profiler])).
Proof. apply (collate_writeable_memory_unaligned no_deref). discriminate. Defined.

Lemma mem_write_ratio_bounds_witness :
  set_Forall (fun a => Exists (fun sg => a ∈ seg_addrs sg) [mkSeg 16 [0; 0; 0; 0]%Z])
    (addresses_written_to (collate no_deref [one_write_profiler])) /\
  match mem_write_ratio [mkSeg 16 [0; 0; 0; 0]%Z] (collate no_deref [one_write_profiler]) with
  | Some q => (0 <= q <= 1)%Q
  | None => addresses_written_to (collate no_deref [one_write_profiler]) = ∅
  end.
Proof.
  assert (set_Forall (fun a => Exists (fun sg => a ∈ seg_addrs sg) [mkSeg 16 [0; 0; 0; 0]%Z])
    (addresses_written_to (collate no_deref [one_write_profiler]))) as Hin.
  { apply (bool_decide_unpack _). vm_compute. exact I. }
  split; [exact Hin|]. exact (mem_write_ratio_bounds _ _ Hin).
Defined.

(** ** The block's code and the unit test *)

(** [Block::get_code] returns exactly [size] bytes, the prefix of the
    segment at [entry], or panics exactly when [entry] is unmapped or
    the segment is shorter than the block. *)
Lemma get_code_spec (try_dereference : Z -> option (list Z)) (b : Block) :
  match get_code try_dereference b with
  | inr code => exists bytes, try_dereference (Block.entry b) = Some bytes /\
                  code = take (Z.to_nat (Block.size b)) bytes /\ length code = Z.to_nat (Block.size b)
  | inl e => e = Panic /\ (try_dereference (Block.entry b) = None \/
               exists bytes, try_dereference (Block.entry b) = Some bytes /\ length bytes < Z.to_nat (Block.size b))
  end.
Proof.
  unfold get_code. destruct (try_dereference (Block.entry b)) as [bytes|]; [|by split; [|left]].
  case_decide as Hle.
  - exists bytes. split_and!; [done|done|]. rewrite length_take. lia.
  - split; [done|]. right. exists bytes. split; [done|lia].
Qed.

(** [test_collate]: the profile collated from the test's two profilers
    has their two paths in order, one entry per run in every vector,
    and is executable. *)
Example test_collate_profile :
  paths test_collate =
    [[Block.mk 1 2; Block.mk 3 4]; [Block.mk 1 2; Block.mk 6 6]] /\
  aligned test_collate /\
  length (emulation_times test_collate) = 2 /\
  executable test_collate = true.
Proof. vm_compute. split_and!; reflexivity. Qed.

(** No gadget of [test_collate] was executed, so its disassembly has
    one text per path and no ["----"] marker. *)
Example test_collate_disas :
  disas_paths (fun b => "b") test_collate = ["b" +:+ nl +:+ "b" +:+ nl; "b" +:+ nl +:+ "b" +:+ nl].
Proof. vm_compute. reflexivity. Qed.
