(* ===== verification/Sketch.v ===== *)
(** * The frequency sketch (spec 4.3)

    [roper/evaluation.rs] scores coverage against a
    [util::count_min_sketch::CountMinSketch], whose source is not in
    the repository; it is modelled from the spec.  The class [Sketch]
    states what the evaluator relies on: [insert] raises the estimate of
    the inserted address by at least one and never lowers any estimate.
    From these laws alone the estimate never undercounts the true
    number of insertions.  [CMS] is a count-min sketch (one row per
    hash function, [query] is the minimum over the rows) and an instance
    of the class on its well-formed states; its inserts commute, so a
    second pass over addresses it already counted reads every estimate
    at least one higher. *)

From S2P Require Import Prelude.

Class Sketch (Sk : Type) := {
  (** [CountMinSketch::insert]. *)
  sketch_insert : Z -> Sk -> Sk;
  (** [CountMinSketch::query], an estimate of the count. *)
  sketch_query : Sk -> Z -> nat;
  sketch_wf : Sk -> Prop;
  sketch_insert_wf : forall a s, sketch_wf s -> sketch_wf (sketch_insert a s);
  sketch_query_insert_same : forall a s, sketch_wf s ->
    S (sketch_query s a) <= sketch_query (sketch_insert a s) a;
  sketch_query_insert_mono : forall a b s, sketch_wf s ->
    sketch_query s a <= sketch_query (sketch_insert b s) a
}.

(** Inserting a sequence of addresses, first to last. *)
Definition sketch_inserts `{Sketch Sk} (l : list Z) (s : Sk) : Sk :=
  foldl (fun s a => sketch_insert a s) s l.

(** ** A count-min sketch *)

Record CMS := mkCMS {
  cms_hashes : list (Z -> nat);
  cms_width : nat;
  cms_table : list (list nat)
}.

(** [CountMinSketch::new]: one zeroed row of [width] counters per hash. *)
Definition cms_new (hashes : list (Z -> nat)) (width : nat) : CMS :=
  mkCMS hashes width (replicate (length hashes) (replicate width 0)).

(** Increment the counter the address hashes to in every row. *)
Definition cms_insert (a : Z) (s : CMS) : CMS :=
  mkCMS (cms_hashes s) (cms_width s)
        (zip_with (fun h row => alter S (h a) row) (cms_hashes s) (cms_table s)).

(** The minimum of a non-empty list (0 on the empty one). *)
Fixpoint list_min (l : list nat) : nat :=
  match l with
  | [] => 0
  | [x] => x
  | x :: xs => Nat.min x (list_min xs)
  end.

(** The least of the address's counters. *)
Definition cms_query (s : CMS) (a : Z) : nat :=
  list_min (zip_with (fun h row => row !!! h a) (cms_hashes s) (cms_table s)).

(** At least one row, one row per hash of [width] counters, and every
    hash lands inside a row. *)
Definition cms_wf (s : CMS) : Prop :=
  cms_hashes s <> [] /\ length (cms_table s) = length (cms_hashes s) /\
  Forall (fun row => length row = cms_width s) (cms_table s) /\
  Forall (fun h => forall a, h a < cms_width s) (cms_hashes s).

(** ** Lemmas *)

Lemma list_min_mono (l1 l2 : list nat) : Forall2 le l1 l2 -> list_min l1 <= list_min l2.
Proof.
  induction 1 as [|x y l1 l2 Hxy Hl IH]; [done|].
  destruct Hl; simpl in *; lia.
Qed.

Lemma list_min_S (l1 l2 : list nat) :
  l1 <> [] -> Forall2 (fun x y => S x <= y) l1 l2 -> S (list_min l1) <= list_min l2.
Proof.
  intros Hne Hl. revert Hne. induction Hl as [|x y l1 l2 Hxy Hl IH]; [done|]. intros _.
  destruct Hl as [|x' y' l1' l2' Hxy' Hl']; [simpl; lia|].
  specialize (IH ltac:(done)). simpl in *. lia.
Qed.

Lemma zip_with_zip_with_same {A B C D} (f : A -> C -> D) (g : A -> B -> C) (hs : list A) (rows : list B) :
  zip_with f hs (zip_with g hs rows) = zip_with (fun h r => f h (g h r)) hs rows.
Proof. revert rows. induction hs; intros [|r rows]; simpl; f_equal; auto. Qed.

(** Two row-wise functions related pointwise on a well-formed table. *)
Lemma zip_with_rows_rel (R : nat -> nat -> Prop) (f g : (Z -> nat) -> list nat -> nat) s :
  cms_wf s ->
  (forall h row, (forall a, h a < cms_width s) -> length row = cms_width s -> R (f h row) (g h row)) ->
  Forall2 R (zip_with f (cms_hashes s) (cms_table s)) (zip_with g (cms_hashes s) (cms_table s)).
Proof.
  intros (_ & Hlen & Hrows & Hhs) Hfg. destruct s as [hs w rows]; simpl in *.
  revert rows Hlen Hrows. induction hs as [|h hs IH]; intros [|row rows] Hlen Hrows; simpl in *;
    try constructor; try lia.
  - apply Forall_cons in Hhs as [Hh _]. apply Forall_cons in Hrows as [Hr _]. by apply Hfg.
  - apply Forall_cons in Hhs as [_ Hhs]. apply Forall_cons in Hrows as [_ Hrows]. apply IH; auto.
Qed.

Lemma cms_insert_wf a s : cms_wf s -> cms_wf (cms_insert a s).
Proof.
  intros (Hne & Hlen & Hrows & Hhs). unfold cms_wf, cms_insert; simpl.
  split_and!; [done| rewrite length_zip_with; lia | |done].
  destruct s as [hs w rows]; simpl in *. clear Hne.
  revert rows Hlen Hrows. induction hs as [|h hs IH]; intros [|row rows] Hlen Hrows; simpl; try constructor.
  - apply Forall_cons in Hrows as [Hr _]. by rewrite length_alter.
  - apply Forall_cons in Hhs as [_ Hhs]. apply Forall_cons in Hrows as [_ Hrows].
    apply IH; simpl in *; auto.
Qed.

Lemma cms_query_insert_same a s : cms_wf s -> S (cms_query s a) <= cms_query (cms_insert a s) a.
Proof.
  intros Hwf. unfold cms_query, cms_insert; simpl. rewrite zip_with_zip_with_same.
  apply list_min_S.
  - destruct Hwf as (Hne & Hlen & _). destruct s as [[|h hs] w [|row rows]]; simpl in *; done || lia.
  - apply zip_with_rows_rel; [done|]. intros h row Hh Hrow.
    rewrite list_lookup_total_alter_eq by (rewrite Hrow; apply Hh). lia.
Qed.

Lemma cms_query_insert_mono a b s : cms_wf s -> cms_query s a <= cms_query (cms_insert b s) a.
Proof.
  intros Hwf. unfold cms_query, cms_insert; simpl. rewrite zip_with_zip_with_same.
  apply list_min_mono, zip_with_rows_rel; [done|]. intros h row _ _.
  rewrite list_lookup_total_alter. case_decide as Heq; [destruct Heq as [-> _]|]; lia.
Qed.

(** Two increments of a count-min sketch commute: each adds one to
    counters, whatever the order. *)
Lemma cms_insert_comm a b s : cms_insert a (cms_insert b s) = cms_insert b (cms_insert a s).
Proof.
  unfold cms_insert; simpl. f_equal. rewrite !zip_with_zip_with_same.
  apply zip_with_ext; [|done|done]. intros h row.
  destruct (decide (h a = h b)) as [->|Hne]; [done|]. by apply list_alter_alter_ne.
Qed.

#[export] Instance CMS_sketch : Sketch CMS := {|
  sketch_insert := cms_insert;
  sketch_query := cms_query;
  sketch_wf := cms_wf;
  sketch_insert_wf := cms_insert_wf;
  sketch_query_insert_same := cms_query_insert_same;
  sketch_query_insert_mono := cms_query_insert_mono
|}.

Section SketchLaws.
Context `{Sketch Sk}.

Lemma sketch_inserts_wf (l : list Z) (s : Sk) : sketch_wf s -> sketch_wf (sketch_inserts l s).
Proof.
  revert s. induction l as [|a l IH]; intros s Hs; simpl; [done|].
  apply IH, sketch_insert_wf, Hs.
Qed.

(** The estimate never undercounts: after inserting [l], an address's
    estimate has grown by at least the number of its occurrences in
    [l]. *)
Lemma sketch_never_undercounts (l : list Z) (s : Sk) (a : Z) :
  sketch_wf s ->
  sketch_query s a + length (filter (fun b => b = a) l) <= sketch_query (sketch_inserts l s) a.
Proof.
  revert s. induction l as [|b l IH]; intros s Hs; simpl; [lia|].
  rewrite filter_cons. specialize (IH (sketch_insert b s) (sketch_insert_wf _ _ Hs)).
  case_decide as Hb.
  - subst b. pose proof (sketch_query_insert_same a s Hs). simpl. lia.
  - pose proof (sketch_query_insert_mono a b s Hs). lia.
Qed.

End SketchLaws.

(** Inserting one address before or after a sequence of others gives
    the same count-min sketch. *)
Lemma cms_inserts_insert (l : list Z) a (s : CMS) :
  sketch_inserts l (cms_insert a s) = cms_insert a (sketch_inserts l s).
Proof.
  revert s. induction l as [|b l IH]; intros s; simpl; [done|].
  unfold sketch_inserts in *. simpl. rewrite cms_insert_comm. apply IH.
Qed.

(** An address inserted again after a sequence that already holds it:
    its estimate is at least one more than after the first insertion. *)
Lemma cms_query_reinsert (l : list Z) a (s : CMS) :
  cms_wf s -> a ∈ l ->
  S (cms_query (cms_insert a s) a) <= cms_query (cms_insert a (sketch_inserts l s)) a.
Proof.
  intros Hwf Ha. rewrite <- cms_inserts_insert.
  pose proof (sketch_never_undercounts (Sk:=CMS) l (cms_insert a s) a (cms_insert_wf _ _ Hwf)) as Hu.
  pose proof (filter_eq_length_pos l a Ha). simpl in Hu. lia.
Qed.
