(* ===== verification/Rng.v ===== *)
(** * The random number generator as an interface

    [hello_world.rs] draws from [rand::thread_rng()]: [gen::<usize>()]
    for split points and mutation positions, [gen::<u8>()] in the
    mutation loop, [gen::<f32>()] against the mutation rate,
    [SliceRandom::shuffle] and [sample(Alphanumeric)].  The code is
    correct for every generator, so the model is parametric in one:
    the class [Rng] states what the [rand] crate promises (value
    ranges, shuffle is a permutation, [Alphanumeric] yields letters
    and digits), the program's theorems are proved against it, and a
    concrete instance [Tape] (a list of draws) lets the witnesses
    compute. *)

From S2P Require Import Prelude.
From Stdlib Require Import Ascii.

(** ASCII letters and digits, the output of [rand::distributions::Alphanumeric]. *)
Definition is_alphanumeric (c : ascii) : bool :=
  let n := N_of_ascii c in
  (((48 <=? n) && (n <=? 57)) || ((65 <=? n) && (n <=? 90)) || ((97 <=? n) && (n <=? 122)))%N.

Class Rng (R : Type) := {
  (** [RngCore::next_u64], used by [gen::<usize>()] on 64-bit hosts. *)
  next_u64 : R -> Z * R;
  (** [RngCore::next_u32], used by [gen::<u8>()] and [gen::<f32>()]. *)
  next_u32 : R -> Z * R;
  (** [SliceRandom::shuffle]. *)
  shuffle : forall {A : Type}, list A -> R -> list A * R;
  (** [Rng::sample(Alphanumeric)]. *)
  sample_alphanumeric : R -> ascii * R;
  next_u64_range : forall r, (0 <= (next_u64 r).1 < 2 ^ 64)%Z;
  next_u32_range : forall r, (0 <= (next_u32 r).1 < 2 ^ 32)%Z;
  shuffle_perm : forall A (l : list A) r, (shuffle l r).1 ≡ₚ l;
  sample_alphanumeric_ok : forall r, is_alphanumeric (sample_alphanumeric r).1 = true
}.

Section Draws.
Context `{Rng R}.

(** [rng.gen::<usize>()]. *)
Definition gen_usize (r : R) : Z * R := next_u64 r.

(** [rng.gen::<u8>()]: the low byte of a [u32] draw. *)
Definition gen_u8 (r : R) : Z * R :=
  let '(x, r') := next_u32 r in ((x mod 256)%Z, r').

(** [rng.gen::<f32>()]: the top 24 bits of a [u32] draw scaled into
    [[0,1)], exactly representable in [f32]. *)
Definition gen_f32 (r : R) : Q * R :=
  let '(x, r') := next_u32 r in
  ((inject_Z (Z.shiftr x 8) / inject_Z (2 ^ 24))%Q, r').

(** [n] successive draws of [gen::<u8>()]. *)
Fixpoint u8_stream (n : nat) (r : R) : list Z :=
  match n with
  | O => []
  | S n' => let '(x, r') := gen_u8 r in x :: u8_stream n' r'
  end.

End Draws.

(** ** A concrete generator: a tape of draws

    Each draw takes the head of the tape (0 once it is exhausted);
    [shuffle] keeps the order, [Alphanumeric] yields ['A']. *)
Definition Tape := list Z.

Definition tape_next (m : Z) (t : Tape) : Z * Tape :=
  match t with
  | [] => (0%Z, [])
  | x :: t' => (x mod m, t')
  end%Z.

Lemma tape_next_range m t : (0 < m)%Z -> (0 <= (tape_next m t).1 < m)%Z.
Proof. intros. destruct t; simpl; [lia|]. apply Z.mod_pos_bound. lia. Qed.

#[export] Instance Tape_rng : Rng Tape.
Proof.
  refine {| next_u64 := tape_next (2 ^ 64); next_u32 := tape_next (2 ^ 32);
            shuffle A l t := (l, t); sample_alphanumeric t := ("A"%char, t) |}.
  - intros r. apply tape_next_range. lia.
  - intros r. apply tape_next_range. lia.
  - intros A l r. done.
  - intros r. done.
Defined.

(** ** A constant generator

    Every [u32] draw is [65] (the byte ['A'], printable), every [u64]
    draw is [0]; the witnesses of the termination theorems use it, since
    its byte stream is printable from the first draw. *)
#[export] Instance Fixed_rng : Rng unit.
Proof.
  refine {| next_u64 t := (0%Z, t); next_u32 t := (65%Z, t);
            shuffle A l t := (l, t); sample_alphanumeric t := ("A"%char, t) |}.
  - intros r. simpl. lia.
  - intros r. simpl. lia.
  - intros A l r. done.
  - intros r. done.
Defined.
