(* ===== verification/Evaluation.v ===== *)
(** * The ROPER evaluator ([src/roper/evaluation.rs])

    Three fitness functions read a creature's profile and fill a
    [Weighted] fitness: [code_coverage_ff] (distinct addresses visited,
    their frequency in the sketch, gadgets executed, the write ratio),
    [register_pattern_ff] (distance of the first register state to the
    configured pattern, crash count) and [register_conjunction_ff] (the
    zero bits of the AND of the last register state's values).  The
    [Evaluator] sends creatures to the emulator pool (the "hatchery"),
    attaches the returned profile and applies its one fitness function;
    [eval_pipeline] executes only the creatures without a profile,
    scores everything, and records genetic frequencies; [spawn] builds
    the list of output registers the hatchery reads back.

    evaluation.rs calls Profile methods the [profiler.rs] of this
    revision does not have ([bb_path_iter], [mem_ratio_written],
    [cpu_errors.values()]), and the hatchery, [Creature], [Weighted],
    [Config] and the register pattern live in files that are not in the
    repository.  So the model reads the profile through the class
    [ProfileApi] (exactly the projections the code calls) and runs
    creatures through the class [Hatchery], with the laws the spec
    states; [Weighted], [Creature] and [EvalConfig] are records with
    the fields the code uses. *)

From S2P Require Import Prelude Profiler Rng Sketch.

(** [crate::fitness::Weighted]: the weight table and the raw
    per-objective scores. *)
Record Weighted := mkWeighted { weights : gmap string Q; scores : gmap string Q }.

(** [Weighted::new(weights)]. *)
Definition Weighted_new (w : gmap string Q) : Weighted := mkWeighted w ∅.

(** [Weighted::insert] and [weighted.scores.insert]. *)
Definition weighted_insert (k : string) (v : Q) (f : Weighted) : Weighted :=
  mkWeighted (weights f) (<[k := v]> (scores f)).

(** What the fitness functions read of a profile. *)
Class ProfileApi (P : Type) := {
  bb_path_iter : P -> list (list Block);
  gadgets_executed : P -> list (gset Z);
  mem_ratio_written : P -> Q;
  cpu_errors_values : P -> list nat;
  profile_registers : P -> list RegisterState
}.

Section Evaluation.
Context {P : Type} `{ProfileApi P}.

(** [roper::Creature], with the fields the evaluator touches. *)
Record Creature := mkCreature {
  chromosome : list Z;
  tag : Z;
  profile : option P;
  fitness : option Weighted
}.

(** [Creature::set_fitness]. *)
Definition set_fitness (c : Creature) (f : Weighted) : Creature :=
  mkCreature (chromosome c) (tag c) (profile c) (Some f).

Definition set_profile (c : Creature) (p : P) : Creature :=
  mkCreature (chromosome c) (tag c) (Some p) (fitness c).

Definition set_tag (c : Creature) (t : Z) : Creature :=
  mkCreature (chromosome c) t (profile c) (fitness c).

(** The configuration the evaluator reads: [config.fitness.weights],
    [config.roper.register_pattern()] and [config.roper.output_registers]. *)
Record EvalConfig (RegisterPattern : Type) := mkEvalConfig {
  fitness_weights : gmap string Q;
  register_pattern : option RegisterPattern;
  roper_output_registers : list string
}.

Context {RegisterPattern : Type}.
(** [RegisterPattern::distance_from_register_state]. *)
Context (distance_from_register_state : RegisterPattern -> RegisterState -> Q).
(** [get_static_memory_image().size_of_executable_memory()]. *)
Context (code_size : positive).

Context `{Sketch Sk}.

(** [block.entry..(block.entry + block.size as u64)]: the sum wraps (a
    release build), and a range whose end is not above its start is
    empty. *)
Definition block_addresses (b : Block) : list Z :=
  seqZ (Block.entry b) (wrap64 (Block.entry b + Block.size b) - Block.entry b).

(** The [for_each] over [bb_path_iter()] filling [addresses_visited]. *)
Definition addresses_visited (paths : list (list Block)) : gset Z :=
  foldl (fun acc path => foldl (fun acc b => insert_all (block_addresses b) acc) acc path) ∅ paths.

(** The loop over [addresses_visited]: insert each address into the
    sketch, then add the sketch's estimate for it to [freq_score]. *)
Definition freq_loop (addrs : list Z) (s : Sk) (score : Q) : Sk * Q :=
  foldl (fun '(s, q) a => let s' := sketch_insert a s in
                          (s', q + inject_Z (Z.of_nat (sketch_query s' a))))%Q (s, score) addrs.

Definition Q_of_nat (n : nat) : Q := inject_Z (Z.of_nat n).

(** [code_coverage_ff]; the [HashSet]'s iteration order is [elements]. *)
Definition code_coverage_ff (c : Creature) (sk : Sk) (cfg : EvalConfig RegisterPattern)
    : Res (Creature * Sk) :=
  match profile c with
  | None => inr (c, sk)
  | Some p =>
      let visited := addresses_visited (bb_path_iter p) in
      let '(sk', freq_score) := freq_loop (elements visited) sk 0 in
      let num_addr_visit := Q_of_nat (size visited) in
      let avg_freq := if decide (size visited = 0) then 1%Q else (freq_score / num_addr_visit)%Q in
      let code_coverage := (1 - num_addr_visit / inject_Z (Z.pos code_size))%Q in
      let f := Weighted_new (fitness_weights _ cfg) in
      let f := weighted_insert "code_coverage" code_coverage f in
      let f := weighted_insert "code_frequency" avg_freq f in
      let f := weighted_insert "gadgets_executed" (Q_of_nat (length (gadgets_executed p))) f in
      let f := weighted_insert "mem_ratio_written" (1 - mem_ratio_written p)%Q f in
      inr (set_fitness c f, sk')
  end.

(** [register_pattern_ff]: [profile.registers[0]] panics on a profile
    without register states. *)
Definition register_pattern_ff (c : Creature) (sk : Sk) (cfg : EvalConfig RegisterPattern)
    : Res (Creature * Sk) :=
  match profile c with
  | None => inr (c, sk)
  | Some p =>
      match register_pattern _ cfg with
      | None => inr (c, sk)
      | Some pattern =>
          match profile_registers p !! 0 with
          | None => inl Panic
          | Some regs =>
              let f := Weighted_new (fitness_weights _ cfg) in
              let f := weighted_insert "register_error" (distance_from_register_state pattern regs) f in
              let f := weighted_insert "mem_ratio_written" (1 - mem_ratio_written p)%Q f in
              let f := weighted_insert "crash_count" (Q_of_nat (sum_list (cpu_errors_values p))) f in
              let f := weighted_insert "gadgets_executed" (Q_of_nat (length (gadgets_executed p))) f in
              inr (set_fitness c f, sk)
          end
      end
  end.

(** [b[0]], which panics on an empty vector. *)
Definition first_word (b : list Z) : Res Z :=
  match b with [] => inl Panic | x :: _ => inr x end.

(** [.values().fold(0xffff_ffff_ffff_ffff, |a, b| a & b[0])]. *)
Definition conj_fold (vals : list (list Z)) : Res Z :=
  foldl (fun acc b => let* a := acc in let* x := first_word b in inr (Z.land a x)) (inr u64_max) vals.

(** [register_conjunction_ff]; the map's iteration order is
    [map_to_list]'s.  Unlike the two other functions it stores the write
    ratio itself, not [1 -] it. *)
Definition register_conjunction_ff (c : Creature) (sk : Sk) (cfg : EvalConfig RegisterPattern)
    : Res (Creature * Sk) :=
  match profile c with
  | None => inr (c, sk)
  | Some p =>
      match last (profile_registers p) with
      | None => inr (c, sk)
      | Some regs =>
          let* conj' := conj_fold ((map_to_list regs).*2) in
          let score := Q_of_nat (count_zeros64 conj') in
          let f := Weighted_new (fitness_weights _ cfg) in
          let f := weighted_insert "zeroes" score f in
          let f := weighted_insert "gadgets_executed" (Q_of_nat (length (gadgets_executed p))) f in
          let f := weighted_insert "mem_ratio_written" (mem_ratio_written p) f in
          inr (set_fitness c f, sk)
      end
  end.

End Evaluation.

(** The emulator pool ([emulator::hatchery::Hatchery], not in the
    repository): one creature or a batch is executed and comes back
    with its profile; in a batch the runs may complete in any order,
    but each profile stays with its creature (spec 5). *)
Class Hatchery (H P : Type) := {
  execute : H -> Creature (P:=P) -> Res (Creature (P:=P) * P);
  execute_batch : H -> list (Creature (P:=P)) -> Res (list (Creature (P:=P) * P));
  execute_batch_perm : forall h cs out, execute_batch h cs = inr out -> out.*1 ≡ₚ cs
}.

(** [util::architecture::random_register_state]: a random [u64] for
    each register, drawn in order. *)
Definition random_register_state `{Rng R} (regs : list Register) (r : R) : gmap Register Z * R :=
  foldl (fun '(m, r) reg => let '(x, r') := next_u64 r in (<[reg := x]> m, r')) (∅, r) regs.

Module Evaluator.
Section EvaluatorOps.
Context {P : Type} `{ProfileApi P} {RegisterPattern : Type} `{Sketch Sk} `{Hatchery Hch P}.

Local Abbreviation Creature := (Creature (P:=P)).

(** [FitnessFn<Creature, CountMinSketch, Config>]: the sketch is passed
    by [&mut] and comes back updated; a panic is an error. *)
Definition FitnessFn : Type := Creature -> Sk -> EvalConfig RegisterPattern -> Res (Creature * Sk).

(** [struct Evaluator]. *)
Record t := mk {
  config : EvalConfig RegisterPattern;
  hatchery : Hch;
  sketch : Sk;
  fitness_fn : FitnessFn
}.

Definition with_sketch (ev : t) (s : Sk) : t := mk (config ev) (hatchery ev) s (fitness_fn ev).

(** [Evaluate::evaluate]: execute ([expect] on failure), attach the
    profile, draw a tag with [rand::random::<u64>()], score. *)
Definition evaluate `{Rng R} (ev : t) (c : Creature) (r : R) : Res (Creature * t * R) :=
  let* (c1, p) := execute (hatchery ev) c in
  let '(tg, r1) := next_u64 r in
  let c2 := set_tag (set_profile c1 p) tg in
  let* (c3, s) := fitness_fn ev c2 (sketch ev) (config ev) in
  inr (c3, with_sketch ev s, r1).

(** The [.map(|creature| (self.fitness_fn)(creature, &mut self.sketch, ..))]
    of [eval_pipeline], in order, threading the sketch. *)
Fixpoint score_all (ff : FitnessFn) (cfg : EvalConfig RegisterPattern) (cs : list Creature) (s : Sk)
    : Res (list Creature * Sk) :=
  match cs with
  | [] => inr ([], s)
  | c :: cs' =>
      let* (c', s1) := ff c s cfg in
      let* (cs'', s2) := score_all ff cfg cs' s1 in
      inr (c' :: cs'', s2)
  end.

(** [Evaluate::eval_pipeline]: partition on [profile.is_some()], execute
    the fresh ones as one batch, attach their profiles, chain the old
    ones after them, score each, then [record_genetic_frequency] of every
    creature of the batch into the sketch. *)
Definition eval_pipeline (record_genetic_frequency : Creature -> Sk -> Sk) (ev : t) (inbound : list Creature)
    : Res (list Creature * t) :=
  let old_meat := filter (fun c => is_Some (profile c)) inbound in
  let fresh_meat := filter (fun c => ~ is_Some (profile c)) inbound in
  let* executed := execute_batch (hatchery ev) fresh_meat in
  let* (batch, s1) := score_all (fitness_fn ev) (config ev)
                        (((fun cp => set_profile cp.1 cp.2) <$> executed) ++ old_meat) (sketch ev) in
  let s2 := foldl (fun s c => record_genetic_frequency c s) s1 batch in
  inr (batch, with_sketch ev s2).

(** [s.parse().ok().expect("Failed to parse output register")] for
    each configured output register, in order. *)
Fixpoint parse_registers (parse_register : string -> option Register) (names : list string)
    : Res (list Register) :=
  match names with
  | [] => inr []
  | s :: names' =>
      match parse_register s with
      | None => inl Panic
      | Some r => let* rs := parse_registers parse_register names' in inr (r :: rs)
      end
  end.

(** The [output_registers] block of [Evaluator::spawn]: the parsed
    output registers, then the keys of the pattern converted with
    [try_into] ([expect] on failure; the map's key order is
    [map_to_list]'s), then [out_reg.dedup()].  The sort that would make
    [dedup] remove every repeat is commented out in the code. *)
Definition spawn_output_registers (parse_register : string -> option Register)
    (try_into : RegisterPattern -> option RegisterState)
    (cfg : EvalConfig RegisterPattern) (output_registers : list string) : Res (list Register) :=
  let* out_reg := parse_registers parse_register output_registers in
  match register_pattern _ cfg with
  | Some pat =>
      match try_into pat with
      | None => inl Panic
      | Some arch_specific_pat => inr (vec_dedup (out_reg ++ (map_to_list arch_specific_pat).*1))
      end
  | None => inr out_reg
  end.

(** [Evaluator::spawn]: parse the register pattern into the
    configuration, build the output registers, one random input state
    over them, the hatchery, and a fresh sketch.  The constructors of the
    hatchery and the sketch and the pattern parser live outside the
    repository and are parameters. *)
Definition spawn `{Rng R}
    (parse_register_pattern : EvalConfig RegisterPattern -> EvalConfig RegisterPattern)
    (parse_register : string -> option Register) (try_into : RegisterPattern -> option RegisterState)
    (hatchery_new : EvalConfig RegisterPattern -> list (gmap Register Z) -> list Register -> Hch)
    (sketch_new : EvalConfig RegisterPattern -> Sk)
    (cfg : EvalConfig RegisterPattern) (fitness_fn : FitnessFn) (r : R) : Res (t * R) :=
  let config := parse_register_pattern cfg in
  let* output_registers :=
    spawn_output_registers parse_register try_into config (roper_output_registers _ config) in
  let '(input, r1) := random_register_state output_registers r in
  inr (mk config (hatchery_new config [input] output_registers) (sketch_new config) fitness_fn, r1).

(** A fitness function that only sets the fitness. *)
Definition ff_keeps (ff : FitnessFn) : Prop :=
  forall c s cfg c' s', ff c s cfg = inr (c', s') ->
    chromosome c' = chromosome c /\ tag c' = tag c /\ profile c' = profile c.

End EvaluatorOps.
End Evaluator.

(** ** Fixtures for the witnesses

    A profile that holds paths and register states, a hatchery that
    hands back an empty profile, and a count-min sketch of one row of
    one counter (every address collides). *)

Record TestProfile := mkTestProfile { tp_paths : list (list Block); tp_registers : list RegisterState }.

#[export] Instance TestProfile_api : ProfileApi TestProfile := {|
  bb_path_iter := tp_paths;
  gadgets_executed _ := [];
  mem_ratio_written _ := 0%Q;
  cpu_errors_values _ := [];
  profile_registers := tp_registers
|}.

#[export] Instance unit_hatchery : Hatchery unit TestProfile.
Proof.
  refine {| execute _ c := inr (c, mkTestProfile [] []);
            execute_batch _ cs := inr ((fun c => (c, mkTestProfile [] [])) <$> cs) |}.
  intros h cs out [= <-]. induction cs as [|c cs IH]; [done|]. simpl. by apply perm_skip.
Defined.

Definition test_sketch : CMS := cms_new [fun _ => 0%nat] 1.

Definition test_creature (paths : list (list Block)) (regs : list RegisterState) : Creature (P:=TestProfile) :=
  mkCreature [] 0 (Some (mkTestProfile paths regs)) None.

Definition test_evaluator (ff : Evaluator.FitnessFn (P:=TestProfile) (RegisterPattern:=unit) (Sk:=CMS))
    : Evaluator.t (P:=TestProfile) (RegisterPattern:=unit) (Sk:=CMS) (Hch:=unit) :=
  Evaluator.mk (mkEvalConfig unit ∅ None []) tt test_sketch ff.

(** ** Lemmas *)

Section EvaluationLemmas.
Context {P : Type} `{ProfileApi P} {RegisterPattern : Type}.
Context (distance_from_register_state : RegisterPattern -> RegisterState -> Q) (code_size : positive).
Context `{Sketch Sk}.

Lemma elem_of_block_addresses (b : Block) (a : Z) :
  a ∈ block_addresses b <-> (Block.entry b <= a < wrap64 (Block.entry b + Block.size b))%Z.
Proof. unfold block_addresses. rewrite elem_of_seqZ. lia. Qed.

Lemma elem_of_addresses_path (path : list Block) (acc : gset Z) (a : Z) :
  a ∈ foldl (fun acc b => insert_all (block_addresses b) acc) acc path <->
  a ∈ acc \/ exists b, b ∈ path /\ a ∈ block_addresses b.
Proof.
  revert acc. induction path as [|b path IH]; intros acc; simpl.
  - split; [auto|]. intros [?|(b & Hb & _)]; [done|by apply not_elem_of_nil in Hb].
  - rewrite IH, elem_of_insert_all. split.
    + intros [[Ha|Ha]|(b0 & Hb0 & Ha)].
      * right. exists b. split; [left|done].
      * by left.
      * right. exists b0. split; [by right|done].
    + intros [Ha|(b0 & Hb0 & Ha)]; [by left; right|].
      apply elem_of_cons in Hb0 as [->|Hb0]; [by left; left|]. right. by exists b0.
Qed.

Lemma elem_of_addresses_visited (paths : list (list Block)) (a : Z) :
  a ∈ addresses_visited paths <->
  exists path b, path ∈ paths /\ b ∈ path /\ (Block.entry b <= a < wrap64 (Block.entry b + Block.size b))%Z.
Proof.
  unfold addresses_visited. setoid_rewrite <- elem_of_block_addresses.
  assert (forall acc : gset Z, a ∈ foldl (fun acc path => foldl (fun acc b => insert_all (block_addresses b) acc) acc path) acc paths <->
    a ∈ acc \/ exists path b, path ∈ paths /\ b ∈ path /\ a ∈ block_addresses b) as Hgen.
  { induction paths as [|path paths IH]; intros acc; simpl.
    - split; [auto|]. intros [?|(p & b & Hp & _)]; [done|by apply not_elem_of_nil in Hp].
    - rewrite IH, elem_of_addresses_path. split.
      + intros [[Ha|(b & Hb & Ha)]|(p & b & Hp & Hb & Ha)].
        * by left.
        * right. exists path, b. split_and!; [left|done|done].
        * right. exists p, b. split_and!; [by right|done|done].
      + intros [Ha|(p & b & Hp & Hb & Ha)]; [by left; left|].
        apply elem_of_cons in Hp as [->|Hp]; [left; right; by exists b|].
        right. by exists p, b. }
  rewrite Hgen. split; [intros [Ha|Ha]; [by apply not_elem_of_empty in Ha|done]|by right].
Qed.

(** The estimates [freq_loop] adds up, one per address, each read right
    after the address is inserted. *)
Fixpoint freq_sum (l : list Z) (s : Sk) : nat :=
  match l with
  | [] => 0
  | a :: l' => sketch_query (sketch_insert a s) a + freq_sum l' (sketch_insert a s)
  end.

Lemma freq_loop_sum (l : list Z) (s : Sk) (q : Q) :
  ((freq_loop l s q).2 == q + Q_of_nat (freq_sum l s))%Q.
Proof.
  revert s q. induction l as [|a l IH]; intros s q; simpl.
  - unfold Q_of_nat. simpl. by rewrite Qplus_0_r.
  - etrans; [apply IH|]. unfold Q_of_nat. rewrite Nat2Z.inj_add, inject_Z_plus. ring.
Qed.

Lemma freq_loop_sketch (l : list Z) (s : Sk) (q : Q) : (freq_loop l s q).1 = sketch_inserts l s.
Proof. revert s q. induction l as [|a l IH]; intros s q; simpl; [done|]. apply IH. Qed.

(** Every address adds at least 1 to the score: it is inserted before
    it is queried. *)
Lemma freq_loop_score (l : list Z) (s : Sk) (q : Q) :
  sketch_wf s -> (q + Q_of_nat (length l) <= (freq_loop l s q).2)%Q.
Proof.
  revert s q. induction l as [|a l IH]; intros s q Hs; simpl.
  - unfold Q_of_nat. simpl. rewrite Qplus_0_r. apply Qle_refl.
  - eapply Qle_trans; [|apply IH, sketch_insert_wf, Hs].
    pose proof (sketch_query_insert_same a s Hs) as Hq.
    unfold Q_of_nat. rewrite <- Qplus_assoc. apply Qplus_le_r.
    rewrite Nat2Z.inj_succ, <- Z.add_1_l, inject_Z_plus. apply Qplus_le_l.
    rewrite <- Zle_Qle. lia.
Qed.

(** The fields a fitness function leaves alone. *)
Definition keeps (c c' : Creature (P:=P)) : Prop :=
  chromosome c' = chromosome c /\ tag c' = tag c /\ profile c' = profile c.

Lemma set_fitness_keeps c f : keeps c (set_fitness c f).
Proof. done. Qed.

Lemma keeps_refl c : keeps c c.
Proof. done. Qed.

Lemma code_coverage_ff_keeps c (s : Sk) (cfg : EvalConfig RegisterPattern) c' s' :
  code_coverage_ff code_size c s cfg = inr (c', s') -> keeps c c'.
Proof.
  unfold code_coverage_ff. destruct (profile c); [|by intros [= <- _]].
  destruct (freq_loop _ _ _). by intros [= <- _].
Qed.

Lemma register_pattern_ff_keeps c (s : Sk) (cfg : EvalConfig RegisterPattern) c' s' :
  register_pattern_ff distance_from_register_state c s cfg = inr (c', s') -> keeps c c'.
Proof.
  unfold register_pattern_ff. destruct (profile c); [|by intros [= <- _]].
  destruct (register_pattern _ cfg); [|by intros [= <- _]].
  destruct (profile_registers _ !! 0); [by intros [= <- _]|done].
Qed.

Lemma register_conjunction_ff_keeps c (s : Sk) (cfg : EvalConfig RegisterPattern) c' s' :
  register_conjunction_ff c s cfg = inr (c', s') -> keeps c c'.
Proof.
  unfold register_conjunction_ff. destruct (profile c); [|by intros [= <- _]].
  destruct (last _); [|by intros [= <- _]].
  destruct (conj_fold _); simpl; [done|]. by intros [= <- _].
Qed.

Lemma conj_fold_go_inl (vals : list (list Z)) (e : Fault) :
  foldl (fun acc b => let* a := acc in let* x := first_word b in inr (Z.land a x)) (inl e) vals = inl e.
Proof. induction vals; simpl; done. Qed.

(** The AND of the first words, or a panic on an empty value vector. *)
Lemma conj_fold_go (vals : list (list Z)) (a : Z) :
  foldl (fun acc b => let* a := acc in let* x := first_word b in inr (Z.land a x)) (inr a) vals =
  if decide ([] ∈ vals) then inl Panic else inr (foldl (fun a b => Z.land a (hd 0 b)) a vals)%Z.
Proof.
  revert a. induction vals as [|v vals IH]; intros a; cbn [foldl].
  - rewrite decide_False; [done|apply not_elem_of_nil].
  - destruct v as [|x v]; cbn [res_bind first_word hd].
    + rewrite conj_fold_go_inl, decide_True; [done|left].
    + rewrite IH. destruct (decide ([] ∈ vals)) as [Hin|Hin].
      * rewrite decide_True; [done|by right].
      * rewrite decide_False; [done|]. intros [?|?]%elem_of_cons; done.
Qed.

Lemma conj_fold_testbit (vals : list (list Z)) (a i : Z) :
  (Z.testbit (foldl (fun a b => Z.land a (hd 0 b)) a vals) i =
   Z.testbit a i && forallb (fun v => Z.testbit (hd 0 v) i) vals)%Z.
Proof.
  revert a. induction vals as [|v vals IH]; intros a; simpl; [by rewrite andb_true_r|].
  rewrite IH, Z.land_spec. by rewrite andb_assoc.
Qed.

Lemma u64_max_testbit (i : Z) : (0 <= i < 64)%Z -> Z.testbit u64_max i = true.
Proof.
  intros Hi. unfold u64_max, u64_modulus.
  replace (2 ^ 64 - 1)%Z with (Z.ones 64) by reflexivity.
  apply Z.ones_spec_low. lia.
Qed.

Lemma filter_ext_in {A} (P1 P2 : A -> Prop) `{forall x, Decision (P1 x)} `{forall x, Decision (P2 x)} (l : list A) :
  (forall x, x ∈ l -> P1 x <-> P2 x) -> filter P1 l = filter P2 l.
Proof.
  induction l as [|x l IH]; intros Hx; [done|]. rewrite !filter_cons.
  rewrite IH by (intros y Hy; apply Hx; by right).
  destruct (decide (P1 x)) as [Hp1|Hp1]; destruct (decide (P2 x)) as [Hp2|Hp2]; try done;
    exfalso; [apply Hp2|apply Hp1]; apply Hx; (left || done); done.
Qed.

Lemma existsb_negb {A} (f : A -> bool) (l : list A) :
  existsb (fun x => negb (f x)) l = negb (forallb f l).
Proof. induction l as [|x l IH]; simpl; [done|]. rewrite IH. by destruct (f x). Qed.


End EvaluationLemmas.

(** On the count-min sketch: a second pass over addresses the sketch
    has already counted reads each estimate at least one higher. *)
Lemma freq_sum_reinsert (l M : list Z) (s : CMS) :
  cms_wf s -> (forall a, a ∈ l -> a ∈ M) ->
  freq_sum l s + length l <= freq_sum l (sketch_inserts M s).
Proof.
  revert s. induction l as [|a l IH]; intros s Hwf HM; simpl; [lia|].
  pose proof (cms_query_reinsert M a s Hwf (HM a ltac:(left))) as Hq.
  rewrite <- cms_inserts_insert in Hq |- *.
  specialize (IH (cms_insert a s) (cms_insert_wf _ _ Hwf) (fun b Hb => HM b ltac:(by right))). lia.
Qed.

(** [avg_freq] of [code_coverage_ff], its two branches. *)
Lemma avg_freq_shift (sc1 sc2 n : Q) :
  (0 < n)%Q -> (sc1 + n <= sc2)%Q -> (sc1 / n + 1 <= sc2 / n)%Q.
Proof.
  intros Hn Hle. apply Qle_shift_div_l; [done|].
  assert ((sc1 / n + 1) * n == sc1 + n)%Q as ->; [|done].
  field. intros Hz. rewrite Hz in Hn. discriminate.
Qed.

(** ** Theorems on the fitness functions *)

Section FitnessTheorems.
Context {P : Type} `{ProfileApi P} {RegisterPattern : Type}.
Context (distance_from_register_state : RegisterPattern -> RegisterState -> Q) (code_size : positive).
Context `{Sketch Sk}.

(** C10: [code_coverage_ff] on a profiled creature: the addresses it
    counts are those of every block of every path, [entry <= a <
    entry + size] with the sum wrapping at [2^64]; it inserts each of
    them into the sketch; and it scores [code_coverage] as [1 - visited
    / code_size]. *)
Theorem code_coverage_ff_spec c (s : Sk) (cfg : EvalConfig RegisterPattern) p c' s' :
  profile c = Some p -> code_coverage_ff code_size c s cfg = inr (c', s') ->
  s' = sketch_inserts (elements (addresses_visited (bb_path_iter p))) s /\
  (forall a, a ∈ addresses_visited (bb_path_iter p) <->
     exists path b, path ∈ bb_path_iter p /\ b ∈ path /\
       (Block.entry b <= a < wrap64 (Block.entry b + Block.size b))%Z) /\
  exists f, fitness c' = Some f /\
    scores f !! "code_coverage" =
      Some (1 - Q_of_nat (size (addresses_visited (bb_path_iter p))) / inject_Z (Z.pos code_size))%Q.
Proof.
  intros Hp. unfold code_coverage_ff. rewrite Hp.
  pose proof (freq_loop_sketch (elements (addresses_visited (bb_path_iter p))) s 0) as Hs.
  destruct (freq_loop _ _ _) as [s1 q]. simpl in Hs. intros [= <- <-].
  split_and!; [done|apply elem_of_addresses_visited|].
  eexists. split; [done|]. simpl. by simplify_map_eq.
Qed.

(** C18: [code_coverage_ff] updates the shared sketch while it scores:
    every address the creature visited has a strictly larger estimate
    afterwards.  The spec's two-phase policy (score against the
    pre-batch sketch, update afterwards) is not what the code does. *)
Theorem code_coverage_ff_updates_sketch c (s : Sk) (cfg : EvalConfig RegisterPattern) p c' s' a :
  sketch_wf s -> profile c = Some p -> code_coverage_ff code_size c s cfg = inr (c', s') ->
  a ∈ addresses_visited (bb_path_iter p) -> sketch_query s a < sketch_query s' a.
Proof.
  intros Hwf Hp Hff Ha. unfold code_coverage_ff in Hff. rewrite Hp in Hff.
  pose proof (freq_loop_sketch (elements (addresses_visited (bb_path_iter p))) s 0) as Hs.
  destruct (freq_loop _ _ _) as [s1 q]. simpl in Hs. injection Hff as <- <-. subst s1.
  pose proof (sketch_never_undercounts (elements (addresses_visited (bb_path_iter p))) s a Hwf).
  pose proof (filter_eq_length_pos (elements (addresses_visited (bb_path_iter p))) a
    (proj2 (elem_of_elements _ _) Ha)). lia.
Qed.

(** Because every address is inserted before it is queried, the
    [code_frequency] score is at least 1, even for a creature whose
    addresses the sketch has never seen. *)
Theorem code_frequency_ge_one c (s : Sk) (cfg : EvalConfig RegisterPattern) p c' s' :
  sketch_wf s -> profile c = Some p -> code_coverage_ff code_size c s cfg = inr (c', s') ->
  exists f q, fitness c' = Some f /\ scores f !! "code_frequency" = Some q /\ (1 <= q)%Q.
Proof.
  intros Hwf Hp. unfold code_coverage_ff. rewrite Hp.
  pose proof (freq_loop_score (elements (addresses_visited (bb_path_iter p))) s 0 Hwf) as Hq.
  destruct (freq_loop _ _ _) as [s1 q]. simpl in Hq. intros [= <- <-].
  eexists _, _. split_and!; [done|simpl; by simplify_map_eq|].
  case_decide as Hn; [apply Qle_refl|].
  apply Qle_shift_div_l.
  - unfold Q_of_nat. change 0%Q with (inject_Z 0). rewrite <- Zlt_Qlt. lia.
  - rewrite Qmult_1_l. eapply Qle_trans; [|apply Hq]. rewrite Qplus_0_l. apply Qle_refl.
Qed.

(** C14: [register_conjunction_ff] scores [zeroes] as the number of bit
    positions below 64 at which the first word of some register of the
    last register state has a 0 bit. *)
Theorem register_conjunction_zeroes c (s : Sk) (cfg : EvalConfig RegisterPattern) p regs c' s' :
  profile c = Some p -> last (profile_registers p) = Some regs ->
  register_conjunction_ff c s cfg = inr (c', s') ->
  exists f, fitness c' = Some f /\
    scores f !! "zeroes" = Some (Q_of_nat (length (filter
      (fun i => existsb (fun v => negb (Z.testbit (hd 0 v) (Z.of_nat i))) ((map_to_list regs).*2))
      (seq 0 64))))%Z.
Proof.
  intros Hp Hl. unfold register_conjunction_ff, conj_fold. rewrite Hp, Hl, conj_fold_go.
  case_decide; [done|]. cbn [res_bind]. intros [= <- <-].
  eexists. split; [done|]. simpl. simplify_map_eq. do 3 f_equal. unfold count_zeros64.
  f_equal. apply filter_ext_in. intros i Hi. apply (proj1 (elem_of_seq 0 64 i)) in Hi.
  rewrite conj_fold_testbit, u64_max_testbit by lia. simpl.
  by rewrite existsb_negb.
Qed.

(** [register_conjunction_ff] on a profiled creature panics
    ([b[0]]) exactly when some register of the last register state has
    an empty value vector. *)
Theorem register_conjunction_panics c (s : Sk) (cfg : EvalConfig RegisterPattern) p regs :
  profile c = Some p -> last (profile_registers p) = Some regs ->
  register_conjunction_ff c s cfg = inl Panic <-> exists r, regs !! r = Some [].
Proof.
  intros Hp Hl. unfold register_conjunction_ff, conj_fold. rewrite Hp, Hl, conj_fold_go.
  case_decide as Hin; cbn [res_bind]; rewrite list_elem_of_fmap in Hin.
  - split; [intros _|done]. destruct Hin as ([r v] & Hv & Hr). simpl in Hv. subst v.
    apply elem_of_map_to_list in Hr. by exists r.
  - split; [done|]. intros [r Hr]. exfalso. apply Hin. exists (r, []).
    split; [done|]. by apply elem_of_map_to_list.
Qed.

(** C35: [register_pattern_ff] panics ([profile.registers[0]]) exactly
    when the creature has a profile, a register pattern is configured,
    and the profile has no register state. *)
Theorem register_pattern_ff_panics c (s : Sk) (cfg : EvalConfig RegisterPattern) :
  register_pattern_ff distance_from_register_state c s cfg = inl Panic <->
  exists p pat, profile c = Some p /\ register_pattern _ cfg = Some pat /\ profile_registers p = [].
Proof.
  unfold register_pattern_ff. destruct (profile c) as [p|];
    [|split; [discriminate|intros (p & pat & [=] & _)]].
  destruct (register_pattern _ cfg) as [pat|];
    [|split; [discriminate|intros (p' & pat & _ & [=] & _)]].
  destruct (profile_registers p) as [|r rs] eqn:Hr; simpl.
  - split; [intros _; eauto|done].
  - split; [discriminate|]. intros (p' & pat' & [= <-] & _ & Hr'). congruence.
Qed.

End FitnessTheorems.

(** ** Theorems on the evaluator *)

(** C34: Overflow of a block's end address: for a block whose [entry]
    and [size] are [u64]s, either [entry + size] overflows, the [Debug]
    print of the block panics in a debug build, and the release build's
    wrapped range [entry..end] counts no address at all; or the end
    fits, and the block covers exactly the [size] addresses from
    [entry]. *)
Theorem block_addresses_overflow (b : Block) :
  (0 <= Block.entry b < u64_modulus)%Z -> (0 <= Block.size b < u64_modulus)%Z ->
  (block_debug_end b = inl Panic /\ block_addresses b = []) \/
  (block_debug_end b = inr (Block.entry b + Block.size b)%Z /\
   block_addresses b = seqZ (Block.entry b) (Block.size b)).
Proof.
  intros He Hs. unfold block_debug_end, block_addresses. case_decide as Hov.
  - right. rewrite wrap64_small by lia. split; [done|]. f_equal. lia.
  - left. rewrite wrap64_overflow by (unfold u64_modulus in *; lia). split; [done|].
    apply seqZ_nil. unfold u64_modulus in *. lia.
Qed.

Lemma block_addresses_overflow_witness :
  ((0 <= 2 ^ 64 - 4 < u64_modulus)%Z /\ (0 <= 8 < u64_modulus)%Z) /\
  ((block_debug_end (Block.mk (2 ^ 64 - 4) 8) = inl Panic /\ block_addresses (Block.mk (2 ^ 64 - 4) 8) = []) \/
   (block_debug_end (Block.mk (2 ^ 64 - 4) 8) = inr (2 ^ 64 - 4 + 8)%Z /\
    block_addresses (Block.mk (2 ^ 64 - 4) 8) = seqZ (2 ^ 64 - 4) 8)).
Proof.
  assert ((0 <= 2 ^ 64 - 4 < u64_modulus)%Z /\ (0 <= 8 < u64_modulus)%Z) as [He Hs]
    by (unfold u64_modulus; lia).
  split; [done|]. exact (block_addresses_overflow (Block.mk (2 ^ 64 - 4) 8) He Hs).
Defined.

Section EvaluatorTheorems.
Context {P : Type} `{ProfileApi P} {RegisterPattern : Type} `{Sketch Sk} `{Hatchery Hch P}.
Local Abbreviation Ev := (Evaluator.t (P:=P) (RegisterPattern:=RegisterPattern) (Sk:=Sk) (Hch:=Hch)).

Lemma score_all_keeps (ff : Evaluator.FitnessFn (P:=P) (RegisterPattern:=RegisterPattern) (Sk:=Sk))
    cfg cs s out s' :
  Evaluator.ff_keeps ff -> Evaluator.score_all ff cfg cs s = inr (out, s') -> Forall2 keeps cs out.
Proof.
  intros Hff. revert s out s'. induction cs as [|c cs IH]; intros s out s'; simpl.
  - intros [= <- _]. constructor.
  - destruct (ff c s cfg) as [e|[c' s1]] eqn:Hc; simpl; [done|].
    destruct (Evaluator.score_all ff cfg cs s1) as [e|[cs' s2]] eqn:Hcs; simpl; [done|].
    intros [= <- _]. constructor; [exact (Hff _ _ _ _ _ Hc)|exact (IH _ _ _ Hcs)].
Qed.

Lemma keeps_fmap_profile (cs out : list (Creature (P:=P))) :
  Forall2 keeps cs out -> profile <$> out = profile <$> cs.
Proof. intros Hk. induction Hk as [|c c' l l' (_ & _ & Hp) _ IH]; [done|]. by rewrite !fmap_cons, Hp, IH. Qed.

Lemma keeps_fmap_chromosome (cs out : list (Creature (P:=P))) :
  Forall2 keeps cs out -> chromosome <$> out = chromosome <$> cs.
Proof. intros Hk. induction Hk as [|c c' l l' (Hc & _ & _) _ IH]; [done|]. by rewrite !fmap_cons, Hc, IH. Qed.

(** C24: [Evaluator::evaluate] with a fitness function that only sets
    the fitness: the creature comes back with exactly the profile the
    hatchery returned, a tag drawn from the generator, and the
    evaluator changed only in its sketch. *)
Theorem evaluate_spec `{Rng R} (ev : Ev) (c : Creature) (r : R) c' ev' r' :
  Evaluator.ff_keeps (Evaluator.fitness_fn ev) ->
  Evaluator.evaluate ev c r = inr (c', ev', r') ->
  exists c1 p, execute (Evaluator.hatchery ev) c = inr (c1, p) /\
    profile c' = Some p /\ chromosome c' = chromosome c1 /\ tag c' = (next_u64 r).1 /\
    r' = (next_u64 r).2 /\ Evaluator.config ev' = Evaluator.config ev /\
    Evaluator.hatchery ev' = Evaluator.hatchery ev.
Proof.
  intros Hff. unfold Evaluator.evaluate.
  destruct (execute _ c) as [e|[c1 p]] eqn:Hx; cbn [res_bind]; [done|].
  destruct (next_u64 r) as [tg r1] eqn:Hr.
  destruct (Evaluator.fitness_fn ev _ _ _) as [e|[c3 s]] eqn:Hf; cbn [res_bind]; [done|].
  intros [= <- <- <-]. destruct (Hff _ _ _ _ _ Hf) as (Hc & Ht & Hp).
  exists c1, p. by rewrite Hc, Ht, Hp.
Qed.

(** C5: [eval_pipeline] sends the hatchery exactly the creatures
    without a profile, in their order; the creatures that already had a
    profile keep it (they are not executed again) and come after the
    fresh ones; and every creature of the batch comes back once, in
    some order. *)
Theorem eval_pipeline_spec (rgf : Creature -> Sk -> Sk) (ev : Ev) (cs : list Creature) out ev' :
  Evaluator.ff_keeps (Evaluator.fitness_fn ev) ->
  Evaluator.eval_pipeline rgf ev cs = inr (out, ev') ->
  exists executed,
    execute_batch (Evaluator.hatchery ev) (filter (fun c => ~ is_Some (profile c)) cs) = inr executed /\
    profile <$> out = ((fun cp => Some cp.2) <$> executed) ++ (profile <$> filter (fun c => is_Some (profile c)) cs) /\
    chromosome <$> out ≡ₚ chromosome <$> cs.
Proof.
  intros Hff. unfold Evaluator.eval_pipeline.
  destruct (execute_batch _ _) as [e|executed] eqn:Hx; cbn [res_bind]; [done|].
  destruct (Evaluator.score_all _ _ _ _) as [e|[batch s1]] eqn:Hs; cbn [res_bind]; [done|].
  intros [= <- _]. exists executed. apply score_all_keeps in Hs; [|done].
  split_and!; [done| |].
  - rewrite (keeps_fmap_profile _ _ Hs), fmap_app, <- list_fmap_compose. done.
  - rewrite (keeps_fmap_chromosome _ _ Hs), fmap_app, <- list_fmap_compose.
    apply execute_batch_perm in Hx.
    etrans; [|apply fmap_Permutation, (filter_app_complement (fun c => is_Some (profile c)) cs)].
    rewrite fmap_app, (Permutation_app_comm (chromosome <$> filter _ cs)).
    apply Permutation_app_tail. rewrite <- Hx, <- list_fmap_compose. done.
Qed.

End EvaluatorTheorems.

Section SketchOrderTheorems.
Context {P : Type} `{ProfileApi P} {RegisterPattern : Type} (code_size : positive).

(** C12: Scores depend on what was scored before, in the same batch:
    [code_coverage_ff] scoring a creature that visits some address, and
    then the same creature again against the count-min sketch the first
    scoring left, gives a [code_frequency] at least 1 higher the second
    time.  The spec requires every creature of a batch to be scored
    against the same pre-batch sketch, under which two creatures with
    one profile get one score. *)
Theorem code_frequency_rises (c : Creature (P:=P)) (s : CMS) (cfg : EvalConfig RegisterPattern) p c1 s1 c2 s2 :
  cms_wf s -> profile c = Some p -> addresses_visited (bb_path_iter p) <> ∅ ->
  code_coverage_ff code_size c s cfg = inr (c1, s1) ->
  code_coverage_ff code_size c s1 cfg = inr (c2, s2) ->
  exists q1 q2, (fitness c1 ≫= fun f => scores f !! "code_frequency") = Some q1 /\
    (fitness c2 ≫= fun f => scores f !! "code_frequency") = Some q2 /\ (q1 + 1 <= q2)%Q.
Proof.
  intros Hwf Hp Hne. unfold code_coverage_ff. rewrite Hp.
  set (V := addresses_visited (bb_path_iter p)) in *.
  pose proof (freq_loop_sketch (elements V) s 0) as Hs1.
  pose proof (freq_loop_sum (elements V) s 0) as Hq1.
  destruct (freq_loop (elements V) s 0) as [s1' sc1]. simpl in Hs1, Hq1. intros [= <- <-].
  pose proof (freq_loop_sum (elements V) s1' 0) as Hq2.
  destruct (freq_loop (elements V) s1' 0) as [s2' sc2]. simpl in Hq2. intros [= <- <-].
  assert (size V <> 0) as Hsz.
  { rewrite size_non_empty_iff. intros Heq. apply Hne. by apply leibniz_equiv. }
  pose proof (freq_sum_reinsert (elements V) (elements V) s Hwf (fun a Ha => Ha)) as Hle.
  rewrite <- Hs1 in Hle.
  exists (sc1 / Q_of_nat (size V))%Q, (sc2 / Q_of_nat (size V))%Q.
  rewrite decide_False by done. split_and!; [by cbn; simplify_map_eq..|].
  apply avg_freq_shift; [unfold Q_of_nat, Qlt; simpl; lia|].
  rewrite Hq1, Hq2, !Qplus_0_l. unfold Q_of_nat. rewrite <- inject_Z_plus, <- Zle_Qle.
  change (size V) with (length (elements V)). lia.
Qed.

End SketchOrderTheorems.

(** ** Witnesses *)

Lemma test_sketch_wf : sketch_wf test_sketch.
Proof.
  cbn. split_and!; try discriminate; try reflexivity; repeat constructor; intros; lia.
Qed.

Lemma code_frequency_rises_witness :
  exists c1 s1 c2 s2,
    code_coverage_ff 16 (test_creature [[Block.mk 0 1]] []) test_sketch (mkEvalConfig unit ∅ None []) = inr (c1, s1) /\
    code_coverage_ff 16 (test_creature [[Block.mk 0 1]] []) s1 (mkEvalConfig unit ∅ None []) = inr (c2, s2) /\
    exists q1 q2, (fitness c1 ≫= fun f => scores f !! "code_frequency") = Some q1 /\
      (fitness c2 ≫= fun f => scores f !! "code_frequency") = Some q2 /\ (q1 + 1 <= q2)%Q.
Proof.
  destruct (code_coverage_ff 16 (test_creature [[Block.mk 0 1]] []) test_sketch (mkEvalConfig unit ∅ None []))
    as [e|[c1 s1]] eqn:H1; [vm_compute in H1; discriminate|].
  destruct (code_coverage_ff 16 (test_creature [[Block.mk 0 1]] []) s1 (mkEvalConfig unit ∅ None []))
    as [e|[c2 s2]] eqn:H2; [vm_compute in H1; injection H1 as _ <-; vm_compute in H2; discriminate|].
  assert (addresses_visited (bb_path_iter (mkTestProfile [[Block.mk 0 1]] [])) <> ∅) as Hne.
  { apply (bool_decide_unpack _). vm_compute. exact I. }
  exists c1, s1, c2, s2. split_and!; [done|done|].
  exact (code_frequency_rises 16 (test_creature [[Block.mk 0 1]] []) test_sketch _ _ c1 s1 c2 s2
    test_sketch_wf eq_refl Hne H1 H2).
Defined.

Lemma code_coverage_ff_spec_witness :
  let c := test_creature [[Block.mk 0 3]] [] in
  exists c' s', code_coverage_ff (RegisterPattern:=unit) 16 c test_sketch (mkEvalConfig unit ∅ None []) = inr (c', s') /\
    s' = sketch_inserts (elements (addresses_visited [[Block.mk 0 3]])) test_sketch.
Proof.
  intros c. destruct (code_coverage_ff 16 c test_sketch _) as [e|[c' s']] eqn:Hff; [vm_compute in Hff; discriminate|].
  exists c', s'. split; [done|].
  exact (proj1 (code_coverage_ff_spec 16 c test_sketch _ (mkTestProfile [[Block.mk 0 3]] []) c' s' eq_refl Hff)).
Defined.

Lemma code_coverage_ff_updates_sketch_witness :
  let c := test_creature [[Block.mk 0 3]] [] in
  exists c' s', code_coverage_ff (RegisterPattern:=unit) 16 c test_sketch (mkEvalConfig unit ∅ None []) = inr (c', s') /\
    sketch_query test_sketch 1 < sketch_query s' 1.
Proof.
  intros c. destruct (code_coverage_ff 16 c test_sketch _) as [e|[c' s']] eqn:Hff; [vm_compute in Hff; discriminate|].
  exists c', s'. split; [done|].
  apply (code_coverage_ff_updates_sketch 16 c test_sketch _ (mkTestProfile [[Block.mk 0 3]] []) c' s' 1
    test_sketch_wf eq_refl Hff). vm_compute. set_solver.
Defined.

Lemma code_frequency_ge_one_witness :
  let c := test_creature [[Block.mk 0 3]] [] in
  exists c' s', code_coverage_ff (RegisterPattern:=unit) 16 c test_sketch (mkEvalConfig unit ∅ None []) = inr (c', s') /\
    exists f q, fitness c' = Some f /\ scores f !! "code_frequency" = Some q /\ (1 <= q)%Q.
Proof.
  intros c. destruct (code_coverage_ff 16 c test_sketch _) as [e|[c' s']] eqn:Hff; [vm_compute in Hff; discriminate|].
  exists c', s'. split; [done|].
  exact (code_frequency_ge_one 16 c test_sketch _ (mkTestProfile [[Block.mk 0 3]] []) c' s' test_sketch_wf eq_refl Hff).
Defined.

Definition test_registers : RegisterState := <["r0" := [6%Z]]> (<["r1" := [3%Z; 9%Z]]> ∅).

Lemma register_conjunction_zeroes_witness :
  let c := test_creature [] [test_registers] in
  exists c' s', register_conjunction_ff (RegisterPattern:=unit) c test_sketch (mkEvalConfig unit ∅ None []) = inr (c', s') /\
    exists f, fitness c' = Some f /\ scores f !! "zeroes" = Some (Q_of_nat 63).
Proof.
  intros c. destruct (register_conjunction_ff c test_sketch _) as [e|[c' s']] eqn:Hff; [vm_compute in Hff; discriminate|].
  exists c', s'. split; [done|].
  assert (last (profile_registers (mkTestProfile [] [test_registers])) = Some test_registers) as Hl
    by reflexivity.
  destruct (register_conjunction_zeroes c test_sketch _ (mkTestProfile [] [test_registers]) test_registers c' s'
    eq_refl Hl Hff) as (f & Hf & Hz).
  exists f. split; [done|]. rewrite Hz. vm_compute. reflexivity.
Defined.

Lemma register_conjunction_panics_witness :
  register_conjunction_ff (RegisterPattern:=unit) (test_creature [] [<["r0" := []]> test_registers])
    test_sketch (mkEvalConfig unit ∅ None []) = inl Panic.
Proof.
  assert (last (profile_registers (mkTestProfile [] [<["r0" := []]> test_registers])) =
    Some (<["r0" := []]> test_registers)) as Hl by reflexivity.
  apply (register_conjunction_panics (test_creature [] [<["r0" := []]> test_registers]) test_sketch _ (mkTestProfile [] [<["r0" := []]> test_registers])
    (<["r0" := []]> test_registers) eq_refl Hl).
  exists "r0"%string. reflexivity.
Defined.

Lemma evaluate_spec_witness :
  exists c' ev' r', Evaluator.evaluate (test_evaluator (code_coverage_ff 16)) (test_creature [] []) ([7%Z] : Tape) = inr (c', ev', r') /\
    tag c' = 7%Z.
Proof.
  assert (res_ok (Evaluator.evaluate (test_evaluator (code_coverage_ff 16)) (test_creature [] []) ([7%Z] : Tape)) = true)
    as Hok by (vm_compute; reflexivity).
  destruct (res_ok_inr _ Hok) as [[[c' ev'] r'] Hev].
  exists c', ev', r'. split; [done|].
  destruct (evaluate_spec (test_evaluator (code_coverage_ff 16)) _ _ c' ev' r'
    (fun c s cfg c' s' Hc => code_coverage_ff_keeps 16 c s cfg c' s' Hc) Hev) as (_ & _ & _ & _ & _ & Ht & _).
  rewrite Ht. reflexivity.
Defined.

Lemma eval_pipeline_spec_witness :
  let old := test_creature [[Block.mk 0 1]] [] in
  let fresh := mkCreature (P:=TestProfile) [5%Z] 0 None None in
  exists out ev', Evaluator.eval_pipeline (fun _ s => s) (test_evaluator (code_coverage_ff 16)) [old; fresh] = inr (out, ev') /\
    chromosome <$> out ≡ₚ chromosome <$> [old; fresh].
Proof.
  intros old fresh.
  assert (res_ok (Evaluator.eval_pipeline (fun _ s => s) (test_evaluator (code_coverage_ff 16)) [old; fresh]) = true)
    as Hok by (vm_compute; reflexivity).
  destruct (res_ok_inr _ Hok) as [[out ev'] Hev].
  exists out, ev'. split; [done|].
  destruct (eval_pipeline_spec (fun _ s => s) (test_evaluator (code_coverage_ff 16)) [old; fresh] out ev'
    (fun c s cfg c' s' Hc => code_coverage_ff_keeps 16 c s cfg c' s' Hc) Hev) as (_ & _ & _ & Hp).
  exact Hp.
Defined.

(** ** The output registers of [Evaluator::spawn] *)

Lemma parse_registers_inr (parse_register : string -> option Register) names rs :
  Evaluator.parse_registers parse_register names = inr rs ->
  forall r, r ∈ rs <-> exists s, s ∈ names /\ parse_register s = Some r.
Proof.
  revert rs. induction names as [|s names IH]; intros rs; simpl.
  - intros [= <-] r. split; [intros Hr; by apply not_elem_of_nil in Hr|].
    intros (s & Hs & _). by apply not_elem_of_nil in Hs.
  - destruct (parse_register s) as [r0|] eqn:Hp; [|done].
    destruct (Evaluator.parse_registers parse_register names) as [e|rs0] eqn:Hrs; cbn [res_bind]; [done|].
    intros [= <-] r. rewrite elem_of_cons, (IH rs0 eq_refl r). split.
    + intros [->|(s' & Hs' & Hp')]; [exists s; split; [left|done]|exists s'; split; [by right|done]].
    + intros (s' & [->|Hs']%elem_of_cons & Hp'); [left; congruence|right; by exists s'].
Qed.

(** C36: The registers [Evaluator::spawn] reads back are exactly the
    configured output registers and the registers of the pattern. *)
Theorem spawn_output_registers_spec {RegisterPattern : Type} (parse_register : string -> option Register)
    (try_into : RegisterPattern -> option RegisterState) (cfg : EvalConfig RegisterPattern) names regs :
  Evaluator.spawn_output_registers parse_register try_into cfg names = inr regs ->
  forall r, r ∈ regs <->
    (exists s, s ∈ names /\ parse_register s = Some r) \/
    (exists pat st, register_pattern _ cfg = Some pat /\ try_into pat = Some st /\ is_Some (st !! r)).
Proof.
  unfold Evaluator.spawn_output_registers.
  destruct (Evaluator.parse_registers parse_register names) as [e|out] eqn:Hout; cbn [res_bind]; [done|].
  pose proof (parse_registers_inr _ _ _ Hout) as Hin.
  destruct (register_pattern _ cfg) as [pat|].
  - destruct (try_into pat) as [st|] eqn:Ht; [|done]. intros [= <-] r.
    rewrite elem_of_vec_dedup, elem_of_app, Hin, list_elem_of_fmap. split.
    + intros [Hs|([r' v] & -> & Hm)]; [by left|right]. apply elem_of_map_to_list in Hm.
      exists pat, st. simpl. split_and!; [done|done|by eexists].
    + intros [Hs|(pat' & st' & [= <-] & Hst & [v Hv])]; [by left|right].
      rewrite Ht in Hst. injection Hst as <-. exists (r, v). split; [done|]. by apply elem_of_map_to_list.
  - intros [= <-] r. rewrite Hin. split; [by left|]. intros [Hs|(pat & _ & [=] & _)]; done.
Qed.

(** C33: [out_reg.dedup()] only drops adjacent repeats (the sort meant
    to precede it is commented out), so an output register that the
    pattern also names is read back twice whenever the configured list
    does not end with it. *)
Theorem spawn_output_registers_keeps_duplicates {RegisterPattern : Type}
    (parse_register : string -> option Register) (try_into : RegisterPattern -> option RegisterState)
    (cfg : EvalConfig RegisterPattern) names out pat st regs (r : Register) :
  Evaluator.parse_registers parse_register names = inr out ->
  register_pattern _ cfg = Some pat -> try_into pat = Some st ->
  r ∈ out -> is_Some (st !! r) -> last out <> Some r ->
  Evaluator.spawn_output_registers parse_register try_into cfg names = inr regs ->
  2 <= length (filter (fun x => x = r) regs).
Proof.
  intros Hout Hpat Hst Hr [v Hv] Hlast. unfold Evaluator.spawn_output_registers.
  rewrite Hout, Hpat, Hst. cbn [res_bind]. intros [= <-].
  apply vec_dedup_app_twice; [done| |done].
  apply list_elem_of_fmap. exists (r, v). split; [done|]. by apply elem_of_map_to_list.
Qed.

Lemma spawn_output_registers_keeps_duplicates_witness :
  exists regs, Evaluator.spawn_output_registers Some (fun _ : unit => Some {[ "r0" := [0%Z] ]})
      (mkEvalConfig unit ∅ (Some tt) []) ["r0"; "r2"] = inr regs /\
    2 <= length (filter (fun x => x = "r0") regs).
Proof.
  exists ["r0"; "r2"; "r0"]. split; [vm_compute; reflexivity|].
  apply (spawn_output_registers_keeps_duplicates Some (fun _ : unit => Some {[ "r0" := [0%Z] ]})
    (mkEvalConfig unit ∅ (Some tt) []) ["r0"; "r2"] ["r0"; "r2"] tt {[ "r0" := [0%Z] ]}).
  - vm_compute. reflexivity.
  - reflexivity.
  - reflexivity.
  - by left.
  - by eexists.
  - discriminate.
  - vm_compute. reflexivity.
Defined.

Lemma spawn_output_registers_spec_witness :
  "r2" ∈ ["r0"; "r2"; "r0"] <->
    (exists s, s ∈ ["r0"; "r2"] /\ Some s = Some "r2") \/
    (exists pat st, register_pattern _ (mkEvalConfig unit ∅ (Some tt) []) = Some pat /\
       (fun _ : unit => Some {[ "r0" := [0%Z] ]} : option RegisterState) pat = Some st /\ is_Some (st !! "r2")).
Proof.
  apply (spawn_output_registers_spec Some (fun _ : unit => Some {[ "r0" := [0%Z] ]})
    (mkEvalConfig unit ∅ (Some tt) []) ["r0"; "r2"] ["r0"; "r2"; "r0"]).
  vm_compute. reflexivity.
Defined.

(** ** [Evaluator::spawn] *)

Lemma random_register_state_dom `{Rng R} (regs : list Register) (r : R) :
  dom (random_register_state regs r).1 = list_to_set regs.
Proof.
  unfold random_register_state.
  assert (forall (m : gmap Register Z) r0,
    dom (foldl (fun '(m, r) reg => let '(x, r') := next_u64 r in (<[reg := x]> m, r')) (m, r0) regs).1 =
    list_to_set regs ∪ dom m) as Hgen.
  { induction regs as [|reg regs IH]; intros m r0; simpl; [set_solver|].
    destruct (next_u64 r0) as [x r1]. rewrite IH, dom_insert_L. set_solver. }
  rewrite Hgen, dom_empty_L. set_solver.
Qed.

Section SpawnTheorems.
Context {P : Type} `{ProfileApi P} {RegisterPattern : Type} `{Sketch Sk} `{Hatchery Hch P} `{Rng R}.
Context (parse_register_pattern : EvalConfig RegisterPattern -> EvalConfig RegisterPattern)
        (parse_register : string -> option Register) (try_into : RegisterPattern -> option RegisterState)
        (hatchery_new : EvalConfig RegisterPattern -> list (gmap Register Z) -> list Register -> Hch)
        (sketch_new : EvalConfig RegisterPattern -> Sk).

(** [Evaluator::spawn] keeps the fitness function it is given,
    starts from a fresh sketch, and builds the hatchery over the output
    registers with one input state that gives every output register a
    value; it fails exactly when the output registers cannot be built. *)
Theorem spawn_spec (cfg : EvalConfig RegisterPattern)
    (ff : Evaluator.FitnessFn (P:=P) (RegisterPattern:=RegisterPattern) (Sk:=Sk)) (r : R) :
  let config := parse_register_pattern cfg in
  match Evaluator.spawn parse_register_pattern parse_register try_into hatchery_new sketch_new cfg ff r with
  | inr (ev, _) =>
      exists regs input,
        Evaluator.spawn_output_registers parse_register try_into config (roper_output_registers _ config) = inr regs /\
        Evaluator.hatchery ev = hatchery_new config [input] regs /\ dom input = list_to_set regs /\
        Evaluator.fitness_fn ev = ff /\ Evaluator.sketch ev = sketch_new config /\ Evaluator.config ev = config
  | inl e =>
      Evaluator.spawn_output_registers parse_register try_into config (roper_output_registers _ config) = inl e
  end.
Proof.
  intros config. unfold Evaluator.spawn. fold config.
  destruct (Evaluator.spawn_output_registers _ _ config _) as [e|regs] eqn:Hregs; cbn [res_bind]; [done|].
  pose proof (random_register_state_dom regs r) as Hdom.
  destruct (random_register_state regs r) as [input r1]. simpl in Hdom.
  exists regs, input. done.
Qed.

End SpawnTheorems.
