(* ===== verification/Levenshtein.v ===== *)
(** * The edit distance used as fitness ([distance::levenshtein])

    [hello_world.rs] scores a genome by [distance::levenshtein] of its
    genes and the target string.  The [util::distance] module is not
    in the repository: the distance is modelled from the spec (a
    non-negative distance between two sequences) as the classical
    Levenshtein distance over bytes, by its recurrence.  The theorem
    the search relies on is that the distance is zero exactly on equal
    strings, so a champion of fitness 0 spells the target. *)

From S2P Require Import Prelude.
From Stdlib Require Import Ascii.

(** The recurrence: deleting from [s], inserting into [s], or matching
    (a substitution costs 1).  The inner [fix] recurses on [t] for a
    fixed [a :: s']. *)
Fixpoint levenshtein (s t : list ascii) : nat :=
  match s with
  | [] => length t
  | a :: s' =>
      (fix lev_t (t : list ascii) : nat :=
         match t with
         | [] => length s
         | b :: t' =>
             Nat.min (Nat.min (S (levenshtein s' t)) (S (lev_t t')))
                     (levenshtein s' t' + if ascii_dec a b then 0 else 1)
         end) t
  end.

Lemma levenshtein_cons_cons a s b t :
  levenshtein (a :: s) (b :: t) =
  Nat.min (Nat.min (S (levenshtein s (b :: t))) (S (levenshtein (a :: s) t)))
          (levenshtein s t + if ascii_dec a b then 0 else 1).
Proof. done. Qed.

Lemma levenshtein_nil_r s : levenshtein s [] = length s.
Proof. by destruct s. Qed.

Lemma levenshtein_refl s : levenshtein s s = 0.
Proof.
  induction s as [|a s IH]; [done|].
  rewrite levenshtein_cons_cons, IH. destruct (ascii_dec a a); [lia|done].
Qed.

(** Distance zero means equal strings. *)
Theorem levenshtein_zero_iff (s t : list ascii) : levenshtein s t = 0 <-> s = t.
Proof.
  split; [|intros ->; apply levenshtein_refl].
  revert t. induction s as [|a s IH]; intros t Hd.
  - by destruct t.
  - destruct t as [|b t]; [by rewrite levenshtein_nil_r in Hd|].
    rewrite levenshtein_cons_cons in Hd.
    destruct (ascii_dec a b) as [->|]; [|lia].
    f_equal. apply IH. lia.
Qed.

(** The distance never exceeds the longer length. *)
Theorem levenshtein_le_max (s t : list ascii) :
  levenshtein s t <= Nat.max (length s) (length t).
Proof.
  revert t. induction s as [|a s IH]; intros t; [simpl; lia|].
  induction t as [|b t IHt]; [rewrite levenshtein_nil_r; simpl; lia|].
  rewrite levenshtein_cons_cons. specialize (IH t). cbn [length] in *.
  destruct (ascii_dec a b); lia.
Qed.
