(* ===== verification/Genome.v ===== *)
(** * Genomes of the string search ([src/examples/hello_world.rs],
    lines 11-123)

    A [Genome] is a [String] of genes with a memoised fitness.  This
    file models the configuration, [Genome::new], [crossover] (two
    children from independent split points of both parents),
    [mutate] (one byte replaced by a printable byte drawn by a
    rejection loop), [mate], [fitter_than] and [score_mut].  Strings
    are byte lists; [str::split_at] panics off a UTF-8 character
    boundary, which the model checks.  The theorems show that
    crossover conserves total length and cannot panic on non-empty
    printable parents, that mutation keeps a genome printable and
    returns once the generator yields a printable byte, and that
    mating always yields exactly two children. *)

From S2P Require Import Prelude Rng Levenshtein.
From Stdlib Require Import Ascii.

(** ** Configuration *)

(** [struct ObserverConfig]. *)
Record ObserverConfig := mkObserverConfig { window_size : nat }.

(** [struct Config]. *)
Record Config := mkConfig {
  mut_rate : Q;
  init_len : nat;
  pop_size : nat;
  tournament_size : nat;
  num_offspring : nat;
  target : list ascii;
  observer : ObserverConfig
}.

(** [Config::assert_invariants]: the [assert!] panics unless two
    parents survive the cull. *)
Definition assert_invariants (c : Config) : Res unit :=
  if decide (num_offspring c + 2 <= tournament_size c) then inr tt else inl Panic.

(** ** [struct Genome] *)

(** [Fitness = usize]. *)
Definition Fitness := nat.

Record Genome := mkGenome { genes : list ascii; fitness : option Fitness }.

#[export] Instance Genome_eq_dec : EqDecision Genome.
Proof. solve_decision. Defined.

Section GenomeOps.
Context `{Rng R}.

(** [Genome::new]: [len] draws of [Alphanumeric]. *)
Fixpoint alphanumeric_string (len : nat) (r : R) : list ascii * R :=
  match len with
  | O => ([], r)
  | S n => let '(c, r1) := sample_alphanumeric r in
           let '(s, r2) := alphanumeric_string n r1 in (c :: s, r2)
  end.

Definition Genome_new (len : nat) (r : R) : Genome * R :=
  let '(s, r') := alphanumeric_string len r in (mkGenome s None, r').

(** [Genome::len]: the byte length of the string. *)
Definition len (g : Genome) : nat := length (genes g).

(** [str::is_char_boundary]: the ends, or a byte that is not a UTF-8
    continuation byte ([0x80..=0xBF]). *)
Definition is_char_boundary (s : list ascii) (i : nat) : bool :=
  match s !! i with
  | None => bool_decide (i = length s)
  | Some c => negb ((128 <=? N_of_ascii c) && (N_of_ascii c <=? 191))%N
  end.

(** [str::split_at], which panics off a character boundary. *)
Definition split_at (s : list ascii) (mid : nat) : Res (list ascii * list ascii) :=
  if is_char_boundary s mid then inr (take mid s, drop mid s) else inl Panic.

(** [Genotype::crossover]: split points [rng.gen::<usize>() % len]
    in each parent (a remainder by zero panics), children [m1 ++ f2]
    and [m2 ++ f1] with no fitness. *)
Definition crossover (self mate : Genome) (r : R) : Res (list Genome * R) :=
  let '(a, r1) := gen_usize r in
  if decide (len self = 0) then inl Panic else
  let split_m := Z.to_nat (a mod Z.of_nat (len self)) in
  let '(b, r2) := gen_usize r1 in
  if decide (len mate = 0) then inl Panic else
  let split_f := Z.to_nat (b mod Z.of_nat (len mate)) in
  let* (m1, m2) := split_at (genes self) split_m in
  let* (f1, f2) := split_at (genes mate) split_f in
  inr ([mkGenome (m1 ++ f2) None; mkGenome (m2 ++ f1) None], r2).

(** The printable ASCII range [0x20..=0x7E] the mutation loop accepts. *)
Definition printable_byte (c : Z) : bool := (32 <=? c)%Z && (c <=? 126)%Z.

(** [let mut c = 0; while c < 0x20 || 0x7E < c { c = rng.gen::<u8>(); }],
    with at most [fuel] iterations. *)
Fixpoint draw_printable (fuel : nat) (r : R) : Res (Z * R) :=
  match fuel with
  | O => inl OutOfFuel
  | S f => let '(c, r') := gen_u8 r in
           if printable_byte c then inr (c, r') else draw_printable f r'
  end.

(** [Genotype::mutate]: position [rng.gen::<usize>() % len], then the
    byte loop, then [bytes[i] = c].  The memoised fitness is kept. *)
Definition mutate (fuel : nat) (g : Genome) (r : R) : Res (Genome * R) :=
  let '(x, r1) := gen_usize r in
  if decide (len g = 0) then inl Panic else
  let i := Z.to_nat (x mod Z.of_nat (len g)) in
  let* (c, r2) := draw_printable fuel r1 in
  inr (mkGenome (<[i := ascii_of_N (Z.to_N c)]> (genes g)) (fitness g), r2).

(** The loop of [Genome::mate]: each child is mutated when a
    [gen::<f32>()] draw falls below [mut_rate]. *)
Fixpoint mutate_children (fuel : nat) (rate : Q) (kids : list Genome) (r : R)
    : Res (list Genome * R) :=
  match kids with
  | [] => inr ([], r)
  | k :: ks =>
      let '(p, r1) := gen_f32 r in
      let* (k', r2) := if Qlt_le_dec p rate then mutate fuel k r1 else inr (k, r1) in
      let* (ks', r3) := mutate_children fuel rate ks r2 in
      inr (k' :: ks', r3)
  end.

(** [Genome::mate]. *)
Definition mate (fuel : nat) (self other : Genome) (params : Config) (r : R)
    : Res (list Genome * R) :=
  let* (offspring, r1) := crossover self other r in
  mutate_children fuel (mut_rate params) offspring r1.

End GenomeOps.

(** A configuration of the shape [main] builds (population
    [tournament_size + 2], genomes of length 2, window 2), used by the
    witnesses. *)
Definition demo_config (target : string) (mut : Q) (ts no : nat) : Config :=
  mkConfig mut 2 (ts + 2) ts no (String.list_ascii_of_string target) (mkObserverConfig 2).

(** [Genome::fitter_than]: strictly lower fitness, both known. *)
Definition fitter_than (self other : Genome) : bool :=
  match fitness self, fitness other with
  | Some a, Some b => a <? b
  | _, _ => false
  end.

(** [ScoreMut::score_mut]: compute the distance to the target once. *)
Definition score_mut (g : Genome) (params : Config) : Genome * Fitness :=
  match fitness g with
  | Some f => (g, f)
  | None => let f := levenshtein (genes g) (target params) in (mkGenome (genes g) (Some f), f)
  end.

(** ** Well-formed genomes *)

Definition printable (c : ascii) : bool := printable_byte (Z.of_N (N_of_ascii c)).

(** Non-empty (crossover and mutation divide by the length) and
    printable ASCII (every index is a character boundary). *)
Definition genome_wf (g : Genome) : Prop :=
  len g <> 0 /\ Forall (fun c => printable c = true) (genes g).

#[export] Instance genome_wf_dec g : Decision (genome_wf g).
Proof. unfold genome_wf. apply _. Defined.

(** ** Lemmas *)

Lemma mod_index_lt (x : Z) (n : nat) : n <> 0 -> Z.to_nat (x mod Z.of_nat n) < n.
Proof. intros Hn. pose proof (Z.mod_pos_bound x (Z.of_nat n) ltac:(lia)). lia. Qed.

Lemma split_at_inr s m x y :
  split_at s m = inr (x, y) -> x = take m s /\ y = drop m s.
Proof. unfold split_at. case_match; [by intros [= <- <-]|done]. Qed.

Lemma printable_not_continuation c : printable c = true -> (N_of_ascii c < 128)%N.
Proof.
  unfold printable, printable_byte. intros Hp. apply andb_true_iff in Hp as [_ Hp].
  apply Z.leb_le in Hp. lia.
Qed.

(** Every index of a printable ASCII string is a character boundary. *)
Lemma printable_char_boundary s i :
  Forall (fun c => printable c = true) s -> i <= length s -> is_char_boundary s i = true.
Proof.
  intros Hs Hi. unfold is_char_boundary. destruct (s !! i) as [c|] eqn:Hc.
  - apply (Forall_lookup_1 _ _ _ _ Hs), printable_not_continuation in Hc.
    destruct (N.leb_spec 128 (N_of_ascii c)); [lia|done].
  - apply lookup_ge_None in Hc. apply bool_decide_eq_true. lia.
Qed.

Lemma printable_ascii_of_byte c : printable_byte c = true -> printable (ascii_of_N (Z.to_N c)) = true.
Proof.
  unfold printable. intros Hc. rewrite N_ascii_embedding.
  - rewrite Z2N.id; [done|]. unfold printable_byte in Hc. apply andb_true_iff in Hc as [Hc _].
    apply Z.leb_le in Hc. lia.
  - unfold printable_byte in Hc. apply andb_true_iff in Hc as [Hc1 Hc2].
    apply Z.leb_le in Hc1, Hc2. lia.
Qed.

Lemma alphanumeric_printable c : is_alphanumeric c = true -> printable c = true.
Proof.
  unfold is_alphanumeric, printable, printable_byte. intros Hc.
  repeat (apply orb_true_iff in Hc as [Hc|Hc]); apply andb_true_iff in Hc as [H1 H2];
    apply N.leb_le in H1, H2; apply andb_true_iff; split; apply Z.leb_le; lia.
Qed.

Section GenomeLemmas.
Context `{Rng R}.

Lemma draw_printable_inr fuel (r : R) c r' :
  draw_printable fuel r = inr (c, r') -> printable_byte c = true.
Proof.
  revert r. induction fuel as [|f IH]; intros r; simpl; [done|].
  destruct (gen_u8 r) as [x r1]. case_match; [by intros [= <- _]|apply IH].
Qed.

Lemma draw_printable_inl fuel (r : R) e : draw_printable fuel r = inl e -> e = OutOfFuel.
Proof.
  revert r. induction fuel as [|f IH]; intros r; simpl; [by intros [= <-]|].
  destruct (gen_u8 r) as [x r1]. case_match; [done|apply IH].
Qed.

Lemma draw_printable_returns fuel (r : R) :
  (exists c, c ∈ u8_stream fuel r /\ printable_byte c = true) ->
  exists c r', draw_printable fuel r = inr (c, r').
Proof.
  revert r. induction fuel as [|f IH]; intros r; simpl.
  - intros (c & Hc & _). by apply not_elem_of_nil in Hc.
  - destruct (gen_u8 r) as [x r1]. intros (c & [->|Hc]%elem_of_cons & Hp).
    + rewrite Hp. eauto.
    + case_match; eauto.
Qed.

(** What mutation may change: neither the length, nor the memoised
    fitness, nor printability. *)
Definition mutated (k k' : Genome) : Prop :=
  len k' = len k /\ fitness k' = fitness k /\
  (Forall (fun c => printable c = true) (genes k) -> Forall (fun c => printable c = true) (genes k')).

Lemma mutated_refl k : mutated k k.
Proof. unfold mutated. auto. Qed.

Lemma mutated_wf k k' : mutated k k' -> genome_wf k -> genome_wf k'.
Proof. intros (Hl & _ & Hp) [Hn Hk]. split; [congruence|auto]. Qed.

Lemma mutate_inr fuel g (r : R) g' r' : mutate fuel g r = inr (g', r') -> mutated g g'.
Proof.
  unfold mutate. destruct (gen_usize r) as [x r1]. case_decide; [done|].
  destruct (draw_printable fuel r1) as [e|[c r2]] eqn:Hd; simpl; [done|].
  intros [= <- _]. apply draw_printable_inr in Hd.
  unfold mutated, len; simpl. rewrite length_insert. split_and!; [done|done|].
  intros Hp. apply Forall_insert; [done|]. by apply printable_ascii_of_byte.
Qed.

Lemma mutate_children_inr fuel rate ks (r : R) ks' r' :
  mutate_children fuel rate ks r = inr (ks', r') -> Forall2 mutated ks ks'.
Proof.
  revert r ks' r'. induction ks as [|k ks IH]; intros r ks' r'; simpl.
  - intros [= <- _]. constructor.
  - destruct (gen_f32 r) as [p r1].
    destruct (if Qlt_le_dec p rate then mutate fuel k r1 else inr (k, r1))
      as [e|[k' r2]] eqn:Hk; simpl; [done|].
    destruct (mutate_children fuel rate ks r2) as [e|[ks2 r3]] eqn:Hks; simpl; [done|].
    intros [= <- _]. constructor; [|by eapply IH].
    destruct (Qlt_le_dec p rate); [by eapply mutate_inr|].
    injection Hk as <-. apply mutated_refl.
Qed.

Lemma crossover_inr (a b : Genome) (r : R) kids r' :
  crossover a b r = inr (kids, r') ->
  exists m f, m < len a /\ f < len b /\
    kids = [mkGenome (take m (genes a) ++ drop f (genes b)) None;
            mkGenome (drop m (genes a) ++ take f (genes b)) None].
Proof.
  unfold crossover. destruct (gen_usize r) as [x r1]. case_decide as Ha; [done|].
  destruct (gen_usize r1) as [y r2]. case_decide as Hb; [done|].
  destruct (split_at (genes a) _) as [e|[m1 m2]] eqn:Hm; simpl; [done|].
  destruct (split_at (genes b) _) as [e|[f1 f2]] eqn:Hf; simpl; [done|].
  apply split_at_inr in Hm as [-> ->], Hf as [-> ->]. intros [= <- _].
  eexists _, _. split_and!; [apply mod_index_lt; done|apply mod_index_lt; done|done].
Qed.

End GenomeLemmas.

Section GenomeLemmas2.
Context `{Rng R}.

Lemma crossover_kids_wf (a b : Genome) (r : R) kids r' :
  crossover a b r = inr (kids, r') ->
  Forall (fun c => printable c = true) (genes a) ->
  Forall (fun c => printable c = true) (genes b) ->
  Forall genome_wf kids /\ Forall (fun k => fitness k = None) kids.
Proof.
  intros (m & f & Hm & Hf & ->)%crossover_inr Ha Hb. unfold genome_wf, len in *.
  split; repeat constructor; simpl; rewrite ?length_app, ?length_take, ?length_drop;
    try lia; apply Forall_app; split; by apply Forall_take || by apply Forall_drop.
Qed.

Lemma crossover_succeeds (a b : Genome) (r : R) :
  genome_wf a -> genome_wf b -> exists kids r', crossover a b r = inr (kids, r').
Proof.
  intros [Ha Hpa] [Hb Hpb]. unfold crossover.
  destruct (gen_usize r) as [x r1]. rewrite decide_False by done.
  destruct (gen_usize r1) as [y r2]. rewrite decide_False by done.
  unfold split_at. rewrite !printable_char_boundary by
    (done || (pose proof (mod_index_lt x _ Ha); pose proof (mod_index_lt y _ Hb); unfold len in *; lia)).
  simpl. eauto.
Qed.

End GenomeLemmas2.

Section MateLemmas.
Context `{Rng R}.

Lemma mate_inr fuel (a b : Genome) (params : Config) (r : R) kids r' :
  mate fuel a b params r = inr (kids, r') ->
  exists kids0 r1, crossover a b r = inr (kids0, r1) /\ Forall2 mutated kids0 kids /\
    length kids = 2 /\ Forall (fun k => fitness k = None) kids.
Proof.
  unfold mate. destruct (crossover a b r) as [e|[kids0 r1]] eqn:Hc; simpl; [done|].
  intros Hm%mutate_children_inr. exists kids0, r1. split_and!; [done|done| |].
  - rewrite <- (Forall2_length _ _ _ Hm). by apply crossover_inr in Hc as (m & f & _ & _ & ->).
  - apply crossover_inr in Hc as (m & f & _ & _ & ->).
    eapply Forall2_Forall_r; [apply Hm|]. repeat constructor; intros k' (_ & -> & _); done.
Qed.

(** Every generator state yields a printable byte within [fuel] draws. *)
Definition fair_bytes (fuel : nat) : Prop :=
  forall r : R, exists c, c ∈ u8_stream fuel r /\ printable_byte c = true.

Lemma mutate_children_succeeds fuel rate (ks : list Genome) (r : R) :
  fair_bytes fuel -> Forall genome_wf ks ->
  exists ks' r', mutate_children fuel rate ks r = inr (ks', r').
Proof.
  intros Hfair. revert r. induction ks as [|k ks IH]; intros r Hks; simpl; [eauto|].
  apply Forall_cons in Hks as [Hk Hks]. destruct (gen_f32 r) as [p r1].
  assert (exists k' r2, (if Qlt_le_dec p rate then mutate fuel k r1 else inr (k, r1)) = inr (k', r2))
    as (k' & r2 & ->).
  { destruct (Qlt_le_dec p rate); [|eauto]. unfold mutate.
    destruct (gen_usize r1) as [x r1']. rewrite decide_False by apply Hk.
    destruct (draw_printable_returns fuel r1' (Hfair r1')) as (c & r2 & ->). simpl. eauto. }
  simpl. destruct (IH r2 Hks) as (ks' & r3 & ->). simpl. eauto.
Qed.

Lemma mate_succeeds fuel (a b : Genome) (params : Config) (r : R) :
  fair_bytes fuel -> genome_wf a -> genome_wf b ->
  exists kids r', mate fuel a b params r = inr (kids, r').
Proof.
  intros Hfair Ha Hb. destruct (crossover_succeeds a b r Ha Hb) as (kids & r1 & Hc).
  destruct (crossover_kids_wf _ _ _ _ _ Hc (proj2 Ha) (proj2 Hb)) as [Hwf _].
  unfold mate. rewrite Hc. simpl. by apply mutate_children_succeeds.
Qed.

Lemma mate_kids_wf fuel (a b : Genome) (params : Config) (r : R) kids r' :
  genome_wf a -> genome_wf b -> mate fuel a b params r = inr (kids, r') ->
  Forall genome_wf kids.
Proof.
  intros Ha Hb (kids0 & r1 & Hc & Hm & _)%mate_inr.
  destruct (crossover_kids_wf _ _ _ _ _ Hc (proj2 Ha) (proj2 Hb)) as [Hwf _].
  eapply Forall2_Forall_r; [apply Hm|]. eapply Forall_impl; [apply Hwf|].
  intros k Hk k' Hkk'. by eapply mutated_wf.
Qed.

End MateLemmas.

(** ** Theorems *)

Section GenomeTheorems.
Context `{Rng R}.

(** C13: Crossover conserves total length: it yields exactly two
    children whose lengths add up to the parents' lengths. *)
Theorem crossover_total_length (a b : Genome) (r : R) kids r' :
  crossover a b r = inr (kids, r') ->
  length kids = 2 /\ sum_list (len <$> kids) = len a + len b.
Proof.
  intros (m & f & Hm & Hf & ->)%crossover_inr. unfold len in *. simpl.
  rewrite !length_app, !length_take, !length_drop. lia.
Qed.

(** Crossover of two non-empty printable genomes never panics, and
    its children are again non-empty, printable and unscored. *)
Theorem crossover_safe (a b : Genome) (r : R) :
  genome_wf a -> genome_wf b ->
  exists kids r', crossover a b r = inr (kids, r') /\
    Forall genome_wf kids /\ Forall (fun k => fitness k = None) kids.
Proof.
  intros Ha Hb. destruct (crossover_succeeds a b r Ha Hb) as (kids & r' & Hc).
  exists kids, r'. split; [done|]. eapply crossover_kids_wf; [done|apply Ha|apply Hb].
Qed.

(** C39: Crossover with an empty parent panics ([% 0]): a population
    built with [init_len = 0] crashes at its first mating. *)
Theorem crossover_empty_panics (a b : Genome) (r : R) :
  len a = 0 \/ len b = 0 -> crossover a b r = inl Panic.
Proof.
  intros Hab. unfold crossover. destruct (gen_usize r) as [x r1].
  case_decide; [done|]. destruct (gen_usize r1) as [y r2].
  case_decide; [done|]. lia.
Qed.

(** Mutation keeps a genome non-empty and printable, keeps its
    length, and keeps its memoised fitness. *)
Theorem mutate_preserves_wf fuel (g : Genome) (r : R) g' r' :
  genome_wf g -> mutate fuel g r = inr (g', r') ->
  genome_wf g' /\ len g' = len g /\ fitness g' = fitness g.
Proof.
  intros Hg Hm. pose proof (mutate_inr _ _ _ _ _ Hm) as Hmut.
  split; [by eapply mutated_wf|]. destruct Hmut as (Hl & Hf & _). done.
Qed.

(** The mutation loop returns as soon as the generator's byte
    stream holds a printable byte within [fuel] draws; it can only fail
    by panicking on an empty genome or by running out of draws. *)
Theorem mutate_returns fuel (g : Genome) (r : R) :
  len g <> 0 ->
  (exists c, c ∈ u8_stream fuel (gen_usize r).2 /\ printable_byte c = true) ->
  exists g' r', mutate fuel g r = inr (g', r').
Proof.
  intros Hg Hs. unfold mutate. destruct (gen_usize r) as [x r1]. simpl in Hs.
  rewrite decide_False by done.
  destruct (draw_printable_returns fuel r1 Hs) as (c & r2 & ->). simpl. eauto.
Qed.

(** C25: Mating always yields exactly two children, whatever
    [num_offspring] says, and they are well formed and unscored. *)
Theorem mate_two_children fuel (a b : Genome) (params : Config) (r : R) kids r' :
  genome_wf a -> genome_wf b -> mate fuel a b params r = inr (kids, r') ->
  length kids = 2 /\ Forall genome_wf kids /\ Forall (fun k => fitness k = None) kids.
Proof.
  intros Ha Hb Hm. pose proof (mate_kids_wf _ _ _ _ _ _ _ Ha Hb Hm).
  apply mate_inr in Hm as (_ & _ & _ & _ & Hlen & Hfit). done.
Qed.

End GenomeTheorems.

(** ** Witnesses *)

Lemma crossover_total_length_witness :
  let a := mkGenome (String.list_ascii_of_string "HELLO") None in
  let b := mkGenome (String.list_ascii_of_string "WORLD") None in
  let kids := [mkGenome (String.list_ascii_of_string "HED") None;
               mkGenome (String.list_ascii_of_string "LLOWORL") None] in
  length kids = 2 /\ sum_list (len <$> kids) = len a + len b.
Proof.
  intros a b kids. apply (crossover_total_length (R:=Tape) a b [2%Z; 4%Z] kids []).
  vm_compute. reflexivity.
Defined.

Lemma crossover_safe_witness :
  exists kids r', crossover (mkGenome (String.list_ascii_of_string "AB") None)
                            (mkGenome (String.list_ascii_of_string "CD") (Some 2)) ([] : Tape) = inr (kids, r') /\
    Forall genome_wf kids /\ Forall (fun k => fitness k = None) kids.
Proof.
  apply crossover_safe; apply (bool_decide_unpack _); vm_compute; exact I.
Defined.

Lemma crossover_empty_panics_witness :
  crossover (mkGenome [] None) (mkGenome (String.list_ascii_of_string "CD") None) ([] : Tape) = inl Panic.
Proof. apply crossover_empty_panics. left. reflexivity. Defined.

Lemma mutate_preserves_wf_witness :
  let g := mkGenome (String.list_ascii_of_string "HELLO") (Some 3) in
  let g' := mkGenome (String.list_ascii_of_string "HEL O") (Some 3) in
  genome_wf g' /\ len g' = len g /\ fitness g' = fitness g.
Proof.
  intros g g'. apply (mutate_preserves_wf (R:=Tape) 2 g [3%Z; 7%Z; 32%Z] g' []).
  - apply (bool_decide_unpack _). vm_compute. exact I.
  - vm_compute. reflexivity.
Defined.

Lemma mutate_returns_witness :
  exists g' r', mutate 2 (mkGenome (String.list_ascii_of_string "HELLO") None) [3%Z; 7%Z; 32%Z] = inr (g', r').
Proof.
  apply mutate_returns; [discriminate|]. exists 32%Z. split; [|reflexivity].
  vm_compute. right. left.
Defined.

Lemma mate_two_children_witness :
  let a := mkGenome (String.list_ascii_of_string "HELLO") None in
  let b := mkGenome (String.list_ascii_of_string "WORLD") None in
  let kids := [mkGenome (String.list_ascii_of_string "HED") None;
               mkGenome (String.list_ascii_of_string "LLOWORL") None] in
  length kids = 2 /\ Forall genome_wf kids /\ Forall (fun k => fitness k = None) kids.
Proof.
  intros a b kids. apply (mate_two_children (R:=Tape) 1 a b (demo_config "HELLO" 0 4 2) [2%Z; 4%Z] kids []).
  - apply (bool_decide_unpack _). vm_compute. exact I.
  - apply (bool_decide_unpack _). vm_compute. exact I.
  - vm_compute. reflexivity.
Defined.
