(* ===== verification/EvalThread.v ===== *)
(** * The evaluator thread of the string search ([src/examples/hello_world.rs],
    lines 283-319)

    [Evaluator::spawn] starts a worker thread that receives genomes on
    one channel, scores the unscored ones by their edit distance to
    the target, and sends them back on a second channel.
    [Evaluator::evaluate] sends one genome and blocks on the reply.
    The model is the two actors and the two FIFO channels as a state
    with a step relation: the caller's program counter, the request
    and response queues, and whether the worker is alive.  The worker's
    [for genome in our_rx] only ends once every sender of its request
    channel is dropped, and the [Evaluator] owns that sender ([tx]) for
    as long as a call of [evaluate(&self)] borrows it: no step ends the
    worker during a call.  A dead worker is a state a call may start
    from, and there the two [expect]s panic.  The theorems show that a
    caller that gets a reply gets exactly the worker's score of what it
    sent (the round trip refines the pure function [eval_genome], used
    by [Epoch.v]), that the reply is reachable, that a call on a live
    worker never panics and never gets stuck before it returns, and
    that a call on a dead worker panics instead of returning a made-up
    genome. *)

From S2P Require Import Prelude Levenshtein Genome.
From Stdlib Require Import Ascii.

(** The worker's loop body: [if genome.fitness.is_none() { ... }]. *)
Definition eval_genome (target : list ascii) (g : Genome) : Genome :=
  match fitness g with
  | None => mkGenome (genes g) (Some (levenshtein (genes g) target))
  | Some _ => g
  end.

(** Where [Evaluator::evaluate] is: about to [send], blocked in
    [recv], returned with a genome, or panicked ([expect]). *)
Inductive MainPC :=
  | ToSend (g : Genome)
  | Waiting
  | Got (g : Genome)
  | Panicked.

Record EvalSys := mkEvalSys {
  main : MainPC;
  req : list Genome;
  resp : list Genome;
  worker_alive : bool
}.

Section EvalThread.
Context (target : list ascii).

Inductive eval_step : EvalSys -> EvalSys -> Prop :=
  (** [self.tx.send(genome).expect("tx failure")] *)
  | step_send g rq rs :
      eval_step (mkEvalSys (ToSend g) rq rs true) (mkEvalSys Waiting (rq ++ [g]) rs true)
  | step_send_fail g rq rs :
      eval_step (mkEvalSys (ToSend g) rq rs false) (mkEvalSys Panicked rq rs false)
  (** one iteration of [for mut genome in our_rx { ...; our_tx.send(genome) }] *)
  | step_worker m g rq rs :
      eval_step (mkEvalSys m (g :: rq) rs true)
                (mkEvalSys m rq (rs ++ [eval_genome target g]) true)
  (** [self.rx.recv().expect("rx failure")] *)
  | step_recv g rq rs a :
      eval_step (mkEvalSys Waiting rq (g :: rs) a) (mkEvalSys (Got g) rq rs a)
  | step_recv_fail rq :
      eval_step (mkEvalSys Waiting rq [] false) (mkEvalSys Panicked rq [] false).

(** A call of [evaluate(g)] on idle channels. *)
Definition eval_init (g : Genome) : EvalSys := mkEvalSys (ToSend g) [] [] true.

(** The states a call of [evaluate(g)] passes through: the worker stays
    alive, and the genome is in exactly one place. *)
Definition eval_inv (g : Genome) (s : EvalSys) : Prop :=
  worker_alive s = true /\
  ((main s = ToSend g /\ req s = [] /\ resp s = []) \/
   (main s = Waiting /\ req s = [g] /\ resp s = []) \/
   (main s = Waiting /\ req s = [] /\ resp s = [eval_genome target g]) \/
   (main s = Got (eval_genome target g) /\ req s = [] /\ resp s = [])).

Lemma eval_inv_step g s s' : eval_inv g s -> eval_step s s' -> eval_inv g s'.
Proof.
  unfold eval_inv. intros Hinv Hst.
  destruct Hst; simpl in *; naive_solver.
Qed.

(** A call on a dead worker stays before its [send] or panics. *)
Lemma eval_dead_step g s s' :
  (main s = ToSend g /\ worker_alive s = false) \/ main s = Panicked ->
  eval_step s s' -> (main s' = ToSend g /\ worker_alive s' = false) \/ main s' = Panicked.
Proof. intros Hs Hst. destruct Hst; simpl in *; naive_solver. Qed.

Lemma eval_inv_reachable g s : star eval_step (eval_init g) s -> eval_inv g s.
Proof.
  apply star_invariant; [apply eval_inv_step|]. unfold eval_inv. simpl. auto.
Qed.

(** A live state of a call that has not returned has a step. *)
Lemma eval_inv_progress g s :
  eval_inv g s -> main s = Got (eval_genome target g) \/ exists s', eval_step s s'.
Proof.
  destruct s as [m rq rs a]. unfold eval_inv; simpl.
  intros [-> Hs]. destruct_or! Hs; destruct_and! Hs; subst; [right..|left; done];
    eexists; constructor.
Qed.

End EvalThread.

(** [Evaluator::evaluate] as the caller sees it. *)
Definition evaluate (target : list ascii) (g : Genome) : Genome := eval_genome target g.

Section EvalThreadTheorems.
Context (target : list ascii).

(** C2: Refinement: whatever the interleaving of the caller and the
    worker thread, a call of [evaluate(g)] that returns a genome
    returns the worker's score of [g], never a fabricated one. *)
Theorem evaluate_refines (g : Genome) (s : EvalSys) (g' : Genome) :
  star (eval_step target) (eval_init g) s -> main s = Got g' ->
  g' = evaluate target g.
Proof.
  intros Hs Hm. apply eval_inv_reachable in Hs. destruct Hs as [_ Hs].
  rewrite Hm in Hs. unfold evaluate. naive_solver.
Qed.

(** C29: Liveness: while the worker lives, the round trip completes,
    leaving both channels empty for the next call. *)
Theorem evaluate_completes (g : Genome) :
  star (eval_step target) (eval_init g) (mkEvalSys (Got (evaluate target g)) [] [] true).
Proof.
  eapply star_step; [apply step_send|]. simpl.
  eapply star_step; [apply step_worker|]. simpl.
  eapply star_step; [apply step_recv|]. apply star_refl.
Qed.

(** C9: No deadlock and no panic: in every state of a call of
    [evaluate(g)] on a live worker, whatever the interleaving, neither
    [expect] has fired and the call has either returned the worker's
    score of [g] or can take a step. *)
Theorem evaluate_no_deadlock (g : Genome) (s : EvalSys) :
  star (eval_step target) (eval_init g) s ->
  main s <> Panicked /\ (main s = Got (evaluate target g) \/ exists s', eval_step target s s').
Proof.
  intros Hs. apply eval_inv_reachable in Hs. split; [|by apply eval_inv_progress].
  destruct Hs as [_ Hs]. intros Hm. rewrite Hm in Hs. naive_solver.
Qed.

(** A call of [evaluate(g)] on a dead worker never returns: it panics
    in [self.tx.send(genome).expect("tx failure")]. *)
Lemma evaluate_dead_worker (g : Genome) (s : EvalSys) :
  star (eval_step target) (mkEvalSys (ToSend g) [] [] false) s ->
  (forall g', main s <> Got g') /\
  star (eval_step target) (mkEvalSys (ToSend g) [] [] false) (mkEvalSys Panicked [] [] false).
Proof.
  intros Hs. split.
  - apply (star_invariant _ (fun s => (main s = ToSend g /\ worker_alive s = false) \/ main s = Panicked))
      in Hs; [|apply eval_dead_step|by left].
    intros g' Hm. rewrite Hm in Hs. naive_solver.
  - apply star_one, step_send_fail.
Qed.

End EvalThreadTheorems.

Lemma evaluate_refines_witness :
  let g := mkGenome (String.list_ascii_of_string "HELLP") None in
  evaluate (String.list_ascii_of_string "HELLO") g = evaluate (String.list_ascii_of_string "HELLO") g.
Proof.
  intros g. apply (evaluate_refines (String.list_ascii_of_string "HELLO") g
    (mkEvalSys (Got (evaluate (String.list_ascii_of_string "HELLO") g)) [] [] true)).
  - apply evaluate_completes.
  - reflexivity.
Defined.

Lemma evaluate_no_deadlock_witness :
  main (mkEvalSys Waiting [mkGenome [] None] [] true) <> Panicked /\
  (main (mkEvalSys Waiting [mkGenome [] None] [] true) = Got (evaluate [] (mkGenome [] None)) \/
   exists s', eval_step [] (mkEvalSys Waiting [mkGenome [] None] [] true) s').
Proof.
  apply (evaluate_no_deadlock [] (mkGenome [] None)).
  eapply star_step; [apply step_send|]. apply star_refl.
Defined.
