(* ===== verification/Observer.v ===== *)
(** * The observer of the string search ([src/examples/hello_world.rs],
    lines 321-398)

    [Observer::spawn] starts a thread that inserts every observed
    genome into a [Window], a ring buffer of [window_size] slots.
    [Window::insert] advances the index modulo the size before writing,
    and reports the average fitness of the frame whenever the index
    wraps to 0.  The observer only logs: it never feeds back into
    selection.  The theorems show that the window never panics once
    built, that the index after [n] insertions is [n mod window_size],
    that a report is emitted exactly on every [window_size]-th
    insertion, and that a report is a NaN only when no genome in the
    frame has a fitness.  The [Observer] struct holds the sending end of
    the channel, seen as the genomes sent so far; [Observer_handle] is
    its thread run over them. *)

From S2P Require Import Prelude Genome.

(** What [Window::report] logs: [sum as f32 / len as f32], a NaN when
    no genome of the frame has a fitness. *)
Inductive Report := Avg (q : Q) | NaN.

(** [Window::report]'s computation on a frame. *)
Definition report_of (frame : list (option Genome)) : Report :=
  let fitnesses := omap (fun t => t ≫= fitness) frame in
  match fitnesses with
  | [] => NaN
  | _ => Avg (inject_Z (Z.of_nat (sum_list fitnesses)) / inject_Z (Z.of_nat (length fitnesses)))%Q
  end.

Module Window.

(** [struct Window]. *)
Record t := mk { frame : list (option Genome); i : nat; window_size : nat }.

(** [Window::new]: [assert!(window_size > 0)]. *)
Definition new (ws : nat) : Res t :=
  if decide (0 < ws) then inr (mk (replicate ws None) 0 ws) else inl Panic.

(** [Window::report]. *)
Definition report (w : t) : Report := report_of (frame w).

(** [Window::insert]: [self.i = (self.i + 1) % self.window_size]
    (a remainder by zero panics), [self.frame[self.i] = Some(thing)]
    (an index out of range panics), and a report when [self.i == 0]. *)
Definition insert (w : t) (thing : Genome) : Res (t * option Report) :=
  if decide (window_size w = 0) then inl Panic else
  let i' := (i w + 1) mod window_size w in
  if decide (i' < length (frame w)) then
    let w' := mk (<[i' := Some thing]> (frame w)) i' (window_size w) in
    inr (w', if decide (i' = 0) then Some (report w') else None)
  else inl Panic.

(** The observer thread: [for observable in rx { window.insert(observable) }],
    collecting the reports in order. *)
Fixpoint observe_all (w : t) (obs : list Genome) : Res (t * list Report) :=
  match obs with
  | [] => inr (w, [])
  | g :: obs' =>
      let* (w1, rep) := insert w g in
      let* (w2, reps) := observe_all w1 obs' in
      inr (w2, match rep with Some x => x :: reps | None => reps end)
  end.

(** The window's shape invariant. *)
Definition wf (w : t) : Prop :=
  0 < window_size w /\ length (frame w) = window_size w /\ i w < window_size w.

End Window.

(** [Observer::spawn]'s thread on the stream of observed genomes. *)
Definition observer_thread (params : Config) (obs : list Genome) : Res (list Report) :=
  let* w := Window.new (window_size (observer params)) in
  let* (_, reps) := Window.observe_all w obs in
  inr reps.

(** [struct Observer]: the configuration its thread was spawned with
    and [tx], the sending end of the channel, as the genomes sent so far
    in order (the channel is unbounded, so the sender never waits). *)
Record Observer := mkObserver { observer_params : Config; tx : list Genome }.

(** [Observer::spawn]: a fresh channel; the thread is [Observer_handle]. *)
Definition Observer_spawn (params : Config) : Observer := mkObserver params [].

(** [Observer::observe]: [self.tx.send(ob)]. *)
Definition Observer_observe (o : Observer) (ob : Genome) : Observer :=
  mkObserver (observer_params o) (tx o ++ [ob]).

(** The spawned thread ([handle]) run over everything sent on [tx]. *)
Definition Observer_handle (o : Observer) : Res (list Report) :=
  observer_thread (observer_params o) (tx o).

(** ** Lemmas *)

Lemma insert_wf (w : Window.t) (g : Genome) :
  Window.wf w ->
  exists w' rep, Window.insert w g = inr (w', rep) /\ Window.wf w' /\
    Window.i w' = (Window.i w + 1) mod Window.window_size w /\
    Window.window_size w' = Window.window_size w /\
    Window.frame w' = <[Window.i w' := Some g]> (Window.frame w) /\
    rep = (if decide (Window.i w' = 0) then Some (Window.report w') else None).
Proof.
  intros (Hpos & Hlen & Hi). unfold Window.insert.
  rewrite decide_False by lia.
  pose proof (Nat.mod_upper_bound (Window.i w + 1) (Window.window_size w) ltac:(lia)).
  rewrite decide_True by lia.
  eexists _, _. split; [done|]. unfold Window.wf. simpl.
  rewrite length_insert. split_and!; try done; lia.
Qed.

Lemma report_of_scored (frame : list (option Genome)) (g : Genome) :
  frame !! 0 = Some (Some g) -> is_Some (fitness g) -> report_of frame <> NaN.
Proof.
  destruct frame as [|t frame]; [done|]. intros [= ->] [f Hf].
  unfold report_of. simpl. rewrite Hf. done.
Qed.

Lemma Observer_observe_all (o : Observer) (obs : list Genome) :
  foldl Observer_observe o obs = mkObserver (observer_params o) (tx o ++ obs).
Proof.
  revert o. induction obs as [|g obs IH]; intros o; simpl.
  - destruct o. by rewrite app_nil_r.
  - rewrite IH. simpl. by rewrite <- app_assoc.
Qed.

(** ** Theorems *)

(** Insertions into a well-formed window never panic; after [n] more
    the index is [(i + n) mod ws] and [(i + n) / ws] reports were made. *)
Lemma observe_all_window (ws : nat) (xs : list Genome) (v : Window.t) :
  Window.wf v -> Window.window_size v = ws ->
  exists v' reps, Window.observe_all v xs = inr (v', reps) /\
    Window.i v' = (Window.i v + length xs) mod ws /\
    length reps = (Window.i v + length xs) / ws.
Proof.
  revert v. induction xs as [|x xs IH]; intros v Hv Hsz.
  - exists v, []. simpl. split; [done|].
    destruct Hv as (_ & _ & Hi). rewrite Nat.add_0_r, Nat.mod_small, Nat.div_small by lia.
    done.
  - destruct (insert_wf v x Hv) as (v1 & rep & Hins & Hv1 & Hi1 & Hsz1 & _ & Hrep).
    destruct (IH v1 Hv1 ltac:(lia)) as (v2 & reps & Hobs & Hi2 & Hlen).
    exists v2, (match rep with Some r => r :: reps | None => reps end).
    simpl. rewrite Hins. simpl. rewrite Hobs. simpl. split; [done|].
    destruct Hv as (_ & _ & Hi). rewrite Hsz in Hi, Hi1.
    destruct (decide (Window.i v + 1 = ws)) as [Heq|Hne].
    + assert (Window.i v1 = 0) as H0 by (rewrite Hi1, Heq; apply Nat.Div0.mod_same).
      rewrite Hrep, decide_True by done. simpl.
      rewrite H0 in Hi2, Hlen. simpl in Hi2, Hlen.
      replace (Window.i v + S (length xs)) with (length xs + 1 * ws) by lia.
      rewrite Nat.div_add, Nat.Div0.mod_add by lia. split; [done|]. lia.
    + assert (Window.i v1 = Window.i v + 1) as H1 by (rewrite Hi1; apply Nat.mod_small; lia).
      rewrite Hrep, decide_False by lia.
      rewrite H1 in Hi2, Hlen. replace (Window.i v + S (length xs)) with (Window.i v + 1 + length xs) by lia.
      done.
Qed.

Lemma new_wf (ws : nat) (w : Window.t) : Window.new ws = inr w -> Window.wf w /\ Window.window_size w = ws /\ Window.i w = 0.
Proof.
  unfold Window.new. case_decide; [|done]. intros [= <-].
  unfold Window.wf. simpl. rewrite length_replicate. split_and!; lia.
Qed.

(** C15: A window built by [Window::new] never panics on insertion, its
    index after [n] insertions is [n mod window_size], and it reports
    exactly [n / window_size] times: once per [window_size]
    insertions. *)
Theorem observe_all_reports (ws : nat) (w : Window.t) (xs : list Genome) :
  Window.new ws = inr w ->
  exists w' reps, Window.observe_all w xs = inr (w', reps) /\
    Window.i w' = length xs mod ws /\ length reps = length xs / ws.
Proof.
  intros (Hwf & Hsz & Hi)%new_wf.
  destruct (observe_all_window ws xs w Hwf Hsz) as (w' & reps & Hobs & Hi' & Hl).
  rewrite Hi in Hi', Hl. by exists w', reps.
Qed.

(** When every observed genome carries a fitness (as the scored
    combatants of [evolve] do), the observer never reports a NaN. *)
Theorem observe_all_no_nan (w : Window.t) (xs : list Genome) w' reps :
  Window.wf w -> Forall (fun g => is_Some (fitness g)) xs ->
  Window.observe_all w xs = inr (w', reps) -> NaN ∉ reps.
Proof.
  revert w w' reps. induction xs as [|x xs IH]; intros w w' reps Hw Hxs; simpl.
  - intros [= _ <-]. apply not_elem_of_nil.
  - apply Forall_cons in Hxs as [Hx Hxs].
    destruct (insert_wf w x Hw) as (w1 & rep & -> & Hw1 & _ & _ & Hfr & ->). simpl.
    destruct (Window.observe_all w1 xs) as [e|[w2 reps2]] eqn:Hobs; simpl; [done|].
    intros [= -> <-]. specialize (IH w1 w' reps2 Hw1 Hxs Hobs).
    case_decide as H0; [|done]. apply not_elem_of_cons. split; [|done].
    intros Hnan. symmetry in Hnan. revert Hnan. unfold Window.report.
    apply (report_of_scored _ x); [|done]. rewrite Hfr, H0.
    apply list_lookup_insert_eq. destruct Hw as (Hpos & Hlen & _). lia.
Qed.

(** ** Witnesses *)

Lemma observe_all_reports_witness :
  let g := mkGenome (String.list_ascii_of_string "HI") (Some 1) in
  exists w' reps, Window.observe_all (Window.mk [None; None] 0 2) [g; g; g] = inr (w', reps) /\
    Window.i w' = length [g; g; g] mod 2 /\ length reps = length [g; g; g] / 2.
Proof. intros g. apply (observe_all_reports 2). reflexivity. Defined.

Lemma observe_all_no_nan_witness :
  let g := mkGenome (String.list_ascii_of_string "HI") (Some 1) in
  exists w' reps, Window.observe_all (Window.mk [None; None] 0 2) [g; g; g] = inr (w', reps) /\
    NaN ∉ reps.
Proof.
  intros g. destruct (Window.observe_all (Window.mk [None; None] 0 2) [g; g; g])
    as [err|[w' reps]] eqn:Hobs; [vm_compute in Hobs; discriminate|].
  exists w', reps. split; [done|]. apply (observe_all_no_nan (Window.mk [None; None] 0 2) [g; g; g] w' reps).
  - unfold Window.wf. simpl. split_and!; lia.
  - repeat constructor; eexists; reflexivity.
  - exact Hobs.
Defined.
