(* ===== verification/Epoch.v ===== *)
(** * Tournament selection ([src/examples/hello_world.rs], lines 125-281)

    An [Epoch] owns the population and the best genome so far.
    [evolve] shuffles the population, pops [tournament_size]
    combatants off its end (scoring each through the evaluator thread
    and sending it to the observer), sorts them by fitness, updates
    the best, pops [num_offspring] losers, pushes the next
    [tournament_size - (num_offspring + 2)] back as bystanders, mates
    the last two, and pushes parents and children back.  [run] calls
    [evolve] until the best genome has fitness 0.

    The theorems show what one generation does to the population (its
    size changes by [2 - num_offspring], every genome stays non-empty
    and printable, every recorded fitness is the true distance), that
    the best fitness never gets worse, that a configuration violating
    [tournament_size >= num_offspring + 2] or a population smaller
    than a tournament makes [evolve] panic, that [run] only returns a
    genome that spells the target, and that [evolve] returns for a
    generator whose bytes are eventually printable. *)

From S2P Require Import Prelude Rng Levenshtein Genome EvalThread.
From Stdlib Require Import Ascii.

(** [struct Epoch]. *)
Record Epoch := mkEpoch {
  population : list Genome;
  config : Config;
  best : option Genome;
  iteration : nat
}.

(** [Ordering] of [Option<Fitness>]: [None] first, then by value. *)
Definition fitness_le (a b : Genome) : Prop :=
  match fitness a, fitness b with
  | None, _ => True
  | Some _, None => False
  | Some x, Some y => x <= y
  end.

#[export] Instance fitness_le_dec : RelDecision fitness_le.
Proof.
  intros a b. unfold fitness_le. destruct (fitness a), (fitness b); apply _.
Defined.

(** [Epoch::update_best]. *)
Definition update_best (e : Epoch) (champ : Genome) : Epoch :=
  match best e with
  | Some b => if fitter_than champ b then mkEpoch (population e) (config e) (Some champ) (iteration e)
              else e
  | None => mkEpoch (population e) (config e) (Some champ) (iteration e)
  end.

(** The drawing loop of [evolve]: [tournament_size] times, pop a
    combatant off the end of the population, score it with
    [evaluator.evaluate], observe it and push it; an empty population
    only logs an error. *)
Fixpoint draw_combatants (target : list ascii) (n : nat) (pop combatants : list Genome)
    : list Genome * list Genome :=
  match n with
  | O => (pop, combatants)
  | S n' =>
      match vec_pop pop with
      | Some (c, pop') => draw_combatants target n' pop' (combatants ++ [evaluate target c])
      | None => draw_combatants target n' pop combatants
      end
  end.

(** [for _ in 0..n { let _ = combatants.pop(); }]. *)
Fixpoint cull (n : nat) (combatants : list Genome) : list Genome :=
  match n with
  | O => combatants
  | S n' => match vec_pop combatants with
            | Some (_, cs) => cull n' cs
            | None => cull n' combatants
            end
  end.

(** [for _ in 0..bystanders { if let Some(c) = combatants.pop() { population.push(c) } }]. *)
Fixpoint requeue (n : nat) (combatants pop : list Genome) : list Genome * list Genome :=
  match n with
  | O => (combatants, pop)
  | S n' => match vec_pop combatants with
            | Some (c, cs) => requeue n' cs (pop ++ [c])
            | None => requeue n' combatants pop
            end
  end.

Section Evolve.
Context `{Rng R}.

(** [Epochal::evolve]; also returns the genomes sent to the observer,
    in order. [fuel] bounds the mutation loop. *)
Definition evolve (fuel : nat) (e : Epoch) (r : R) : Res (Epoch * list Genome * R) :=
  let cfg := config e in
  let ts := tournament_size cfg in
  let '(pop0, r1) := shuffle (population e) r in
  let '(pop1, combatants0) := draw_combatants (target cfg) ts pop0 [] in
  let sorted := merge_sort fitness_le combatants0 in
  match sorted !! 0 with
  | None => inl Panic
  | Some champ =>
      let e1 := update_best e champ in
      let culled := cull (num_offspring cfg) sorted in
      if decide (ts < num_offspring cfg + 2) then inl Panic else
      let bystanders := ts - (num_offspring cfg + 2) in
      let '(rest, pop2) := requeue bystanders culled pop1 in
      match vec_pop rest with
      | None => inl Panic
      | Some (mother, rest') =>
          match vec_pop rest' with
          | None => inl Panic
          | Some (father, _) =>
              let* (offspring, r2) := mate fuel mother father cfg r1 in
              inr (mkEpoch (pop2 ++ [mother; father] ++ offspring) cfg (best e1)
                           (S (iteration e)), combatants0, r2)
          end
      end
  end.

(** [Epoch::new]: [pop_size] genomes of [init_len] alphanumeric bytes. *)
Fixpoint new_population (n len : nat) (r : R) : list Genome * R :=
  match n with
  | O => ([], r)
  | S n' => let '(g, r1) := Genome_new len r in
            let '(gs, r2) := new_population n' len r1 in (g :: gs, r2)
  end.

Definition Epoch_new (cfg : Config) (r : R) : Epoch * R :=
  let '(pop, r') := new_population (pop_size cfg) (init_len cfg) r in
  (mkEpoch pop cfg None 0, r').

(** The loop of [run]: evolve, and return the best genome once its
    fitness is 0; [gens] bounds the number of generations. *)
Fixpoint run_loop (gens fuel : nat) (world : Epoch) (r : R) : Res Genome :=
  match gens with
  | O => inl OutOfFuel
  | S g =>
      let* (world_obs, r') := evolve fuel world r in
      let world' := world_obs.1 in
      match best world' with
      | Some champ => if decide (fitness champ = Some 0) then inr champ
                      else run_loop g fuel world' r'
      | None => run_loop g fuel world' r'
      end
  end.

(** [fn run]. *)
Definition run (gens fuel : nat) (cfg : Config) (r : R) : Res Genome :=
  let '(world, r1) := Epoch_new cfg r in run_loop gens fuel world r1.

End Evolve.

(** An unscored population of the given strings under [demo_config]. *)
Definition demo_epoch (ts no : nat) (pop : list string) : Epoch :=
  mkEpoch ((fun s => mkGenome (String.list_ascii_of_string s) None) <$> pop)
          (demo_config "AB" 0 ts no) None 0.

(** ** Lemmas on the phases of [evolve] *)

Lemma draw_combatants_spec target n (pop cs : list Genome) :
  exists drawn, pop = (draw_combatants target n pop cs).1 ++ drawn /\
    length drawn = Nat.min n (length pop) /\
    (draw_combatants target n pop cs).2 = cs ++ (evaluate target <$> reverse drawn).
Proof.
  revert pop cs. induction n as [|n IH]; intros pop cs; simpl.
  - exists []. rewrite app_nil_r. split_and!; [done|done|]. simpl. by rewrite app_nil_r.
  - destruct (vec_pop pop) as [[x pop0]|] eqn:Hp.
    + apply vec_pop_Some in Hp as ->.
      destruct (IH pop0 (cs ++ [evaluate target x])) as (d & Hd & Hlen & Hcs).
      exists (d ++ [x]). rewrite Hcs, reverse_snoc, <- app_assoc. simpl.
      rewrite !length_app, !Nat.add_1_r. simpl.
      split_and!; [by rewrite Hd at 1; rewrite app_assoc|lia|done].
    + apply vec_pop_None in Hp as ->.
      destruct (IH [] cs) as (d & Hd & Hlen & Hcs). exists d. simpl in *. split_and!; [done|lia|done].
Qed.

Lemma cull_spec n (l : list Genome) : cull n l = take (length l - n) l.
Proof.
  revert l. induction n as [|n IH]; intros l; simpl.
  - by rewrite Nat.sub_0_r, take_ge.
  - destruct (vec_pop l) as [[x l0]|] eqn:Hp.
    + apply vec_pop_Some in Hp as ->. rewrite IH, length_app. simpl.
      rewrite take_app_le by lia. f_equal. lia.
    + apply vec_pop_None in Hp as ->. by rewrite IH.
Qed.

Lemma requeue_spec n (cs pop : list Genome) :
  requeue n cs pop = (take (length cs - n) cs, pop ++ reverse (drop (length cs - n) cs)).
Proof.
  revert cs pop. induction n as [|n IH]; intros cs pop; simpl.
  - rewrite Nat.sub_0_r, take_ge, drop_ge by lia. by rewrite reverse_nil, app_nil_r.
  - destruct (vec_pop cs) as [[x cs0]|] eqn:Hp.
    + apply vec_pop_Some in Hp as ->. rewrite IH, length_app. simpl.
      replace (length cs0 + 1 - S n) with (length cs0 - n) by lia.
      rewrite take_app_le, drop_app_le by lia. rewrite reverse_app, <- app_assoc. done.
    + apply vec_pop_None in Hp as ->. rewrite IH. done.
Qed.

(** [update_best] only ever installs the champion, and only when there
    was no best or the champion is strictly fitter. *)
Lemma update_best_cases e champ :
  (best (update_best e champ) = best e /\ population (update_best e champ) = population e) \/
  (best (update_best e champ) = Some champ /\
   (best e = None \/ exists b, best e = Some b /\ fitter_than champ b = true)).
Proof.
  unfold update_best. destruct (best e) as [b|] eqn:Hb.
  - destruct (fitter_than champ b) eqn:Hf; [right; simpl; eauto|by left].
  - right. simpl. auto.
Qed.

#[export] Instance fitness_le_total : Total fitness_le.
Proof. intros a b. unfold fitness_le. destruct (fitness a), (fitness b); lia || auto. Qed.

#[export] Instance fitness_le_trans : Transitive fitness_le.
Proof.
  intros a b c. unfold fitness_le.
  destruct (fitness a), (fitness b), (fitness c); done || lia.
Qed.

Lemma fitness_le_refl g : fitness_le g g.
Proof. unfold fitness_le. destruct (fitness g); done || lia. Qed.

(** The head of a sorted list is below every element. *)
Lemma merge_sort_head_min (l : list Genome) champ :
  merge_sort fitness_le l !! 0 = Some champ -> Forall (fitness_le champ) l.
Proof.
  intros Hc. pose proof (StronglySorted_merge_sort fitness_le l) as Hs.
  rewrite <- (merge_sort_Permutation fitness_le l).
  destruct (merge_sort fitness_le l) as [|x xs]; [done|]. injection Hc as ->.
  apply StronglySorted_inv in Hs as [_ Hall]. constructor; [apply fitness_le_refl|done].
Qed.

Section EvolveLemmas.
Context `{Rng R}.

(** The shape of a generation that returned. *)
Lemma evolve_inr fuel e (r : R) e' obs r' :
  evolve fuel e r = inr (e', obs, r') ->
  exists pop0 r1 keep drawn champ survivors mother father kids,
    shuffle (population e) r = (pop0, r1) /\
    pop0 = keep ++ drawn /\
    length drawn = tournament_size (config e) /\
    obs = evaluate (target (config e)) <$> reverse drawn /\
    merge_sort fitness_le obs !! 0 = Some champ /\
    num_offspring (config e) + 2 <= tournament_size (config e) /\
    survivors ++ [mother; father] = reverse (cull (num_offspring (config e)) (merge_sort fitness_le obs)) /\
    mate fuel mother father (config e) r1 = inr (kids, r') /\
    e' = mkEpoch (keep ++ survivors ++ [mother; father] ++ kids) (config e)
                 (best (update_best e champ)) (S (iteration e)).
Proof.
  unfold evolve. destruct (shuffle (population e) r) as [pop0 r1] eqn:Hsh.
  destruct (draw_combatants_spec (target (config e)) (tournament_size (config e)) pop0 [])
    as (drawn & Hpop & Hlen & Hcs).
  destruct (draw_combatants _ _ pop0 []) as [pop1 cs] eqn:Hdc. simpl in Hpop, Hcs. subst cs.
  set (sorted := merge_sort fitness_le (evaluate (target (config e)) <$> reverse drawn)).
  destruct (sorted !! 0) as [champ|] eqn:Hch; [|done].
  case_decide as Hts; [done|].
  rewrite requeue_spec, cull_spec.
  set (culled := take (length sorted - num_offspring (config e)) sorted).
  set (k := length culled - (tournament_size (config e) - (num_offspring (config e) + 2))).
  destruct (vec_pop (take k culled)) as [[mother rest]|] eqn:Hm; [|done].
  destruct (vec_pop rest) as [[father rest']|] eqn:Hf; [|done].
  destruct (mate fuel mother father (config e) r1) as [err|[kids r2]] eqn:Hmate; simpl; [done|].
  intros [= <- <- <-].
  assert (length sorted = length drawn) as Hls.
  { unfold sorted. by rewrite (merge_sort_Permutation _ _), length_fmap, length_reverse. }
  assert (length drawn = tournament_size (config e)) as Hdrawn.
  { apply vec_pop_Some in Hm, Hf. subst rest.
    assert (length (take k culled) = length rest' + 2) as Hk by (rewrite Hm, !length_app; simpl; lia).
    unfold k, culled in Hk. rewrite !length_take in Hk. lia. }
  apply vec_pop_Some in Hm, Hf. subst rest.
  assert (rest' = []) as ->.
  { assert (length (take k culled) = length rest' + 2) as Hk by (rewrite Hm, !length_app; simpl; lia).
    unfold k, culled in Hk. rewrite !length_take in Hk. destruct rest'; [done|simpl in Hk; lia]. }
  eexists pop0, r1, pop1, drawn, champ, (reverse (drop k culled)), mother, father, kids.
  split_and!; try done; try lia.
  - rewrite cull_spec. fold sorted. fold culled.
    rewrite <- (take_drop k culled) at 2. rewrite reverse_app, Hm. done.
  - by rewrite <- app_assoc.
Qed.

End EvolveLemmas.

(** ** Invariants *)

(** A recorded fitness is the edit distance to the target. *)
Definition scored_ok (tgt : list ascii) (g : Genome) : Prop :=
  forall f, fitness g = Some f -> f = levenshtein (genes g) tgt.

(** Every recorded fitness of the population and of the best genome
    is right, and the best genome has been scored. *)
Definition epoch_scored (e : Epoch) : Prop :=
  Forall (scored_ok (target (config e))) (population e) /\
  forall b, best e = Some b -> scored_ok (target (config e)) b /\ is_Some (fitness b).

Lemma evaluate_genes tgt g : genes (evaluate tgt g) = genes g.
Proof. unfold evaluate, eval_genome. by destruct (fitness g). Qed.

Lemma evaluate_fitness tgt g : is_Some (fitness (evaluate tgt g)).
Proof. unfold evaluate, eval_genome. destruct (fitness g) eqn:Hf; simpl; [rewrite Hf|]; eauto. Qed.

Lemma evaluate_scored tgt g :
  scored_ok tgt g -> scored_ok tgt (evaluate tgt g) /\ is_Some (fitness (evaluate tgt g)).
Proof.
  unfold evaluate, eval_genome, scored_ok. destruct (fitness g) eqn:Hf; simpl.
  - intros Hg. rewrite Hf. split; [exact Hg|done].
  - intros _. split; [|done]. intros f0 Hf0. by injection Hf0 as <-.
Qed.

Lemma evaluate_wf tgt g : genome_wf g -> genome_wf (evaluate tgt g).
Proof. unfold genome_wf, len. by rewrite evaluate_genes. Qed.

(** A property of every combatant holds of the survivors and parents. *)
Lemma survivors_forall (P : Genome -> Prop) n (obs : list Genome) :
  Forall P obs -> Forall P (reverse (cull n (merge_sort fitness_le obs))).
Proof.
  intros Hobs. rewrite cull_spec. apply Forall_reverse, Forall_take.
  by rewrite (merge_sort_Permutation fitness_le obs).
Qed.

(** A property preserved by [evaluate] holds of every combatant. *)
Lemma combatants_forall (P : Genome -> Prop) tgt (keep drawn : list Genome) :
  (forall g, P g -> P (evaluate tgt g)) -> Forall P (keep ++ drawn) ->
  Forall P keep /\ Forall P (evaluate tgt <$> reverse drawn).
Proof.
  intros HP [Hk Hd]%Forall_app. split; [done|].
  apply Forall_fmap, Forall_reverse. eapply Forall_impl; [apply Hd|]. done.
Qed.

(** The champion is one of the combatants. *)
Lemma champ_elem (obs : list Genome) champ :
  merge_sort fitness_le obs !! 0 = Some champ -> champ ∈ obs.
Proof.
  intros Hch. apply list_elem_of_lookup_2 in Hch.
  by rewrite (merge_sort_Permutation fitness_le obs) in Hch.
Qed.

(** [Epoch::new] builds genomes that have not been scored. *)
Lemma new_population_unscored `{Rng R} n ln (r : R) :
  Forall (fun g => fitness g = None) (new_population n ln r).1.
Proof.
  revert r. induction n as [|n IH]; intros r; simpl; [done|].
  destruct (Genome_new ln r) as [g r1] eqn:Hg.
  specialize (IH r1). destruct (new_population n ln r1) as [gs r2]. simpl in *.
  constructor; [|done]. unfold Genome_new in Hg.
  destruct (alphanumeric_string ln r). by injection Hg as <-.
Qed.

Section EvolveInvariant.
Context `{Rng R}.

(** One generation keeps the configuration and every recorded fitness
    right. *)
Lemma evolve_scored fuel e (r : R) e' obs r' :
  epoch_scored e -> evolve fuel e r = inr (e', obs, r') ->
  epoch_scored e' /\ config e' = config e.
Proof.
  intros [Hpop Hbest] (pop0 & r1 & keep & drawn & champ & surv & m & f & kids & Hsh & -> & _ &
    Hobs & Hch & _ & Hsurv & Hmate & ->)%evolve_inr.
  pose proof (shuffle_perm _ (population e) r) as Hp. rewrite Hsh in Hp. simpl in Hp.
  rewrite <- Hp in Hpop.
  destruct (combatants_forall (scored_ok (target (config e))) (target (config e)) keep drawn
    (fun g Hg => proj1 (evaluate_scored _ _ Hg)) Hpop) as [Hk Hc].
  pose proof (survivors_forall _ (num_offspring (config e)) _ Hc) as Hs.
  rewrite <- Hobs, <- Hsurv in Hs.
  apply mate_inr in Hmate as (_ & _ & _ & _ & _ & Hkids).
  split; [|done]. split; cbn [population config best].
  - apply Forall_app; split; [done|]. rewrite (app_assoc surv [m; f] kids). apply Forall_app; split; [done|].
    eapply Forall_impl; [apply Hkids|]. intros k Hk0 f0. congruence.
  - intros b. destruct (update_best_cases e champ) as [[-> _]|[-> _]]; [apply Hbest|].
    intros [= <-]. apply champ_elem in Hch. rewrite Hobs in Hch.
    split; [by eapply Forall_forall; [apply Hc|]|].
    apply list_elem_of_fmap in Hch as (g & -> & _). apply evaluate_fitness.
Qed.

(** The loop of [run] keeps the invariant, so its answer spells the
    target. *)
Lemma run_loop_correct gens fuel (w : Epoch) (r : R) champ :
  epoch_scored w -> run_loop gens fuel w r = inr champ -> genes champ = target (config w).
Proof.
  revert w r. induction gens as [|gens IH]; intros w r Hw; simpl; [done|].
  destruct (evolve fuel w r) as [err|[[w' obs] r']] eqn:Hev; simpl; [done|].
  destruct (evolve_scored _ _ _ _ _ _ Hw Hev) as [Hw' Hcfg]. rewrite <- Hcfg.
  destruct (best w') as [b|] eqn:Hb; [|by apply IH].
  case_decide as H0; [|by apply IH]. intros [= <-].
  destruct Hw' as [_ Hbb]. destruct (Hbb _ Hb) as [Hok _].
  apply levenshtein_zero_iff. symmetry. by apply Hok.
Qed.

End EvolveInvariant.

Section EvolveTheorems.
Context `{Rng R}.

(** One generation changes the population size by exactly
    [2 - num_offspring]: [tournament_size] combatants leave, and
    [tournament_size - num_offspring] survivors plus two children come
    back.  The size is conserved only when [num_offspring = 2]. *)
Theorem evolve_population_size fuel e (r : R) e' obs r' :
  evolve fuel e r = inr (e', obs, r') ->
  length (population e') + num_offspring (config e) = length (population e) + 2.
Proof.
  intros (pop0 & r1 & keep & drawn & champ & surv & m & f & kids & Hsh & -> & Hlen & -> & _ &
          Hts & Hsurv & Hmate & ->)%evolve_inr.
  apply mate_inr in Hmate as (_ & _ & _ & _ & Hkids & _).
  pose proof (shuffle_perm _ (population e) r) as Hp. rewrite Hsh in Hp. simpl in Hp.
  apply Permutation_length in Hp. rewrite length_app in Hp.
  apply (f_equal length) in Hsurv.
  rewrite length_app, length_reverse, cull_spec, length_take,
    (merge_sort_Permutation fitness_le _), length_fmap, length_reverse in Hsurv.
  simpl in *. rewrite !length_app. simpl. lia.
Qed.

(** One generation keeps every genome of the population non-empty
    and printable. *)
Theorem evolve_preserves_wf fuel e (r : R) e' obs r' :
  Forall genome_wf (population e) -> evolve fuel e r = inr (e', obs, r') ->
  Forall genome_wf (population e').
Proof.
  intros Hwf (pop0 & r1 & keep & drawn & champ & surv & m & f & kids & Hsh & -> & _ & -> & _ &
              _ & Hsurv & Hmate & ->)%evolve_inr.
  pose proof (shuffle_perm _ (population e) r) as Hp. rewrite Hsh in Hp. simpl in Hp.
  rewrite <- Hp in Hwf.
  destruct (combatants_forall genome_wf (target (config e)) keep drawn (evaluate_wf _) Hwf)
    as [Hk Hobs].
  pose proof (survivors_forall _ (num_offspring (config e)) _ Hobs) as Hs.
  rewrite <- Hsurv in Hs. apply Forall_app in Hs as [Hs Hmf].
  apply Forall_cons in Hmf as [Hm Hf]. apply Forall_cons in Hf as [Hf _].
  simpl. rewrite app_assoc. apply Forall_app; split; [apply Forall_app; by split|].
  constructor; [done|]. constructor; [done|]. exact (mate_kids_wf _ _ _ _ _ _ _ Hm Hf Hmate).
Qed.

(** C11: After a generation the best genome is set, it is at least as
    fit as every combatant of the generation, and it is at least as fit
    as the previous best: the best fitness never gets worse. *)
Theorem evolve_best_monotone fuel e (r : R) e' obs r' :
  (forall b, best e = Some b -> is_Some (fitness b)) ->
  evolve fuel e r = inr (e', obs, r') ->
  exists b', best e' = Some b' /\ Forall (fitness_le b') obs /\
    forall b, best e = Some b -> fitness_le b' b.
Proof.
  intros Hb (pop0 & r1 & keep & drawn & champ & surv & m & f & kids & _ & _ & _ & Hobs & Hch &
             _ & _ & _ & ->)%evolve_inr.
  pose proof (merge_sort_head_min _ _ Hch) as Hmin.
  assert (is_Some (fitness champ)) as [c Hc].
  { apply champ_elem in Hch. rewrite Hobs in Hch.
    apply list_elem_of_fmap in Hch as (g & -> & _). apply evaluate_fitness. }
  simpl. unfold update_best. destruct (best e) as [b|] eqn:Hbe.
  - destruct (Hb b eq_refl) as [y Hy].
    destruct (fitter_than champ b) eqn:Hf; simpl.
    + exists champ. split_and!; [done|done|]. intros b0 [= <-].
      unfold fitter_than, fitness_le in *. rewrite Hc, Hy in *. apply Nat.ltb_lt in Hf. lia.
    + exists b. split_and!; [done| |intros b0 [= <-]; apply fitness_le_refl].
      eapply Forall_impl; [apply Hmin|]. intros g Hg.
      unfold fitter_than in Hf. rewrite Hc, Hy in Hf. apply Nat.ltb_ge in Hf.
      unfold fitness_le in *. rewrite Hy. rewrite Hc in Hg. destruct (fitness g); lia.
  - exists champ. simpl. split_and!; [done|done|done].
Qed.

(** C21: A configuration with [tournament_size < num_offspring + 2]
    makes [evolve] panic (the [usize] subtraction underflows, or there
    is no combatant to index); nothing checks it when the search
    starts, since [run] never calls [Config::assert_invariants]. *)
Theorem evolve_bad_config_panics fuel e (r : R) :
  tournament_size (config e) < num_offspring (config e) + 2 ->
  evolve fuel e r = inl Panic.
Proof.
  intros Hts. unfold evolve. destruct (shuffle (population e) r) as [pop0 r1].
  destruct (draw_combatants _ _ pop0 []) as [pop1 cs].
  destruct (merge_sort fitness_le cs !! 0); [|done].
  case_decide; [done|lia].
Qed.

(** C22: A population smaller than a tournament makes [evolve] panic:
    fewer than two combatants survive the cull and the bystanders, and
    [combatants.pop().unwrap()] fails (the spec wants this logged and
    survived). *)
Theorem evolve_small_population_panics fuel e (r : R) :
  length (population e) < tournament_size (config e) ->
  evolve fuel e r = inl Panic.
Proof.
  intros Hsmall. unfold evolve. destruct (shuffle (population e) r) as [pop0 r1] eqn:Hsh.
  pose proof (shuffle_perm _ (population e) r) as Hp. rewrite Hsh in Hp. simpl in Hp.
  apply Permutation_length in Hp.
  destruct (draw_combatants_spec (target (config e)) (tournament_size (config e)) pop0 [])
    as (drawn & Hpop & Hlen & Hcs).
  destruct (draw_combatants _ _ pop0 []) as [pop1 cs]. simpl in Hpop, Hcs. subst cs.
  set (sorted := merge_sort fitness_le _).
  assert (length sorted = length drawn) as Hls.
  { unfold sorted. by rewrite (merge_sort_Permutation _ _), length_fmap, length_reverse. }
  destruct (sorted !! 0); [|done]. case_decide; [done|].
  rewrite requeue_spec, cull_spec.
  set (culled := take _ sorted).
  set (k := length culled - _).
  assert (length (take k culled) <= 1) as Hk.
  { rewrite length_take. unfold k, culled. rewrite length_take. lia. }
  destruct (vec_pop (take k culled)) as [[mother rest]|] eqn:Hm; [|done].
  apply vec_pop_Some in Hm. rewrite Hm, length_app in Hk. simpl in Hk.
  by destruct rest; [|simpl in Hk; lia].
Qed.

(** C1: [run] only returns a genome that spells the target: every
    fitness the population carries is the true edit distance, so a
    champion of fitness 0 is the target itself. *)
Theorem run_correct gens fuel (cfg : Config) (r : R) champ :
  run gens fuel cfg r = inr champ -> genes champ = target cfg.
Proof.
  unfold run, Epoch_new. pose proof (new_population_unscored (pop_size cfg) (init_len cfg) r) as Hnew.
  destruct (new_population _ _ r) as [pop r1]. simpl in Hnew.
  intros Hr. apply run_loop_correct in Hr; [done|]. split; simpl; [|done].
  eapply Forall_impl; [apply Hnew|]. intros g Hg f0. congruence.
Qed.

(** C8: Termination of a generation: on a population of non-empty
    printable genomes at least a tournament large, with a valid
    configuration and a generator whose bytes are eventually printable,
    [evolve] returns. *)
Theorem evolve_returns fuel e (r : R) :
  fair_bytes fuel -> Forall genome_wf (population e) ->
  num_offspring (config e) + 2 <= tournament_size (config e) ->
  tournament_size (config e) <= length (population e) ->
  exists e' obs r', evolve fuel e r = inr (e', obs, r').
Proof.
  intros Hfair Hwf Hts Hsize. unfold evolve. destruct (shuffle (population e) r) as [pop0 r1] eqn:Hsh.
  pose proof (shuffle_perm _ (population e) r) as Hp. rewrite Hsh in Hp. simpl in Hp.
  rewrite <- Hp in Hwf. apply Permutation_length in Hp.
  destruct (draw_combatants_spec (target (config e)) (tournament_size (config e)) pop0 [])
    as (drawn & Hpop & Hlen & Hcs).
  destruct (draw_combatants _ _ pop0 []) as [pop1 cs]. simpl in Hpop, Hcs. subst cs.
  rewrite Hpop in Hwf.
  destruct (combatants_forall genome_wf (target (config e)) pop1 drawn (evaluate_wf _) Hwf)
    as [_ Hobs].
  set (sorted := merge_sort fitness_le _).
  assert (length sorted = tournament_size (config e)) as Hls.
  { unfold sorted. rewrite (merge_sort_Permutation _ _), length_fmap, length_reverse. lia. }
  assert (Forall genome_wf sorted) as Hsorted by (unfold sorted; by rewrite (merge_sort_Permutation _ _)).
  destruct (sorted !! 0) as [champ|] eqn:Hch; [|apply lookup_ge_None in Hch; lia].
  rewrite decide_False by lia. rewrite requeue_spec, cull_spec.
  set (culled := take _ sorted). set (k := length culled - _).
  assert (length (take k culled) = 2) as Hk.
  { rewrite length_take. unfold k, culled. rewrite length_take. lia. }
  assert (Forall genome_wf (take k culled)) as Htk by (by apply Forall_take, Forall_take).
  destruct (take k culled) as [|x [|y [|z l]]]; simpl in Hk; try lia.
  apply Forall_cons in Htk as [Hx [Hy _]%Forall_cons]. simpl.
  destruct (mate_succeeds fuel y x (config e) r1 Hfair Hy Hx) as (kids & r2 & ->). simpl. eauto.
Qed.

(** C4: Selection: after a generation the population is the rest of
    the shuffled population (the shuffle less the [tournament_size]
    combatants drawn from its end, which are what was scored and
    observed), then the bystanders, which are exactly the combatants of
    ranks [2 .. tournament_size - num_offspring - 1] pushed back from
    the weakest up, then the parents and the children [mate] made of
    them; the father is the fittest combatant and the mother the second
    fittest, and the [num_offspring] least fit are gone. *)
Theorem evolve_selection fuel e (r : R) e' obs r' :
  evolve fuel e r = inr (e', obs, r') ->
  exists keep drawn mother father kids r1,
    keep ++ drawn ≡ₚ population e /\
    obs = evaluate (target (config e)) <$> reverse drawn /\
    population e' = keep ++
      reverse (drop 2 (take (tournament_size (config e) - num_offspring (config e)) (merge_sort fitness_le obs))) ++
      [mother; father] ++ kids /\
    merge_sort fitness_le obs !! 0 = Some father /\
    merge_sort fitness_le obs !! 1 = Some mother /\
    mate fuel mother father (config e) r1 = inr (kids, r') /\ length kids = 2.
Proof.
  intros (pop0 & r1 & keep & drawn & champ & surv & m & f & kids & Hsh & Hpop & Hlen & Hobs & _ &
          Hts & Hsurv & Hmate & ->)%evolve_inr.
  pose proof (shuffle_perm _ (population e) r) as Hp. rewrite Hsh, Hpop in Hp. simpl in Hp.
  assert (length (merge_sort fitness_le obs) = tournament_size (config e)) as Hls.
  { by rewrite (merge_sort_Permutation _ _), Hobs, length_fmap, length_reverse. }
  apply (f_equal reverse) in Hsurv. rewrite reverse_involutive, reverse_app, cull_spec, Hls in Hsurv.
  simpl in Hsurv.
  exists keep, drawn, m, f, kids, r1. split_and!; [done|done| | | |done|].
  - cbn [population]. rewrite <- Hsurv. cbn [drop]. by rewrite drop_0, reverse_involutive.
  - rewrite <- (lookup_take_lt _ (tournament_size (config e) - num_offspring (config e))) by lia.
    by rewrite <- Hsurv.
  - rewrite <- (lookup_take_lt _ (tournament_size (config e) - num_offspring (config e))) by lia.
    by rewrite <- Hsurv.
  - by apply mate_inr in Hmate as (_ & _ & _ & _ & Hkids & _).
Qed.

End EvolveTheorems.

(** ** Witnesses

    A generation of four genomes with a tournament of four and two
    offspring, on the tape generator: the two weakest combatants are
    culled, the two fittest mate. *)

Lemma evolve_population_size_witness :
  exists e' obs r', evolve 1 (demo_epoch 4 2 ["AA"; "AB"; "BB"; "BA"]) ([] : Tape) = inr (e', obs, r') /\
    length (population e') + 2 = 4 + 2.
Proof.
  destruct (evolve 1 (demo_epoch 4 2 ["AA"; "AB"; "BB"; "BA"]) ([] : Tape))
    as [err|[[e' obs] r']] eqn:Hev; [vm_compute in Hev; discriminate|].
  exists e', obs, r'. split; [done|]. exact (evolve_population_size _ _ _ _ _ _ Hev).
Defined.

Lemma evolve_preserves_wf_witness :
  exists e' obs r', evolve 1 (demo_epoch 4 2 ["AA"; "AB"; "BB"; "BA"]) ([] : Tape) = inr (e', obs, r') /\
    Forall genome_wf (population e').
Proof.
  destruct (evolve 1 (demo_epoch 4 2 ["AA"; "AB"; "BB"; "BA"]) ([] : Tape))
    as [err|[[e' obs] r']] eqn:Hev; [vm_compute in Hev; discriminate|].
  exists e', obs, r'. split; [done|]. refine (evolve_preserves_wf _ _ _ _ _ _ _ Hev).
  apply (bool_decide_unpack _). vm_compute. exact I.
Defined.

Lemma evolve_best_monotone_witness :
  exists e' obs r', evolve 1 (demo_epoch 4 2 ["AA"; "AB"; "BB"; "BA"]) ([] : Tape) = inr (e', obs, r') /\
    exists b', best e' = Some b' /\ Forall (fitness_le b') obs.
Proof.
  destruct (evolve 1 (demo_epoch 4 2 ["AA"; "AB"; "BB"; "BA"]) ([] : Tape))
    as [err|[[e' obs] r']] eqn:Hev; [vm_compute in Hev; discriminate|].
  exists e', obs, r'. split; [done|].
  assert (forall b, best (demo_epoch 4 2 ["AA"; "AB"; "BB"; "BA"]) = Some b -> is_Some (fitness b))
    as Hnone by discriminate.
  destruct (evolve_best_monotone _ _ _ _ _ _ Hnone Hev) as (b' & Hb & Hle & _).
  eauto.
Defined.

Lemma evolve_bad_config_panics_witness :
  evolve 1 (demo_epoch 3 2 ["AA"; "AB"; "BB"; "BA"]) ([] : Tape) = inl Panic.
Proof. apply evolve_bad_config_panics. simpl. lia. Defined.

Lemma evolve_small_population_panics_witness :
  evolve 1 (demo_epoch 4 2 ["AA"; "AB"; "BB"]) ([] : Tape) = inl Panic.
Proof. apply evolve_small_population_panics. simpl. lia. Defined.

Lemma run_correct_witness :
  genes (mkGenome (String.list_ascii_of_string "AA") (Some 0)) = target (demo_config "AA" 0 4 2).
Proof. apply (run_correct (R:=Tape) 1 1 (demo_config "AA" 0 4 2) [] _). vm_compute. reflexivity. Defined.

Lemma evolve_returns_witness :
  exists e' obs r', evolve 1 (demo_epoch 4 2 ["AA"; "AB"; "BB"; "BA"]) tt = inr (e', obs, r').
Proof.
  apply evolve_returns.
  - intros []. exists 65%Z. split; [vm_compute; left|reflexivity].
  - apply (bool_decide_unpack _). vm_compute. exact I.
  - simpl. lia.
  - simpl. lia.
Defined.

Lemma evolve_selection_witness :
  exists e' obs r', evolve 1 (demo_epoch 4 1 ["AA"; "AB"; "BB"; "BA"]) ([] : Tape) = inr (e', obs, r') /\
    exists keep drawn mother father kids r1,
      keep ++ drawn ≡ₚ population (demo_epoch 4 1 ["AA"; "AB"; "BB"; "BA"]) /\
      obs = evaluate (String.list_ascii_of_string "AB") <$> reverse drawn /\
      population e' = keep ++ reverse (drop 2 (take (4 - 1) (merge_sort fitness_le obs))) ++
                      [mother; father] ++ kids /\
      merge_sort fitness_le obs !! 0 = Some father /\ merge_sort fitness_le obs !! 1 = Some mother /\
      mate 1 mother father (demo_config "AB" 0 4 1) r1 = inr (kids, r') /\ length kids = 2.
Proof.
  destruct (evolve 1 (demo_epoch 4 1 ["AA"; "AB"; "BB"; "BA"]) ([] : Tape))
    as [err|[[e' obs] r']] eqn:Hev; [vm_compute in Hev; discriminate|].
  exists e', obs, r'. split; [done|].
  exact (evolve_selection 1 (demo_epoch 4 1 ["AA"; "AB"; "BB"; "BA"]) [] e' obs r' Hev).
Defined.
