(* ===== verification/Run.v ===== *)
(** * The generation loop as a transition system ([src/examples/hello_world.rs], lines 264-281)

    [run] builds an [Epoch] and then repeats [world = world.evolve(..)].
    Here one iteration is a step [gen_step] on the pair of the epoch and
    the generator, and a state is [reachable] when some sequence of
    steps leads to it from [Epoch::new] (the way ConCert defines the
    reachable states of a chain).  The theorems are the invariants of
    every reachable state, proved once per step and lifted along the
    trace with [star_invariant]: the configuration never changes, every
    genome stays non-empty and printable and carries its true fitness
    (the type invariant of the population), and the population size
    after [k] generations is [pop_size + k * (2 - num_offspring)].
    [run_loop] is shown to be the iteration of [gen_step] that stops at
    the first champion of fitness 0. *)

From S2P Require Import Prelude Rng Levenshtein Genome EvalThread Epoch.
From Stdlib Require Import Ascii.

Section Run.
Context `{Rng R} (fuel : nat).

(** One iteration of [run]'s loop: [world = world.evolve(&observer, &evaluator)]. *)
Definition gen_step (s s' : Epoch * R) : Prop :=
  exists obs, evolve fuel s.1 s.2 = inr (s'.1, obs, s'.2).

(** The states [run] can reach from [Epoch::new(config)]. *)
Definition reachable (cfg : Config) (r0 : R) (s : Epoch * R) : Prop :=
  star gen_step (Epoch_new cfg r0) s.

(** What holds of every epoch of a run of [cfg]: the configuration,
    well-formed genomes with true fitnesses, and the population size
    after [iteration] generations. *)
Definition epoch_inv (cfg : Config) (e : Epoch) : Prop :=
  config e = cfg /\ Forall genome_wf (population e) /\ epoch_scored e /\
  length (population e) + iteration e * num_offspring cfg = pop_size cfg + 2 * iteration e.

End Run.

(** ** Lemmas *)

Section RunLemmas.
Context `{Rng R}.

Lemma alphanumeric_string_spec n (r : R) :
  length (alphanumeric_string n r).1 = n /\ Forall (fun c => printable c = true) (alphanumeric_string n r).1.
Proof.
  revert r. induction n as [|n IH]; intros r; simpl; [done|].
  pose proof (sample_alphanumeric_ok r) as Hok.
  destruct (sample_alphanumeric r) as [c r1]. destruct (IH r1) as [Hl Hp].
  destruct (alphanumeric_string n r1) as [s r2]. simpl in *.
  split; [by rewrite Hl|]. constructor; [by apply alphanumeric_printable|done].
Qed.

(** [Epoch::new] builds [pop_size] unscored genomes of [init_len]
    alphanumeric bytes. *)
Lemma new_population_spec n ln (r : R) :
  length (new_population n ln r).1 = n /\
  Forall (fun g => len g = ln /\ Forall (fun c => printable c = true) (genes g) /\ fitness g = None)
         (new_population n ln r).1.
Proof.
  revert r. induction n as [|n IH]; intros r; simpl; [done|].
  destruct (Genome_new ln r) as [g r1] eqn:Hg. destruct (IH r1) as [Hl Hall].
  destruct (new_population n ln r1) as [gs r2]. simpl in *.
  split; [by rewrite Hl|]. constructor; [|done].
  unfold Genome_new in Hg. pose proof (alphanumeric_string_spec ln r) as [Hsl Hsp].
  destruct (alphanumeric_string ln r) as [s r']. injection Hg as <- _. done.
Qed.

Lemma epoch_inv_new (cfg : Config) (r : R) :
  init_len cfg <> 0 -> epoch_inv cfg (Epoch_new cfg r).1.
Proof.
  intros Hlen. unfold Epoch_new. destruct (new_population_spec (pop_size cfg) (init_len cfg) r) as [Hl Hall].
  destruct (new_population _ _ r) as [pop r']. simpl in *.
  split_and!; [done| | |simpl; lia].
  - eapply Forall_impl; [apply Hall|]. intros g (Hg & Hp & _). split; [congruence|done].
  - split; [|done]. eapply Forall_impl; [apply Hall|]. intros g (_ & _ & Hf) f Hf'. congruence.
Qed.

Lemma epoch_inv_step fuel (cfg : Config) (s s' : Epoch * R) :
  epoch_inv cfg s.1 -> gen_step fuel s s' -> epoch_inv cfg s'.1.
Proof.
  intros (Hcfg & Hwf & Hsc & Hsize) [obs Hev].
  pose proof Hev as (pop0 & r1 & keep & drawn & champ & surv & m & f & kids & _ & _ & _ & _ & _ &
    _ & _ & _ & Hit)%evolve_inr.
  destruct (evolve_scored _ _ _ _ _ _ Hsc Hev) as [Hsc' Hcfg'].
  pose proof (evolve_population_size _ _ _ _ _ _ Hev) as Hlen.
  split_and!; [congruence|exact (evolve_preserves_wf _ _ _ _ _ _ Hwf Hev)|done|].
  assert (iteration s'.1 = S (iteration s.1)) as Hi by (by rewrite Hit). rewrite Hcfg in Hlen. nia.
Qed.

(** Every reachable state satisfies [epoch_inv]. *)
Lemma reachable_epoch_inv fuel (cfg : Config) (r0 : R) (s : Epoch * R) :
  init_len cfg <> 0 -> reachable fuel cfg r0 s -> epoch_inv cfg s.1.
Proof.
  intros Hlen Hr. apply (star_invariant (gen_step fuel) (fun s => epoch_inv cfg s.1) (Epoch_new cfg r0) s); [| |exact Hr].
  - intros a b. apply epoch_inv_step.
  - by apply epoch_inv_new.
Qed.

(** The loop of [run] follows [gen_step] until the best has fitness 0. *)
Lemma run_loop_reaches gens fuel (w : Epoch) (r : R) champ :
  run_loop gens fuel w r = inr champ ->
  exists s, star (gen_step fuel) (w, r) s /\ best s.1 = Some champ /\ fitness champ = Some 0.
Proof.
  revert w r. induction gens as [|gens IH]; intros w r; simpl; [done|].
  destruct (evolve fuel w r) as [e|[[w' obs] r']] eqn:Hev; cbn [res_bind]; [done|].
  assert (gen_step fuel (w, r) (w', r')) as Hstep by (by exists obs).
  simpl. destruct (best w') as [b|] eqn:Hb.
  - case_decide as H0.
    + intros [= <-]. exists (w', r'). split_and!; [by apply star_one|done|done].
    + intros (s & Hs & Hbest & Hf)%IH. exists s. split; [by eapply star_step|done].
  - intros (s & Hs & Hbest & Hf)%IH. exists s. split; [by eapply star_step|done].
Qed.

End RunLemmas.

Section RunTheorems.
Context `{Rng R}.

(** C17: The type invariant of a run: in every state [run] reaches from
    a configuration with [init_len > 0], the configuration is unchanged,
    every genome is non-empty and printable (so [as_bytes_mut] never
    breaks UTF-8), and every fitness a genome or the best carries is
    its true edit distance to the target. *)
Theorem reachable_wf fuel (cfg : Config) (r0 : R) (s : Epoch * R) :
  init_len cfg <> 0 -> reachable fuel cfg r0 s ->
  config s.1 = cfg /\ Forall genome_wf (population s.1) /\ epoch_scored s.1.
Proof.
  intros Hlen Hr. by destruct (reachable_epoch_inv fuel cfg r0 s Hlen Hr) as (Hc & Hw & Hs & _).
Qed.

(** C6: The population drifts by [2 - num_offspring] per generation:
    after [k] generations of a run it has [pop_size + 2k - k *
    num_offspring] genomes. *)
Theorem reachable_population_size fuel (cfg : Config) (r0 : R) (s : Epoch * R) :
  init_len cfg <> 0 -> reachable fuel cfg r0 s ->
  length (population s.1) + iteration s.1 * num_offspring cfg = pop_size cfg + 2 * iteration s.1.
Proof.
  intros Hlen Hr. by destruct (reachable_epoch_inv fuel cfg r0 s Hlen Hr) as (_ & _ & _ & Hsize).
Qed.

(** C26: Refinement of [run] by the transition system: the genome [run]
    returns is the best genome of a state reachable from [Epoch::new]
    by generation steps, and its fitness is 0. *)
Theorem run_reaches gens fuel (cfg : Config) (r0 : R) champ :
  run gens fuel cfg r0 = inr champ ->
  exists s, reachable fuel cfg r0 s /\ best s.1 = Some champ /\ fitness champ = Some 0.
Proof.
  unfold run, reachable. destruct (Epoch_new cfg r0) as [w r1]. apply run_loop_reaches.
Qed.

End RunTheorems.

(** ** Witnesses

    One generation of the configuration of [demo_config] from a tape:
    six genomes of ["AA"], a tournament of four, two offspring. *)

Lemma reachable_wf_witness :
  exists s, reachable 1 (demo_config "AB" 0 4 2) ([] : Tape) s /\ iteration s.1 = 1 /\
    config s.1 = demo_config "AB" 0 4 2 /\ Forall genome_wf (population s.1).
Proof.
  destruct (evolve 1 (Epoch_new (demo_config "AB" 0 4 2) ([] : Tape)).1 (Epoch_new (demo_config "AB" 0 4 2) ([] : Tape)).2)
    as [e|[[e' obs] r']] eqn:Hev; [vm_compute in Hev; discriminate|].
  assert (reachable 1 (demo_config "AB" 0 4 2) ([] : Tape) (e', r')) as Hr
    by (apply star_one; exists obs; exact Hev).
  exists (e', r'). split_and!; [done| | |].
  - destruct (evolve_inr _ _ _ _ _ _ Hev) as (pop0 & r1 & keep & drawn & champ & surv & m & f & kids & _ & _ & _ & _ & _ & _ & _ & _ & Hit). by rewrite Hit.
  - assert (init_len (demo_config "AB" 0 4 2) <> 0) as Hl by (simpl; lia).
    exact (proj1 (reachable_wf 1 _ [] (e', r') Hl Hr)).
  - assert (init_len (demo_config "AB" 0 4 2) <> 0) as Hl by (simpl; lia).
    exact (proj1 (proj2 (reachable_wf 1 _ [] (e', r') Hl Hr))).
Defined.

Lemma reachable_population_size_witness :
  exists s, reachable 1 (demo_config "AB" 0 4 2) ([] : Tape) s /\
    length (population s.1) + iteration s.1 * 2 = 6 + 2 * iteration s.1.
Proof.
  destruct (evolve 1 (Epoch_new (demo_config "AB" 0 4 2) ([] : Tape)).1 (Epoch_new (demo_config "AB" 0 4 2) ([] : Tape)).2)
    as [e|[[e' obs] r']] eqn:Hev; [vm_compute in Hev; discriminate|].
  assert (reachable 1 (demo_config "AB" 0 4 2) ([] : Tape) (e', r')) as Hr
    by (apply star_one; exists obs; exact Hev).
  exists (e', r'). split; [done|].
  assert (init_len (demo_config "AB" 0 4 2) <> 0) as Hl by (simpl; lia).
  exact (reachable_population_size 1 (demo_config "AB" 0 4 2) [] (e', r') Hl Hr).
Defined.

Lemma run_reaches_witness :
  exists s, reachable 1 (demo_config "AA" 0 4 2) ([] : Tape) s /\
    best s.1 = Some (mkGenome (String.list_ascii_of_string "AA") (Some 0)) /\
    fitness (mkGenome (String.list_ascii_of_string "AA") (Some 0)) = Some 0.
Proof.
  apply (run_reaches 1 1 (demo_config "AA" 0 4 2) [] _). vm_compute. reflexivity.
Defined.
