(* ===== verification/ObservedRun.v ===== *)
(** * The generation loop and the observer together ([src/examples/hello_world.rs],
    lines 166-181 and 264-270)

    [run] spawns one [Observer] and passes it to every [evolve]; each
    combatant [evolve] scores is sent on the observer's channel
    ([observer.observe(scored.clone())], whose [Result] is dropped),
    and the observer's thread averages them window by window.  Here
    [evolve_n] runs [n] generations and threads the observer through
    them the way [run] does: the genomes of each generation are sent in
    the order [evolve] scored them.  The theorems compose [Run] (every
    state is reachable), [Epoch] (a generation sends [tournament_size]
    scored genomes) and [Observer] (a window of [window_size] reports
    once per [window_size] genomes): after [n] generations the thread
    has logged [n * tournament_size / window_size] averages, none of them
    a NaN; with [window_size = 0] the thread panics at once while the
    generations go on, since [evolve] ignores the failed sends. *)

From S2P Require Import Prelude Rng Genome Observer Epoch Run.

Section ObservedRun.
Context `{Rng R}.

(** [n] iterations of [world = world.evolve(&observer, &evaluator)],
    sending each generation's scored combatants to [observer]. *)
Fixpoint evolve_n (n fuel : nat) (w : Epoch) (r : R) (o : Observer) : Res (Epoch * R * Observer) :=
  match n with
  | O => inr (w, r, o)
  | S n' =>
      let* (w_obs, r') := evolve fuel w r in
      evolve_n n' fuel w_obs.1 r' (foldl Observer_observe o w_obs.2)
  end.

(** [run]'s set-up followed by [n] generations: [Epoch::new(config)]
    and [Observer::spawn(&world.config)]. *)
Definition run_observed (n fuel : nat) (cfg : Config) (r0 : R) : Res (Epoch * R * Observer) :=
  let '(w, r1) := Epoch_new cfg r0 in evolve_n n fuel w r1 (Observer_spawn cfg).

End ObservedRun.

(** ** Lemmas *)

Section ObservedRunLemmas.
Context `{Rng R}.

(** One generation sends [tournament_size] scored genomes and keeps the
    configuration. *)
Lemma evolve_observations fuel e (r : R) e' obs r' :
  evolve fuel e r = inr (e', obs, r') ->
  length obs = tournament_size (config e) /\ Forall (fun g => is_Some (fitness g)) obs /\
  config e' = config e.
Proof.
  intros (pop0 & r1 & keep & drawn & champ & surv & m & f & kids & _ & _ & Hlen &
    -> & _ & _ & _ & _ & ->)%evolve_inr.
  rewrite length_fmap, length_reverse. split_and!; [done| |done].
  apply Forall_fmap, Forall_forall. intros g _. apply evaluate_fitness.
Qed.

(** What [n] generations do to the state and to the channel: the state
    is reached by [n] generation steps, and [n * tournament_size] scored
    genomes were appended to [tx]. *)
Lemma evolve_n_spec n fuel (w : Epoch) (r : R) (o : Observer) s r' o' :
  evolve_n n fuel w r o = inr (s, r', o') ->
  exists obs, star (gen_step fuel) (w, r) (s, r') /\ o' = mkObserver (observer_params o) (tx o ++ obs) /\
    length obs = n * tournament_size (config w) /\
    Forall (fun g => is_Some (fitness g)) obs /\ config s = config w.
Proof.
  revert w r o. induction n as [|n IH]; intros w r o; simpl.
  - intros [= -> -> <-]. exists []. destruct o. rewrite app_nil_r. split_and!; eauto with berb.
  - destruct (evolve fuel w r) as [err|[[w1 obs1] r1]] eqn:Hev; simpl; [done|].
    intros (obs2 & Hstar & -> & Hlen2 & Hsc2 & Hcfg2)%IH.
    destruct (evolve_observations _ _ _ _ _ _ Hev) as (Hlen1 & Hsc1 & Hcfg1).
    rewrite Observer_observe_all. simpl. exists (obs1 ++ obs2).
    split_and!.
    + apply star_step with (w1, r1); [by exists obs1|done].
    + by rewrite app_assoc.
    + rewrite length_app, Hlen1, Hlen2, Hcfg1. lia.
    + by apply Forall_app.
    + congruence.
Qed.

(** A thread over a positive window logs one report per [window_size]
    genomes, none a NaN when every genome is scored. *)
Lemma observer_thread_reports (params : Config) (obs : list Genome) :
  0 < window_size (observer params) -> Forall (fun g => is_Some (fitness g)) obs ->
  exists reps, observer_thread params obs = inr reps /\
    length reps = length obs / window_size (observer params) /\ NaN ∉ reps.
Proof.
  intros Hws Hsc. unfold observer_thread.
  destruct (Window.new (window_size (observer params))) as [err|w] eqn:Hnew.
  { unfold Window.new in Hnew. by rewrite decide_True in Hnew. }
  destruct (new_wf _ _ Hnew) as (Hwf & Hsz & Hi).
  destruct (observe_all_window _ obs w Hwf Hsz) as (w' & reps & Hobs & _ & Hlen). rewrite Hi in Hlen.
  exists reps. simpl. rewrite Hobs. simpl. split_and!; [done|done|].
  apply (observe_all_no_nan w obs w' reps); [|done|done]. done.
Qed.

End ObservedRunLemmas.

(** ** Theorems *)

Section ObservedRunTheorems.
Context `{Rng R}.

(** C16: Composition of the run and the observer: when [n] generations
    of [run] return, the state is reachable from [Epoch::new], and the
    observer's thread, over a positive window, has received the
    [n * tournament_size] scored combatants and logged
    [n * tournament_size / window_size] averages, none of them a NaN. *)
Theorem run_observed_reports n fuel (cfg : Config) (r0 : R) s r o :
  run_observed n fuel cfg r0 = inr (s, r, o) -> 0 < window_size (observer cfg) ->
  reachable fuel cfg r0 (s, r) /\ length (tx o) = n * tournament_size cfg /\
  exists reps, Observer_handle o = inr reps /\
    length reps = n * tournament_size cfg / window_size (observer cfg) /\ NaN ∉ reps.
Proof.
  unfold run_observed, reachable. destruct (Epoch_new cfg r0) as [w r1] eqn:Hnew.
  intros (obs & Hstar & -> & Hlen & Hsc & _)%evolve_n_spec Hws.
  assert (config w = cfg) as Hcfg by (unfold Epoch_new in Hnew; destruct (new_population _ _ r0); by injection Hnew as <- _).
  rewrite Hcfg in Hlen. unfold Observer_handle. simpl.
  destruct (observer_thread_reports cfg obs Hws Hsc) as (reps & Hth & Hl & Hnan).
  split_and!; [done|done|]. exists reps. by rewrite Hl, Hlen.
Qed.

(** C23: A window of size 0 kills the observer: its thread panics in
    [Window::new] whatever was sent, and only then; a thread over a
    positive window never panics. *)
Theorem observer_handle_panics (o : Observer) :
  Observer_handle o = inl Panic <-> window_size (observer (observer_params o)) = 0.
Proof.
  unfold Observer_handle, observer_thread. split.
  - intros Hp. destruct (decide (window_size (observer (observer_params o)) = 0)) as [|Hws]; [done|].
    destruct (Window.new _) as [err|w] eqn:Hnew; [unfold Window.new in Hnew; rewrite decide_True in Hnew by lia; done|].
    destruct (new_wf _ _ Hnew) as (Hwf & Hsz & _).
    destruct (observe_all_window _ (tx o) w Hwf Hsz) as (w' & reps & Hobs & _). simpl in Hp.
    by rewrite Hobs in Hp.
  - intros Hws. unfold Window.new. rewrite Hws. done.
Qed.

End ObservedRunTheorems.

(** ** Witnesses *)

Lemma run_observed_reports_witness :
  exists s r o, run_observed 1 1 (demo_config "AB" 0 4 2) ([] : Tape) = inr (s, r, o) /\
    reachable 1 (demo_config "AB" 0 4 2) ([] : Tape) (s, r) /\ length (tx o) = 1 * 4 /\
    exists reps, Observer_handle o = inr reps /\ length reps = 1 * 4 / 2 /\ NaN ∉ reps.
Proof.
  destruct (run_observed 1 1 (demo_config "AB" 0 4 2) ([] : Tape)) as [err|[[s r] o]] eqn:Hrun;
    [vm_compute in Hrun; discriminate|].
  assert (0 < window_size (observer (demo_config "AB" 0 4 2))) as Hws by (simpl; lia).
  exists s, r, o. split; [done|].
  exact (run_observed_reports 1 1 (demo_config "AB" 0 4 2) [] s r o Hrun Hws).
Defined.
